(** * image_duplicate_finder: hashes, Hamming distance and duplicate grouping

    A shallow embedding of [src/image_duplicate_finder.py]:
    the three hash functions, [hamming_distance] and the grouping loop
    of [find_duplicate_images].

    Conventions of the embedding.
    - Python [int] is [Z]; a NumPy [int64] scalar is a [Z] kept in
      [-2^63, 2^63) by [wrap_int64].
    - A Python exception is the [Raise] branch of [res].
    - A fingerprint is the hexadecimal string the hash functions return.
    - The set [processed] of the grouping loop is a [gset string]. *)

From Stdlib Require Import ZArith QArith Ascii String.
From stdpp Require Import base decidable option list gmap strings pretty.

#[local] Set Warnings "-clear-no-such-hyp".

Local Open Scope string_scope.
Local Open Scope list_scope.
Local Open Scope Z_scope.

(** ** Exceptions *)

Inductive exn : Type :=
| ValueError
| IndexError
| ZeroDivisionError.

Inductive res (A : Type) : Type :=
| Ok (a : A)
| Raise (e : exn).

Arguments Ok {A} a.
Arguments Raise {A} e.

#[global] Instance res_ret : MRet res := fun A a => Ok a.
#[global] Instance res_bind : MBind res := fun A B f m =>
  match m with
  | Ok a => f a
  | Raise e => Raise e
  end.

(** [for x in l: s = body(s, x)], stopping at the first exception. *)
Fixpoint for_each {St A : Type} (l : list A) (body : St -> A -> res St) (s : St)
  : res St :=
  match l with
  | [] => Ok s
  | x :: l' => s' ← body s x; for_each l' body s'
  end.

(** [range(n)] and [enumerate(l)]. *)
Definition range (n : nat) : list nat := seq 0 n.

Fixpoint enumerate_from {A : Type} (k : nat) (l : list A) : list (nat * A) :=
  match l with
  | [] => []
  | x :: l' => (k, x) :: enumerate_from (S k) l'
  end.

Definition enumerate {A : Type} (l : list A) : list (nat * A) :=
  enumerate_from 0 l.

(** [l[k]] for a non-negative index. *)
Definition getitem {A : Type} (l : list A) (k : nat) : res A :=
  match l !! k with
  | Some x => Ok x
  | None => Raise IndexError
  end.

(** ** Hexadecimal text *)

(** [int(s, 16)] on the strings the hash functions produce: an optional
    sign followed by one or more hexadecimal digits.  (Python's [int]
    also accepts surrounding white space, a [0x] prefix and single
    underscores between digits; [format] never emits them, and they are
    rejected here.) *)
Definition hex_digit (c : ascii) : option Z :=
  let n := Z.of_nat (nat_of_ascii c) in
  if (48 <=? n) && (n <=? 57) then Some (n - 48)
  else if (97 <=? n) && (n <=? 102) then Some (n - 87)
  else if (65 <=? n) && (n <=? 70) then Some (n - 55)
  else None.

Fixpoint hex_digits (acc : Z) (s : string) : option Z :=
  match s with
  | EmptyString => Some acc
  | String c s' =>
      match hex_digit c with
      | Some d => hex_digits (16 * acc + d) s'
      | None => None
      end
  end.

Definition hex_magnitude (s : string) : res Z :=
  match s with
  | EmptyString => Raise ValueError
  | _ => match hex_digits 0 s with
         | Some v => Ok v
         | None => Raise ValueError
         end
  end.

Definition int16 (s : string) : res Z :=
  match s with
  | String "-"%char s' => v ← hex_magnitude s'; Ok (- v)
  | String "+"%char s' => hex_magnitude s'
  | _ => hex_magnitude s
  end.

(** Lower-case hexadecimal digits of a non-negative integer, most
    significant first ([fuel] bounds the number of digits). *)
Definition hex_char (d : Z) : ascii :=
  if d <? 10 then ascii_of_nat (Z.to_nat (48 + d))
  else ascii_of_nat (Z.to_nat (87 + d)).

Fixpoint hex_of (fuel : nat) (v : Z) : string :=
  match fuel with
  | O => String (hex_char (v mod 16)) EmptyString
  | S fuel' =>
      if v <? 16 then String (hex_char v) EmptyString
      else (hex_of fuel' (v / 16) ++ String (hex_char (v mod 16)) EmptyString)%string
  end.

Definition hex (v : Z) : string := hex_of (Z.to_nat (Z.log2 v)) v.

Fixpoint zeros (k : nat) : string :=
  match k with
  | O => EmptyString
  | S k' => String "0"%char (zeros k')
  end.

(** [format(v, '0{width}x')]: sign-aware zero padding to [width]
    characters; a negative value is written as [-] and the digits of its
    magnitude. *)
Definition format_hex (v : Z) (width : nat) : string :=
  if v <? 0 then
    let d := hex (- v) in
    String "-"%char (zeros (width - 1 - String.length d) ++ d)%string
  else
    let d := hex v in
    (zeros (width - String.length d) ++ d)%string.

(** ** Packing bits *)

(** The loop [decimal_value = 0; for bit in bits:
    decimal_value = (decimal_value << 1) | bit] over Python [bool]s:
    the accumulator is an unbounded Python [int]. *)
Definition pack_bits (bits : list bool) : Z :=
  fold_left (fun v b => Z.lor (Z.shiftl v 1) (Z.b2z b)) bits 0.

(** A NumPy [int64], the default integer of NumPy (on Linux and macOS,
    and on every 64-bit platform from NumPy 2): shifts wrap around in
    two's complement. *)
Definition wrap_int64 (z : Z) : Z := (z + 2 ^ 63) mod 2 ^ 64 - 2 ^ 63.

(** The same loop text over the elements of a NumPy boolean array.
    [(0 << 1) | numpy.bool_] is a [numpy.int64] (the Python [int] does not
    know [numpy.bool_], so NumPy's reflected [|] runs and promotes to its
    default integer), and from then on [decimal_value << 1] and [| bit]
    are [int64] operations. *)
Definition pack_bits_int64 (bits : list bool) : Z :=
  fold_left (fun v b => wrap_int64 (Z.lor (wrap_int64 (Z.shiftl v 1)) (Z.b2z b)))
            bits 0.

(** ** Decoded images *)

(** The image codec is an external collaborator.  An opened image is
    modelled by what the hash functions read from it:
    [img w h] is [list(image.convert('L').resize((w, h)).getdata())],
    the [w * h] grey levels of the resized image in row-major order. *)
Definition Image : Type := nat -> nat -> list Z.

Definition wf_image (img : Image) : Prop :=
  forall w h : nat,
    length (img w h) = (w * h)%nat /\
    Forall (fun p => 0 <= p <= 255) (img w h).

(** ** Difference hash *)

Definition calculate_dhash (image : Image) (hash_size : nat) : res string :=
  let pixels := image (hash_size + 1)%nat hash_size in
  diff ← for_each (range hash_size) (fun diff row =>
            for_each (range hash_size) (fun diff col =>
              let pixel_idx := (row * (hash_size + 1) + col)%nat in
              a ← getitem pixels pixel_idx;
              b ← getitem pixels (pixel_idx + 1)%nat;
              Ok (diff ++ [b <? a]))
            diff)
          [];
  let decimal_value := pack_bits diff in
  Ok (format_hex decimal_value (hash_size ^ 2 / 4)%nat).

(** ** Simplified perceptual hash *)

(** A [float64] result of a NumPy division: a finite value, or what a
    zero divisor gives. *)
Inductive float : Type :=
| Finite (q : Q)
| NaN
| PosInf
| NegInf.

(** [a / b] for a [float64] [a] holding an integer and a Python [int]
    [b]; NumPy warns on a zero divisor and does not raise.  The quotient
    is kept exact: grey levels are integers in [0, 255], so the comparison
    [p >= avg] of an integer [p] against the rounded quotient has the
    outcome of the exact comparison (rounding is monotone and fixes [p],
    and a quotient above [p] exceeds it by at least [1 / b], which for a
    divisor below [2^44] is more than the spacing of [float64] below
    256). *)
Definition np_divide (a b : Z) : float :=
  match b with
  | Z0 => if a =? 0 then NaN else if 0 <? a then PosInf else NegInf
  | Zpos d => Finite (a # d)
  | Zneg d => Finite (- a # d)
  end.

(** [p >= avg] for an integer-valued [p]. *)
Definition ge_float (p : Z) (avg : float) : bool :=
  match avg with
  | Finite q => Qle_bool q (inject_Z p)
  | NaN => false
  | PosInf => false
  | NegInf => true
  end.

(** [numpy.array(data).reshape((rows, cols))] as a list of rows. *)
Fixpoint split_rows (rows cols : nat) (data : list Z) : list (list Z) :=
  match rows with
  | O => []
  | S rows' => take cols data :: split_rows rows' cols (drop cols data)
  end.

Definition reshape (data : list Z) (rows cols : nat) : res (list (list Z)) :=
  if (length data =? rows * cols)%nat then Ok (split_rows rows cols data)
  else Raise ValueError.

(** [a[i, j]] and [a[i, j] = v] on a two-dimensional array. *)
Definition getitem2 (a : list (list Z)) (i j : nat) : res Z :=
  row ← getitem a i; getitem row j.

Definition setitem2 (a : list (list Z)) (i j : nat) (v : Z)
  : res (list (list Z)) :=
  row ← getitem a i;
  _ ← getitem row j;
  Ok (<[i := <[j := v]> row]> a).

Definition np_zeros (rows cols : nat) : list (list Z) :=
  replicate rows (replicate cols 0).

Definition np_sum (a : list (list Z)) : Z :=
  foldr Z.add 0 (concat a).

Definition calculate_phash (image : Image) (hash_size : nat) : res string :=
  pixels ← reshape (image hash_size hash_size) hash_size hash_size;
  dct ← for_each (range hash_size) (fun dct i =>
           for_each (range hash_size) (fun dct j =>
             v ← getitem2 pixels i j;
             setitem2 dct i j v)
           dct)
         (np_zeros hash_size hash_size);
  d00 ← getitem2 dct 0 0;
  let avg := np_divide (np_sum dct - d00)
                       (Z.of_nat hash_size * Z.of_nat hash_size - 1) in
  let hash_bits := concat (map (map (fun v => ge_float v avg)) dct) in
  let decimal_value := pack_bits_int64 hash_bits in
  Ok (format_hex decimal_value (hash_size ^ 2 / 4)%nat).

(** ** Average hash *)

(** [a / b] on Python [int]s: true division, kept exact (see
    [np_divide]); a zero divisor raises. *)
Definition true_divide (a b : Z) : res Q :=
  match b with
  | Z0 => Raise ZeroDivisionError
  | Zpos d => Ok (a # d)
  | Zneg d => Ok (- a # d)
  end.

Definition calculate_average_hash (image : Image) (hash_size : nat)
  : res string :=
  let pixels := image hash_size hash_size in
  avg ← true_divide (foldr Z.add 0 pixels) (Z.of_nat (length pixels));
  let hash_bits := map (fun pixel => Qle_bool avg (inject_Z pixel)) pixels in
  let decimal_value := pack_bits hash_bits in
  Ok (format_hex decimal_value (hash_size ^ 2 / 4)%nat).

(** ** Hamming distance *)

(** [bin(x).count('1')]: [bin] writes a negative [x] as [-0b] and the
    binary digits of its magnitude, so the ones counted are those of
    [|x|]. *)
Fixpoint ones (p : positive) : Z :=
  match p with
  | xH => 1
  | xO p' => ones p'
  | xI p' => 1 + ones p'
  end.

Definition bin_count_ones (x : Z) : Z :=
  match x with
  | Z0 => 0
  | Zpos p => ones p
  | Zneg p => ones p
  end.

Definition hamming_distance (hash1 hash2 : string) : res Z :=
  h1 ← int16 hash1;
  h2 ← int16 hash2;
  Ok (bin_count_ones (Z.lxor h1 h2)).

(** ** Grouping *)

(** The loop state: the group being built (or the groups emitted so far)
    and the set [processed] of claimed paths. *)
Definition scan_state : Type := list string * gset string.
Definition group_state : Type := list (list string) * gset string.

(** Body of the inner loop [for j, (img2_path, img2_hash) in
    enumerate(images)] for the seed at position [i].  [pick i j] is the
    position test of the scan: [i != j] in the source. *)
Definition scan_body (pick : nat -> nat -> bool) (similarity_threshold : Z)
    (i : nat) (img1_hash : string)
    (st : scan_state) (x : nat * (string * string)) : res scan_state :=
  let '(duplicate_group, processed) := st in
  let '(j, (img2_path, img2_hash)) := x in
  if pick i j && negb (bool_decide (img2_path ∈ processed)) then
    distance ← hamming_distance img1_hash img2_hash;
    if distance <=? similarity_threshold then
      Ok (duplicate_group ++ [img2_path], processed ∪ {[img2_path]})
    else Ok st
  else Ok st.

(** Body of the outer loop [for i, (img1_path, img1_hash) in
    enumerate(images)]. *)
Definition seed_body (pick : nat -> nat -> bool) (similarity_threshold : Z)
    (images : list (string * string))
    (st : group_state) (x : nat * (string * string)) : res group_state :=
  let '(duplicates, processed) := st in
  let '(i, (img1_path, img1_hash)) := x in
  if bool_decide (img1_path ∈ processed) then Ok st
  else
    '(duplicate_group, processed) ←
      for_each (enumerate images)
               (scan_body pick similarity_threshold i img1_hash)
               ([img1_path], processed);
    if (1 <? length duplicate_group)%nat then
      Ok (duplicates ++ [duplicate_group], processed ∪ {[img1_path]})
    else Ok (duplicates, processed).

Definition group_loop (pick : nat -> nat -> bool) (similarity_threshold : Z)
    (images : list (string * string)) : res group_state :=
  for_each (enumerate images) (seed_body pick similarity_threshold images)
           ([], ∅).

Definition group_images (pick : nat -> nat -> bool) (similarity_threshold : Z)
    (images : list (string * string)) : res (list (list string)) :=
  st ← group_loop pick similarity_threshold images; Ok st.1.

(** The grouping part of [find_duplicate_images] (lines 136 to 156): the
    scan from seed [i] visits every position [j] with [i != j]. *)
Definition scan_all (i j : nat) : bool := negb (i =? j)%nat.

Definition find_duplicate_groups (similarity_threshold : Z)
    (images : list (string * string)) : res (list (list string)) :=
  group_images scan_all similarity_threshold images.

(** The specification's variant of the scan, section 4.3 step 3 read as
    forward-only: the scan from seed [i] visits the positions after [i]. *)
Definition scan_forward (i j : nat) : bool := (i <? j)%nat.

Definition forward_scan_groups (similarity_threshold : Z)
    (images : list (string * string)) : res (list (list string)) :=
  group_images scan_forward similarity_threshold images.

(** ** The pipeline *)

(** The hash selection of lines 120 to 127; every hash function is
    called with its default [hash_size=8]. *)
Definition select_hash (hash_method : string) (img : Image) : res string :=
  if bool_decide (hash_method = "dhash") then calculate_dhash img 8
  else if bool_decide (hash_method = "phash") then calculate_phash img 8
  else if bool_decide (hash_method = "ahash") then calculate_average_hash img 8
  else calculate_dhash img 8.

(** The hashing loop: [files] are the files under [folder_path] with an
    image extension that could be opened, in the order of [os.walk].  An
    exception raised while hashing is caught and the file is skipped. *)
Fixpoint hash_images (hash_method : string) (files : list (string * Image))
  : list (string * string) :=
  match files with
  | [] => []
  | (file_path, img) :: files' =>
      match select_hash hash_method img with
      | Ok img_hash => (file_path, img_hash) :: hash_images hash_method files'
      | Raise _ => hash_images hash_method files'
      end
  end.

(** [find_duplicate_images] on the files that the walk lists and opens;
    the messages printed at lines 131 and 133 are left out. *)
Definition find_duplicate_images (files : list (string * Image))
    (similarity_threshold : Z) (hash_method : string)
  : res (list (list string)) :=
  let images := hash_images hash_method files in
  find_duplicate_groups similarity_threshold images.

(** * Predicates, invariants and test data *)

(** ** Readable fingerprints and thresholds *)

(** A string is a fingerprint for the distance when [int(_, 16)] reads
    it. *)
Definition is_fingerprint (h : string) : Prop := exists v, int16 h = Ok v.

Definition all_fingerprints (images : list (string * string)) : Prop :=
  forall p h, (p, h) ∈ images -> is_fingerprint h.

(** [h2] is within (resp. beyond) the threshold of [h1]. *)
Definition close_to (t : Z) (h1 h2 : string) : Prop :=
  exists d, hamming_distance h1 h2 = Ok d /\ d <= t.

Definition far_from (t : Z) (h1 h2 : string) : Prop :=
  exists d, hamming_distance h1 h2 = Ok d /\ t < d.

(** ** Invariants of the grouping loops *)

(** What a completed scan over the items [xs] has done: [ms] are the
    paths it claimed, in order. *)
Definition scanned (pick : nat -> nat -> bool) (t : Z) (i : nat)
    (img1_hash : string) (xs : list (nat * (string * string)))
    (pr : gset string) (ms : list string) : Prop :=
  NoDup ms /\
  (forall m, m ∈ ms ->
     (m ∉ pr) /\
     exists j h2, (j, (m, h2)) ∈ xs /\ pick i j = true /\
                  close_to t img1_hash h2) /\
  (forall j p h, (j, (p, h)) ∈ xs -> pick i j = true ->
     p ∉ pr -> p ∉ ms -> far_from t img1_hash h).

(** An emitted group: a seed followed by at least one path, each
    claimed from a position the scan visits and within the threshold
    of the seed's fingerprint. *)
Definition group_ok (pick : nat -> nat -> bool) (t : Z)
    (images : list (string * string)) (g : list string) : Prop :=
  exists i p1 h1 ms,
    g = p1 :: ms /\ ms <> [] /\ images !! i = Some (p1, h1) /\
    forall m, m ∈ ms ->
      exists j h2, images !! j = Some (m, h2) /\ pick i j = true /\
                   close_to t h1 h2.

(** The invariant after [n] seeds: [processed] is exactly the set of
    emitted paths, every emitted group is [group_ok], and an unclaimed
    seed already visited is beyond the threshold of every unclaimed
    position its scan looked at. *)
Definition loop_inv (pick : nat -> nat -> bool) (t : Z)
    (images : list (string * string)) (n : nat) (st : group_state) : Prop :=
  (forall x, x ∈ st.2 <-> x ∈ concat st.1) /\
  Forall (group_ok pick t images) st.1 /\
  (forall k p h, (k < n)%nat -> images !! k = Some (p, h) -> p ∉ st.2 ->
     forall j p' h', images !! j = Some (p', h') -> pick k j = true ->
       p' ∉ st.2 -> far_from t h h').

(** Decidable check that a list holds readable fingerprints. *)
Definition reads (h : string) : bool :=
  match int16 h with
  | Ok _ => true
  | Raise _ => false
  end.

(** ** Counting differing bits *)

(** The number of positions below [n] at which [a] and [b] differ. *)
Definition bit_differences (n : nat) (a b : Z) : Z :=
  foldr (fun k acc =>
           Z.b2z (xorb (Z.testbit a (Z.of_nat k)) (Z.testbit b (Z.of_nat k)))
           + acc)
        0 (seq 0 n).

Definition set_bits_from (k n : nat) (x : Z) : Z :=
  foldr (fun i acc => Z.b2z (Z.testbit x (Z.of_nat i)) + acc) 0 (seq k n).

(** ** The perceptual hash of the specification *)

(** The specification's simplified perceptual hash (section 4.1), in its
    words: no transform; the mean of all [n * n] values excluding the
    top-left cell; bit 1 exactly when the cell's value is at least the
    mean, for every cell; bits packed row-major, most significant first,
    into an [n * n]-bit fingerprint. *)
Definition spec_phash_mean (pixels : list Z) : Q :=
  (foldr Z.add 0 pixels - hd 0 pixels) # Z.to_pos (Z.of_nat (length pixels) - 1).

Definition spec_phash_bits (pixels : list Z) : list bool :=
  map (fun v => Qle_bool (spec_phash_mean pixels) (inject_Z v)) pixels.

Definition spec_phash (image : Image) (n : nat) : string :=
  format_hex (pack_bits (spec_phash_bits (image n n))) (n ^ 2 / 4)%nat.

(** ** Test data *)

(** Three fingerprints: [r] and [s] differ in 2 bits, [s] and [x] in 1,
    [r] and [x] in 3. *)
Definition trio : list (string * string) :=
  [("r.png", "0000000000000000"); ("s.png", "0000000000000003");
   ("x.png", "0000000000000007")].

(** Every row falls from 255 by one grey level per column. *)
Definition ramp : Image :=
  fun w h => map (fun k => 255 - Z.of_nat (k mod w)) (seq 0 (w * h)).

(** A uniform grey image. *)
Definition flat : Image := fun w h => replicate (w * h) 128.

(** Black, with the first and the last pixel white. *)
Definition spot : Image :=
  fun w h => map (fun k => if (k =? 0)%nat || (S k =? w * h)%nat
                           then 255 else 0)
                 (seq 0 (w * h)).

(** Black, with the last pixel white. *)
Definition corner : Image :=
  fun w h => map (fun k => if (S k =? w * h)%nat then 255 else 0)
                 (seq 0 (w * h)).

(** The black-and-white image whose cell [k] (row-major) is white exactly
    when bit [w * h - 1 - k] of [v] is set. *)
Definition bitmap (v : Z) : Image :=
  fun w h => map (fun k => if Z.testbit v (Z.of_nat (w * h - 1 - k))
                           then 255 else 0)
                 (seq 0 (w * h)).

(** * Further definitions *)

(** ** Bits of the hashes *)

(** The bit the difference hash computes for row [row] and column [col]
    of a grid [n + 1] wide: is the pixel greater than its right
    neighbour? *)
Definition dhash_bit (pixels : list Z) (n row col : nat) : bool :=
  nth (row * (n + 1) + col + 1) pixels 0 <? nth (row * (n + 1) + col) pixels 0.

Definition dhash_bits (pixels : list Z) (n : nat) : list bool :=
  map (fun k => dhash_bit pixels n (k / n) (k mod n)) (seq 0 (n * n)).

(** The same affine change of every grey level: [p] becomes
    [gain * p + offset]. *)
Definition adjust (gain offset : Z) (img : Image) : Image :=
  fun w h => map (fun p => gain * p + offset) (img w h).

(** An unsigned fingerprint of [w] hexadecimal digits. *)
Definition hex_word (w : nat) (h : string) : Prop :=
  String.length h = w /\ exists v, hex_digits 0 h = Some v.

(** The bits of the average hash without division: is [len] times the
    pixel at least the sum of all pixels? *)
Definition ahash_bits (pixels : list Z) : list bool :=
  map (fun pixel => foldr Z.add 0 pixels
                    <=? pixel * Z.of_nat (length pixels)) pixels.

(** ** Further invariants of the grouping loop *)

(** Two positions [ix] and [iy] with the same fingerprint: after [n]
    seeds their paths are claimed together or not at all, they sit in
    the same groups, and both are claimed once either has been a seed. *)
Definition twins_inv (ix iy : nat) (px py : string) (n : nat)
    (st : group_state) : Prop :=
  (px ∈ st.2 <-> py ∈ st.2) /\
  (forall g, g ∈ st.1 -> (px ∈ g <-> py ∈ g)) /\
  ((ix < n)%nat \/ (iy < n)%nat -> px ∈ st.2).

(** After [n] seeds every representative sits at a position below [n],
    and the groups are in the order of their representatives'
    positions. *)
Definition order_inv (images : list (string * string)) (n : nat)
    (st : group_state) : Prop :=
  (forall g rep ms i h, g ∈ st.1 -> g = rep :: ms ->
     images !! i = Some (rep, h) -> (i < n)%nat) /\
  (forall k k' rep ms rep' ms' i i' h h',
     (k < k')%nat ->
     st.1 !! k = Some (rep :: ms) -> st.1 !! k' = Some (rep' :: ms') ->
     images !! i = Some (rep, h) -> images !! i' = Some (rep', h') ->
     (i < i')%nat).

(** ** Paths *)

(** [os.path] as [posixpath] implements it, on byte strings.
    [s.rfind(c)] is the index of the last [c] in [s], or [-1]. *)
Fixpoint rfind (c : ascii) (s : string) : Z :=
  match s with
  | EmptyString => -1
  | String a s' =>
      let r := rfind c s' in
      if 0 <=? r then r + 1 else if Ascii.eqb a c then 0 else -1
  end.

(** The slices [s[n:]] and [s[:n]] for a non-negative [n]. *)
Fixpoint string_drop (n : nat) (s : string) : string :=
  match n, s with
  | O, _ => s
  | S n', String _ s' => string_drop n' s'
  | S _, EmptyString => EmptyString
  end.

Fixpoint string_take (n : nat) (s : string) : string :=
  match n, s with
  | O, _ => EmptyString
  | S n', String c s' => String c (string_take n' s')
  | S _, EmptyString => EmptyString
  end.

(** [os.path.basename(p)]: [i = p.rfind('/') + 1; return p[i:]]. *)
Definition basename (p : string) : string :=
  string_drop (Z.to_nat (rfind "/" p + 1)) p.

Definition starts_with_sep (b : string) : bool :=
  match b with
  | String c _ => Ascii.eqb c "/"
  | EmptyString => false
  end.

Fixpoint ends_with_sep (a : string) : bool :=
  match a with
  | EmptyString => false
  | String c EmptyString => Ascii.eqb c "/"
  | String _ a' => ends_with_sep a'
  end.

(** [os.path.join(a, b)]: an absolute [b] replaces [a]; otherwise the
    two are concatenated, with a separator unless [a] is empty or ends
    with one. *)
Definition join (a b : string) : string :=
  if starts_with_sep b then b
  else if bool_decide (a = EmptyString) || ends_with_sep a then (a ++ b)%string
  else (a ++ String "/" b)%string.

Fixpoint all_dots (s : string) : bool :=
  match s with
  | EmptyString => true
  | String c s' => Ascii.eqb c "." && all_dots s'
  end.

(** [os.path.splitext(p)]: split at the last dot, unless that dot is not
    after the last separator, or only dots stand between the separator
    and it (the loop over the leading dots). *)
Definition splitext (p : string) : string * string :=
  let sepIndex := rfind "/" p in
  let dotIndex := rfind "." p in
  if (sepIndex <? dotIndex)
     && negb (all_dots (string_take (Z.to_nat (dotIndex - (sepIndex + 1)))
                                    (string_drop (Z.to_nat (sepIndex + 1)) p)))
  then (string_take (Z.to_nat dotIndex) p, string_drop (Z.to_nat dotIndex) p)
  else (p, EmptyString).

(** [s.lower()] on the letters A to Z; the other characters of a file
    name, held as bytes, are left as they are, which does not change
    whether the result is one of [image_extensions]. *)
Definition lower_char (c : ascii) : ascii :=
  let n := nat_of_ascii c in
  if (65 <=? n)%nat && (n <=? 90)%nat then ascii_of_nat (n + 32) else c.

Fixpoint lower (s : string) : string :=
  match s with
  | EmptyString => EmptyString
  | String c s' => String (lower_char c) (lower s')
  end.

Definition image_extensions : list string :=
  [".jpg"; ".jpeg"; ".png"; ".bmp"; ".gif"; ".tiff"; ".webp"].

(** The test of lines 114 to 116 (and 249 to 252) on a file name. *)
Definition has_image_extension (file : string) : bool :=
  bool_decide (lower (splitext file).2 ∈ image_extensions).

(** ** Walking the folder *)

(** [walk] is what [os.walk(folder_path)] yields: for each directory its
    path [root] and the names of its files.  [open_image path] is
    [Image.open(path)], [None] when it raises.  The loop of lines 111 to
    131 keeps the files with an image extension that open, and hashes
    them. *)
Definition walked_files (walk : list (string * list string)) : list string :=
  concat (map (fun '(root, files) =>
                 map (fun file => join root file)
                     (filter (fun file => has_image_extension file = true)
                             files))
              walk).

Fixpoint opened_images (open_image : string -> option Image)
    (paths : list string) : list (string * Image) :=
  match paths with
  | [] => []
  | file_path :: paths' =>
      match open_image file_path with
      | Some img => (file_path, img) :: opened_images open_image paths'
      | None => opened_images open_image paths'
      end
  end.

Definition find_duplicate_images_in (walk : list (string * list string))
    (open_image : string -> option Image)
    (similarity_threshold : Z) (hash_method : string)
  : res (list (list string)) :=
  find_duplicate_images (opened_images open_image (walked_files walk))
                        similarity_threshold hash_method.

(** ** Choosing a destination *)

(** [os.path.join(folder, f"{base}_{counter}{ext}")]. *)
Definition candidate (folder base ext : string) (counter : nat) : string :=
  join folder (base ++ String "_" (pretty counter ++ ext))%string.

(** The loop [while os.path.exists(dest): dest = ...; counter += 1],
    where [existing] is the set of paths that exist; [fuel] bounds the
    number of iterations. *)
Fixpoint free_name (fuel : nat) (existing : gset string)
    (folder base ext dest : string) (counter : nat) : option string :=
  if bool_decide (dest ∈ existing) then
    match fuel with
    | O => None
    | S fuel' =>
        free_name fuel' existing folder base ext
                  (candidate folder base ext counter) (S counter)
    end
  else Some dest.

(** The destination chosen for [path] in [folder] (lines 201 to 209,
    220 to 228 and 254 to 262).  The loop is given one more iteration
    than there are existing paths, which always suffices. *)
Definition destination (existing : gset string) (folder path : string)
  : option string :=
  let filename := basename path in
  let dest := join folder filename in
  let '(base, ext) := splitext filename in
  free_name (S (size existing)) existing folder base ext dest 1.

(** ** Copying *)

(** [shutil.copy2(src, dest)] as the code sees it: whether it returned
    ([true]) or raised, and the paths that exist afterwards.  The first
    argument is the number of earlier calls, so that two calls on the
    same paths need not behave alike. *)
Definition copy2_t : Type :=
  nat -> gset string -> string -> string -> bool * gset string.

(** What [copy_files_to_folders] holds while it runs: the paths for
    which [os.path.exists] is true, the dictionary [copied_files], the
    two counters of the summary, and the number of calls of
    [shutil.copy2] so far.  The paths that exist change during calls of
    [shutil.copy2] only.  Writing the log is left out. *)
Record copy_state : Type := CopyState {
  paths : gset string;
  copied_files : gmap string string;
  unique_count : nat;
  duplicate_count : nat;
  calls : nat
}.

(** One copy (lines 201 to 217, 221 to 237 and 253 to 269): choose the
    destination, call [shutil.copy2], and record the copy unless the
    call raised.  [unique] tells which counter is incremented. *)
Definition copy_to (copy2 : copy2_t) (folder : string) (unique : bool)
    (src : string) (st : copy_state) : option copy_state :=
  dest ← destination (paths st) folder src;
  let '(copied, paths') := copy2 (calls st) (paths st) src dest in
  Some (if copied
        then {| paths := paths';
                copied_files := <[src := dest]> (copied_files st);
                unique_count :=
                  if unique then S (unique_count st) else unique_count st;
                duplicate_count :=
                  if unique then duplicate_count st
                  else S (duplicate_count st);
                calls := S (calls st) |}
        else {| paths := paths';
                copied_files := copied_files st;
                unique_count := unique_count st;
                duplicate_count := duplicate_count st;
                calls := S (calls st) |}).

Fixpoint copy_all (copy2 : copy2_t) (folder : string) (unique : bool)
    (srcs : list string) (st : copy_state) : option copy_state :=
  match srcs with
  | [] => Some st
  | src :: srcs' =>
      st' ← copy_to copy2 folder unique src st;
      copy_all copy2 folder unique srcs' st'
  end.

(** The body of the loop over the groups (lines 196 to 239):
    [group[0]] raises on an empty group. *)
Definition copy_group (copy2 : copy2_t) (unique_folder duplicate_folder : string)
    (group : list string) (st : copy_state) : option (res copy_state) :=
  match group with
  | [] => Some (Raise IndexError)
  | original_img :: others =>
      st1 ← copy_to copy2 unique_folder true original_img st;
      st2 ← copy_all copy2 duplicate_folder false others st1;
      Some (Ok st2)
  end.

Fixpoint copy_groups (copy2 : copy2_t) (unique_folder duplicate_folder : string)
    (duplicates : list (list string)) (st : copy_state)
  : option (res copy_state) :=
  match duplicates with
  | [] => Some (Ok st)
  | group :: duplicates' =>
      r ← copy_group copy2 unique_folder duplicate_folder group st;
      match r with
      | Ok st' =>
          copy_groups copy2 unique_folder duplicate_folder duplicates' st'
      | Raise e => Some (Raise e)
      end
  end.

(** The files of the second walk that are copied (lines 246 to 252):
    those with an image extension whose path is in no group. *)
Definition other_images (walk : list (string * list string))
    (duplicates : list (list string)) : list string :=
  filter (fun file_path => file_path ∉ concat duplicates) (walked_files walk).

Definition initial_state (existing : gset string) : copy_state :=
  {| paths := existing; copied_files := ∅;
     unique_count := 0; duplicate_count := 0; calls := 0 |}.

(** [copy_files_to_folders] from line 193 on, once the two folders and
    the log file exist: [existing] are the paths that exist then, and
    [walk] is what [os.walk(folder_path)] yields in the second phase.
    The result is the final state, of which the function returns
    [copied_files]; [None] stands for a destination loop that exceeded
    its bound. *)
Definition copy_files_to_folders (copy2 : copy2_t) (existing : gset string)
    (duplicates : list (list string)) (walk : list (string * list string))
    (unique_folder duplicate_folder : string) : option (res copy_state) :=
  r ← copy_groups copy2 unique_folder duplicate_folder duplicates
                  (initial_state existing);
  match r with
  | Ok st =>
      st' ← copy_all copy2 unique_folder true
                     (other_images walk duplicates) st;
      Some (Ok st')
  | Raise e => Some (Raise e)
  end.

(** ** The copies as one list of jobs *)

(** The copies in the order in which they are made: the target folder,
    whether the copy counts as unique, and the source. *)
Definition job : Type := string * bool * string.

Definition group_jobs (unique_folder duplicate_folder : string)
    (group : list string) : list job :=
  match group with
  | [] => []
  | original_img :: others =>
      (unique_folder, true, original_img)
      :: map (fun duplicate_img => (duplicate_folder, false, duplicate_img))
             others
  end.

Definition jobs (duplicates : list (list string))
    (walk : list (string * list string))
    (unique_folder duplicate_folder : string) : list job :=
  concat (map (group_jobs unique_folder duplicate_folder) duplicates)
  ++ map (fun file_path => (unique_folder, true, file_path))
         (other_images walk duplicates).

Fixpoint run_jobs (copy2 : copy2_t) (js : list job) (st : copy_state)
  : option copy_state :=
  match js with
  | [] => Some st
  | (folder, unique, src) :: js' =>
      st' ← copy_to copy2 folder unique src st;
      run_jobs copy2 js' st'
  end.

(** A [shutil.copy2] that always succeeds and creates the destination
    only, and one that fails on every second call. *)
Definition copy2_fine : copy2_t :=
  fun _ existing _ dest => (true, {[dest]} ∪ existing).

Definition copy2_flaky : copy2_t :=
  fun n existing _ dest =>
    if Nat.even n then (true, {[dest]} ∪ existing) else (false, existing).

(** Nothing disappears during a copy, and a copy that returned has
    created its destination. *)
Definition copy2_sound (copy2 : copy2_t) : Prop :=
  forall n existing src dest,
    existing ⊆ (copy2 n existing src dest).2 /\
    ((copy2 n existing src dest).1 = true ->
     dest ∈ (copy2 n existing src dest).2).

Definition copy2_succeeds (copy2 : copy2_t) : Prop :=
  forall n existing src dest, (copy2 n existing src dest).1 = true.

Definition demo_walk : list (string * list string) :=
  [("in", ["a.jpg"; "b.PNG"; "notes.txt"; "c.gif"]);
   ("in/sub", ["a.jpg"; "d.webp"])].

Definition demo_groups : list (list string) :=
  [["in/a.jpg"; "in/sub/a.jpg"; "in/c.gif"]].

(** The number of jobs that count as unique, and as duplicate. *)
Fixpoint unique_jobs (js : list job) : nat :=
  match js with
  | [] => 0
  | (_, unique, _) :: js' => (if unique then 1 else 0) + unique_jobs js'
  end.

Fixpoint duplicate_jobs (js : list job) : nat :=
  match js with
  | [] => 0
  | (_, unique, _) :: js' => (if unique then 0 else 1) + duplicate_jobs js'
  end.

(** ** The default output folders *)

(** [s.rstrip('/')]. *)
Fixpoint rstrip_sep (s : string) : string :=
  match s with
  | EmptyString => EmptyString
  | String c s' =>
      let r := rstrip_sep s' in
      if Ascii.eqb c "/" && bool_decide (r = EmptyString) then EmptyString
      else String c r
  end.

(** [head == sep * len(head)]. *)
Fixpoint all_seps (s : string) : bool :=
  match s with
  | EmptyString => true
  | String c s' => Ascii.eqb c "/" && all_seps s'
  end.

(** [os.path.dirname(p)]: the part up to the last separator, without
    its trailing separators unless it consists of separators only. *)
Definition dirname (p : string) : string :=
  let i := Z.to_nat (rfind "/" p + 1) in
  let head := string_take i p in
  if negb (bool_decide (head = EmptyString)) && negb (all_seps head)
  then rstrip_sep head
  else head.

(** The folders that [main] proposes (lines 315 to 318). *)
Definition default_unique (folder_path : string) : string :=
  join (dirname folder_path) (basename folder_path ++ "_unique").

Definition default_duplicate (folder_path : string) : string :=
  join (dirname folder_path) (basename folder_path ++ "_duplicates").

(** * Properties *)

(** ** The exception monad and its loops *)

Lemma bind_Ok {A B : Type} (m : res A) (f : A -> res B) (b : B) :
  m ≫= f = Ok b <-> exists a, m = Ok a /\ f a = Ok b.
Proof.
  destruct m as [a|e]; simpl.
  - split; [intros H; by exists a | by intros (a' & [= ->] & H)].
  - split; [done | by intros (a' & [=] & _)].
Qed.

Lemma for_each_cons {St A : Type} (x : A) (l : list A) (body : St -> A -> res St)
    (s : St) :
  for_each (x :: l) body s = body s x ≫= for_each l body.
Proof. reflexivity. Qed.

(** A loop whose body never raises on its items returns. *)
Lemma for_each_total {St A : Type} (l : list A) (body : St -> A -> res St) :
  (forall s x, x ∈ l -> exists s', body s x = Ok s') ->
  forall s, exists s', for_each l body s = Ok s'.
Proof.
  induction l as [|x l IH]; intros Hbody s; [by exists s|].
  destruct (Hbody s x) as [s1 H1]; [left|].
  rewrite for_each_cons, H1. simpl.
  apply IH. intros s2 y Hy. apply Hbody. by right.
Qed.

Lemma lookup_enumerate_from {A : Type} (l : list A) (k j : nat) :
  enumerate_from k l !! j = (fun x => ((k + j)%nat, x)) <$> l !! j.
Proof.
  revert k j. induction l as [|x l IH]; intros k j; [done|].
  destruct j as [|j]; simpl.
  - by rewrite Nat.add_0_r.
  - rewrite IH. by rewrite Nat.add_succ_r.
Qed.

Lemma elem_of_enumerate {A : Type} (l : list A) (j : nat) (x : A) :
  (j, x) ∈ enumerate l <-> l !! j = Some x.
Proof.
  unfold enumerate. rewrite list_elem_of_lookup. split.
  - intros [i Hi]. rewrite lookup_enumerate_from in Hi.
    destruct (l !! i) as [y|] eqn:Hy; simplify_eq/=. done.
  - intros H. exists j. by rewrite lookup_enumerate_from, H.
Qed.

(** Invariant rule for a loop over [enumerate l]: the invariant may
    depend on the number of items already visited. *)
Lemma for_each_enumerate_from_inv {St A : Type} (P : nat -> St -> Prop)
    (body : St -> nat * A -> res St) (l : list A) :
  forall (k : nat) (s s' : St),
    P k s ->
    (forall j x s1 s2, l !! j = Some x -> P (k + j)%nat s1 ->
       body s1 ((k + j)%nat, x) = Ok s2 -> P (S (k + j)) s2) ->
    for_each (enumerate_from k l) body s = Ok s' ->
    P (k + length l)%nat s'.
Proof.
  induction l as [|x l IH]; intros k s s' HP Hstep Hrun; simpl in *.
  - rewrite Nat.add_0_r. by simplify_eq.
  - apply bind_Ok in Hrun as (s1 & H1 & Hrun).
    rewrite Nat.add_succ_r. apply (IH (S k) s1 s'); [| |done].
    + specialize (Hstep 0%nat x s s1). rewrite Nat.add_0_r in Hstep.
      by apply Hstep.
    + intros j y s2 s3 Hj HP2 Hb. simpl.
      specialize (Hstep (S j) y s2 s3). rewrite Nat.add_succ_r in Hstep.
      by apply Hstep.
Qed.

Lemma for_each_enumerate_inv {St A : Type} (P : nat -> St -> Prop)
    (body : St -> nat * A -> res St) (l : list A) (s s' : St) :
  P 0%nat s ->
  (forall j x s1 s2, l !! j = Some x -> P j s1 ->
     body s1 (j, x) = Ok s2 -> P (S j) s2) ->
  for_each (enumerate l) body s = Ok s' ->
  P (length l) s'.
Proof.
  intros H0 Hstep Hrun.
  by apply (for_each_enumerate_from_inv P body l 0 s s').
Qed.

(** Two bodies that agree wherever an invariant of the first holds run
    the same loop, exceptions included. *)
Lemma for_each_enumerate_from_ext {St A : Type} (P : nat -> St -> Prop)
    (body1 body2 : St -> nat * A -> res St) (l : list A) :
  forall (k : nat) (s : St),
    P k s ->
    (forall j x s1, l !! j = Some x -> P (k + j)%nat s1 ->
       body1 s1 ((k + j)%nat, x) = body2 s1 ((k + j)%nat, x)) ->
    (forall j x s1 s2, l !! j = Some x -> P (k + j)%nat s1 ->
       body1 s1 ((k + j)%nat, x) = Ok s2 -> P (S (k + j)) s2) ->
    for_each (enumerate_from k l) body1 s
    = for_each (enumerate_from k l) body2 s.
Proof.
  induction l as [|x l IH]; intros k s HP Hagree Hstep; simpl; [done|].
  pose proof (Hagree 0%nat x s) as H0. rewrite Nat.add_0_r in H0.
  rewrite <- H0 by done.
  destruct (body1 s (k, x)) as [s1|e] eqn:H1; simpl; [|done].
  apply (IH (S k) s1).
  - specialize (Hstep 0%nat x s s1). rewrite Nat.add_0_r in Hstep.
    by apply Hstep.
  - intros j y s2 Hj HP2.
    specialize (Hagree (S j) y s2). rewrite Nat.add_succ_r in Hagree.
    by apply Hagree.
  - intros j y s2 s3 Hj HP2 Hb.
    specialize (Hstep (S j) y s2 s3). rewrite Nat.add_succ_r in Hstep.
    by apply Hstep.
Qed.

Lemma for_each_enumerate_ext {St A : Type} (P : nat -> St -> Prop)
    (body1 body2 : St -> nat * A -> res St) (l : list A) (s : St) :
  P 0%nat s ->
  (forall j x s1, l !! j = Some x -> P j s1 ->
     body1 s1 (j, x) = body2 s1 (j, x)) ->
  (forall j x s1 s2, l !! j = Some x -> P j s1 ->
     body1 s1 (j, x) = Ok s2 -> P (S j) s2) ->
  for_each (enumerate l) body1 s = for_each (enumerate l) body2 s.
Proof.
  intros H0 Hagree Hstep.
  by apply (for_each_enumerate_from_ext P body1 body2 l 0 s).
Qed.

(** ** Hamming distance *)

(** [int(_, 16)] raises nothing but [ValueError]. *)
Lemma hex_magnitude_raises (s : string) (e : exn) :
  hex_magnitude s = Raise e -> e = ValueError.
Proof.
  unfold hex_magnitude. destruct s; [congruence|].
  destruct (hex_digits 0 _); congruence.
Qed.

Lemma int16_raises (s : string) (e : exn) :
  int16 s = Raise e -> e = ValueError.
Proof.
  unfold int16. intros H.
  destruct s as [|c s]; [by apply (hex_magnitude_raises EmptyString)|].
  repeat case_match; subst;
    try (by eapply hex_magnitude_raises).
  destruct (hex_magnitude s) eqn:Hm; simpl in H; [done|].
  simplify_eq. by eapply hex_magnitude_raises.
Qed.

Lemma hamming_distance_sym (h1 h2 : string) :
  hamming_distance h1 h2 = hamming_distance h2 h1.
Proof.
  unfold hamming_distance.
  destruct (int16 h1) as [x|e1] eqn:H1, (int16 h2) as [y|e2] eqn:H2;
    simpl; try done.
  - by rewrite Z.lxor_comm.
  - by rewrite (int16_raises _ _ H1), (int16_raises _ _ H2).
Qed.

Lemma hamming_distance_total (h1 h2 : string) :
  is_fingerprint h1 -> is_fingerprint h2 ->
  exists d, hamming_distance h1 h2 = Ok d.
Proof.
  intros [x Hx] [y Hy]. unfold hamming_distance. rewrite Hx, Hy. simpl.
  by eexists.
Qed.

Lemma close_far_absurd (t : Z) (h1 h2 : string) :
  close_to t h1 h2 -> far_from t h1 h2 -> False.
Proof.
  intros (d & Hd & ?) (d' & Hd' & ?). rewrite Hd in Hd'.
  injection Hd' as <-. lia.
Qed.

Lemma close_to_mono (t t' : Z) (h1 h2 : string) :
  t <= t' -> close_to t h1 h2 -> close_to t' h1 h2.
Proof. intros Ht (d & Hd & ?). exists d. split; [done | lia]. Qed.

(** ** The scan from one seed *)

Section Scan.
Context (pick : nat -> nat -> bool) (t : Z) (i : nat) (img1_hash : string).

(** One iteration either leaves the state alone or claims the path. *)
Lemma scan_body_spec (g : list string) (pr : gset string) (j : nat)
    (p h : string) (st' : scan_state) :
  scan_body pick t i img1_hash (g, pr) (j, (p, h)) = Ok st' ->
  (st' = (g, pr) /\
   (pick i j = true -> p ∉ pr -> far_from t img1_hash h)) \/
  (st' = (g ++ [p], pr ∪ {[p]}) /\
   pick i j = true /\ (p ∉ pr) /\ close_to t img1_hash h).
Proof.
  unfold scan_body.
  destruct (pick i j) eqn:Hpick; simpl.
  2:{ intros [= <-]. left. split; [done | discriminate]. }
  case_bool_decide as Hin; simpl.
  { intros [= <-]. left. split; [done | tauto]. }
  destruct (hamming_distance img1_hash h) as [d|e] eqn:Hd; simpl; [|done].
  destruct (d <=? t) eqn:Hle; intros [= <-].
  - right. repeat split; try done. exists d. split; [done | lia].
  - left. split; [done|]. intros _ _. exists d. split; [done | lia].
Qed.

Lemma scan_spec (xs : list (nat * (string * string))) :
  forall (g : list string) (pr : gset string) (st' : scan_state),
    for_each xs (scan_body pick t i img1_hash) (g, pr) = Ok st' ->
    exists ms, st' = (g ++ ms, pr ∪ list_to_set ms) /\
               scanned pick t i img1_hash xs pr ms.
Proof.
  induction xs as [|[j [p h]] xs IH]; intros g pr st' Hrun.
  - simpl in Hrun. simplify_eq. exists []. rewrite app_nil_r.
    split; [f_equal; set_solver|].
    split; [constructor|]. split; [set_solver|]. set_solver.
  - rewrite for_each_cons in Hrun. apply bind_Ok in Hrun as (st1 & H1 & Hrun).
    apply scan_body_spec in H1 as [[-> Hfar] | (-> & Hpick & Hnin & Hclose)].
    + apply IH in Hrun as (ms & -> & Hnd & Hms & Hrest).
      exists ms. split; [done|]. split; [done|]. split.
      * intros m Hm. destruct (Hms m Hm) as (? & j' & h2 & ? & ? & ?).
        split; [done|]. exists j', h2. split; [by right | done].
      * intros j' p' h' Hin Hp Hpr Hnm.
        apply elem_of_cons in Hin as [[= -> -> ->] | Hin]; [by apply Hfar|].
        by apply (Hrest j' p').
    + apply IH in Hrun as (ms & -> & Hnd & Hms & Hrest).
      exists (p :: ms). split.
      { rewrite <- app_assoc. f_equal. set_solver. }
      split.
      { constructor; [|done]. intros Hm. apply Hms in Hm as [Hm _].
        set_solver. }
      split.
      * intros m Hm. apply elem_of_cons in Hm as [-> | Hm].
        -- split; [done|]. exists j, h. split; [by left | done].
        -- destruct (Hms m Hm) as (Hn & j' & h2 & ? & ? & ?).
           split; [set_solver|]. exists j', h2. split; [by right | done].
      * intros j' p' h' Hin Hp Hpr Hnm.
        apply not_elem_of_cons in Hnm as [Hne Hnm].
        apply elem_of_cons in Hin as [[= -> -> ->] | Hin]; [done|].
        apply (Hrest j' p'); [done | done | set_solver | done].
Qed.

(** On fingerprints that [int] reads, the scan raises nothing. *)
Lemma scan_total (xs : list (nat * (string * string))) :
  is_fingerprint img1_hash ->
  (forall j p h, (j, (p, h)) ∈ xs -> is_fingerprint h) ->
  forall st, exists st', for_each xs (scan_body pick t i img1_hash) st = Ok st'.
Proof.
  intros H1 Hxs. apply for_each_total.
  intros [g pr] [j [p h]] Hin. unfold scan_body.
  destruct (pick i j && negb (bool_decide (p ∈ pr))); [|by eexists].
  destruct (hamming_distance_total img1_hash h) as [d ->];
    [done | by eapply Hxs |].
  simpl. destruct (d <=? t); by eexists.
Qed.
End Scan.

(** ** The loop over the seeds *)

Section Seeds.
Context (pick : nat -> nat -> bool) (t : Z)
        (images : list (string * string)).

(** One outer iteration: the seed is skipped, or scanned without a
    match, or emitted with the paths [ms] it claimed. *)
Lemma seed_body_spec (dups : list (list string)) (pr : gset string)
    (i : nat) (p1 h1 : string) (st' : group_state) :
  seed_body pick t images (dups, pr) (i, (p1, h1)) = Ok st' ->
  (p1 ∈ pr /\ st' = (dups, pr)) \/
  ((p1 ∉ pr) /\
   exists ms, scanned pick t i h1 (enumerate images) pr ms /\
     ((ms = [] /\ st' = (dups, pr)) \/
      (ms <> [] /\
       st' = (dups ++ [p1 :: ms], pr ∪ list_to_set ms ∪ {[p1]})))).
Proof.
  unfold seed_body. case_bool_decide as Hin.
  { intros [= <-]. by left. }
  intros Hrun. right. split; [done|].
  apply bind_Ok in Hrun as ([g pr2] & Hscan & Hrun).
  apply scan_spec in Hscan as (ms & [= -> ->] & Hms).
  exists ms. split; [done|].
  destruct ms as [|m ms]; simpl in Hrun.
  - left. split; [done|]. simplify_eq. f_equal. set_solver.
  - right. split; [done|]. by simplify_eq.
Qed.

Lemma loop_inv_init : loop_inv pick t images 0 ([], ∅).
Proof.
  split; [set_solver|]. split; [constructor|]. intros k p h Hk. lia.
Qed.

Lemma loop_inv_step (i : nat) (p1 h1 : string) (st st' : group_state) :
  images !! i = Some (p1, h1) ->
  loop_inv pick t images i st ->
  seed_body pick t images st (i, (p1, h1)) = Ok st' ->
  loop_inv pick t images (S i) st'.
Proof.
  destruct st as [dups pr]. intros Hi (Hpr & Hok & Hfar) Hstep. simpl in *.
  apply seed_body_spec in Hstep
    as [[Hin ->] | (Hnin & ms & (Hnd & Hms & Hrest) & Hcase)].
  - split; [done|]. split; [done|]. simpl.
    intros k p h Hk Hkp Hp. destruct (decide (k = i)) as [->|Hne].
    + rewrite Hi in Hkp. by simplify_eq.
    + apply (Hfar k p h); [lia | done | done].
  - destruct Hcase as [[-> ->] | [Hne ->]]; simpl.
    + split; [done|]. split; [done|].
      intros k p h Hk Hkp Hp j p' h' Hj Hpick Hp'.
      destruct (decide (k = i)) as [->|Hki].
      * rewrite Hi in Hkp. simplify_eq.
        apply (Hrest j p' h'); [by apply elem_of_enumerate | done | done |].
        apply not_elem_of_nil.
      * apply (Hfar k p h) with (j := j) (p' := p'); [lia | done..].
    + split; [|split].
      * intros x. simpl. rewrite concat_app. simpl. rewrite app_nil_r.
        rewrite elem_of_app, elem_of_cons, <- Hpr. set_solver.
      * apply Forall_app. split; [done|]. constructor; [|constructor].
        exists i, p1, h1, ms. repeat split; try done.
        intros m Hm. destruct (Hms m Hm) as (_ & j & h2 & Hj & ? & ?).
        exists j, h2. by rewrite <- elem_of_enumerate.
      * intros k p h Hk Hkp Hp j p' h' Hj Hpick Hp'.
        destruct (decide (k = i)) as [->|Hki].
        -- rewrite Hi in Hkp. simplify_eq. set_solver.
        -- apply (Hfar k p h) with (j := j) (p' := p');
             [lia | done | set_solver | done | done | set_solver].
Qed.

Lemma loop_inv_final (st : group_state) :
  group_loop pick t images = Ok st ->
  loop_inv pick t images (length images) st.
Proof.
  unfold group_loop. apply for_each_enumerate_inv; [apply loop_inv_init|].
  intros j [p h] s1 s2. apply loop_inv_step.
Qed.

(** With pairwise-distinct paths and a scan that skips the seed's own
    position, no path is emitted twice. *)
Lemma nodup_step (i : nat) (p1 h1 : string) (st st' : group_state) :
  NoDup images.*1 ->
  (forall k, pick k k = false) ->
  images !! i = Some (p1, h1) ->
  (forall x, x ∈ st.2 <-> x ∈ concat st.1) ->
  NoDup (concat st.1) ->
  seed_body pick t images st (i, (p1, h1)) = Ok st' ->
  NoDup (concat st'.1).
Proof.
  destruct st as [dups pr]. intros Hdistinct Hirr Hi Hpr Hnd Hstep.
  simpl in *.
  apply seed_body_spec in Hstep
    as [[Hin ->] | (Hnin & ms & (Hndms & Hms & Hrest) & Hcase)]; [done|].
  destruct Hcase as [[-> ->] | [Hne ->]]; [done|]. simpl.
  rewrite concat_app. simpl. rewrite app_nil_r.
  apply NoDup_app. split; [done|]. split.
  - intros x Hx Hx'. apply Hpr in Hx.
    apply elem_of_cons in Hx' as [-> | Hx']; [done|].
    by destruct (Hms x Hx') as [? _].
  - constructor; [|done]. intros Hm.
    destruct (Hms p1 Hm) as (_ & j & h2 & Hj & Hpick & _).
    apply elem_of_enumerate in Hj.
    assert (i = j) as <-.
    { apply (NoDup_lookup images.*1 i j p1); [done | |].
      - by rewrite list_lookup_fmap, Hi.
      - by rewrite list_lookup_fmap, Hj. }
    by rewrite Hirr in Hpick.
Qed.

Lemma nodup_final (st : group_state) :
  NoDup images.*1 ->
  (forall k, pick k k = false) ->
  group_loop pick t images = Ok st ->
  NoDup (concat st.1).
Proof.
  intros Hdistinct Hirr Hrun.
  enough (loop_inv pick t images (length images) st /\
          NoDup (concat st.1)) by tauto.
  revert Hrun. unfold group_loop.
  apply (for_each_enumerate_inv
           (fun n st => loop_inv pick t images n st /\
                        NoDup (concat st.1))).
  - split; [apply loop_inv_init | constructor].
  - intros j [p h] s1 s2 Hj [Hinv Hnd] Hstep. split.
    + by eapply loop_inv_step.
    + eapply nodup_step; try done. apply Hinv.
Qed.

(** On fingerprints that [int] reads, the loop raises nothing. *)
Lemma group_loop_total :
  all_fingerprints images ->
  exists st, group_loop pick t images = Ok st.
Proof.
  intros Hfp. unfold group_loop. apply for_each_total.
  intros [dups pr] [i [p1 h1]] Hin. unfold seed_body.
  case_bool_decide; [by eexists|].
  apply elem_of_enumerate, list_elem_of_lookup_2 in Hin.
  destruct (scan_total pick t i h1 (enumerate images)) with
    (st := ([p1], pr)) as [[g pr2] ->].
  - by eapply Hfp.
  - intros j p h Hj. apply elem_of_enumerate, list_elem_of_lookup_2 in Hj.
    by eapply Hfp.
  - simpl. destruct (1 <? length g)%nat; by eexists.
Qed.
End Seeds.

(** ** Results of the grouping loop *)

Lemma group_images_Ok (pick : nat -> nat -> bool) (t : Z)
    (images : list (string * string)) (groups : list (list string)) :
  group_images pick t images = Ok groups <->
  exists pr, group_loop pick t images = Ok (groups, pr).
Proof.
  unfold group_images. rewrite bind_Ok. split.
  - intros ([G pr] & Hrun & [= <-]). by exists pr.
  - intros [pr Hrun]. by exists (groups, pr).
Qed.

Lemma group_images_total (pick : nat -> nat -> bool) (t : Z)
    (images : list (string * string)) :
  all_fingerprints images ->
  exists groups, group_images pick t images = Ok groups.
Proof.
  intros Hfp.
  destruct (group_loop_total pick t images Hfp) as [[G pr] Hrun].
  exists G. apply group_images_Ok. by exists pr.
Qed.

Lemma scan_all_irrefl (k : nat) : scan_all k k = false.
Proof. unfold scan_all. by rewrite Nat.eqb_refl. Qed.

Lemma scan_forward_irrefl (k : nat) : scan_forward k k = false.
Proof. unfold scan_forward. apply Nat.ltb_irrefl. Qed.

Lemma scan_all_true (i j : nat) : scan_all i j = true <-> i <> j.
Proof.
  unfold scan_all. rewrite negb_true_iff. apply Nat.eqb_neq.
Qed.

Lemma elem_of_concat {A : Type} (x : A) (gs : list (list A)) :
  x ∈ concat gs <-> exists g, x ∈ g /\ g ∈ gs.
Proof.
  induction gs as [|g0 gs IH]; simpl.
  - split; [by intros ?%elem_of_nil | by intros (g & _ & ?%elem_of_nil)].
  - rewrite elem_of_app, IH. split.
    + intros [H | (g & ? & ?)]; [exists g0 | exists g];
        (split; [done|]); [by left | by right].
    + intros (g & Hx & [-> | Hg]%elem_of_cons); [by left|].
      right. by exists g.
Qed.

(** Paths of distinct groups of a duplicate-free concatenation differ. *)
Lemma NoDup_concat_disjoint {A : Type} (gs : list (list A)) :
  NoDup (concat gs) ->
  forall i j g g' x,
    gs !! i = Some g -> gs !! j = Some g' -> x ∈ g -> x ∈ g' -> i = j.
Proof.
  induction gs as [|g0 gs IH]; intros Hnd i j g g' x Hi Hj Hx Hx'; [done|].
  simpl in Hnd. apply NoDup_app in Hnd as (Hnd0 & Hdisj & Hnd).
  assert (forall k gk, gs !! k = Some gk -> x ∈ gk -> x ∈ concat gs) as Hin.
  { intros k gk Hk Hxk. apply elem_of_concat. exists gk.
    split; [done | by eapply list_elem_of_lookup_2]. }
  destruct i as [|i], j as [|j]; simplify_eq/=; try done.
  - exfalso. eapply Hdisj; [done | by eapply Hin].
  - exfalso. eapply Hdisj; [done | by eapply Hin].
  - f_equal. by eapply IH.
Qed.

Lemma NoDup_concat_group {A : Type} (gs : list (list A)) (g : list A) :
  NoDup (concat gs) -> g ∈ gs -> NoDup g.
Proof.
  induction gs as [|g0 gs IH]; intros Hnd Hg; [by apply elem_of_nil in Hg|].
  simpl in Hnd. apply NoDup_app in Hnd as (Hnd0 & _ & Hnd).
  apply elem_of_cons in Hg as [-> | Hg]; [done | by apply IH].
Qed.

(** ** Forward scan and full scan *)

Section Backward.
Context (t : Z) (images : list (string * string)).

(** A scan from seed [i] never claims an unclaimed position before
    [i]: the seed at that position already looked at [i] and left it
    unclaimed, and the distance is symmetric. *)
Lemma scan_never_matches_backward (n i j : nat) (st : group_state)
    (p1 h1 p h : string) (g : list string) (pr : gset string) :
  loop_inv scan_all t images n st ->
  (j < i)%nat -> (j < n)%nat ->
  images !! i = Some (p1, h1) -> images !! j = Some (p, h) ->
  p1 ∉ st.2 -> st.2 ⊆ pr ->
  scan_body scan_all t i h1 (g, pr) (j, (p, h)) = Ok (g, pr).
Proof.
  intros (_ & _ & Hfar) Hji Hjn Hi Hj Hp1 Hsub.
  unfold scan_body.
  destruct (scan_all i j); simpl; [|done].
  case_bool_decide as Hin; simpl; [done|].
  destruct (Hfar j p h Hjn Hj) with (j := i) (p' := p1) (h' := h1)
    as (d & Hd & Hlt); [set_solver | done | | done |].
  { apply scan_all_true. lia. }
  rewrite hamming_distance_sym, Hd. simpl.
  destruct (d <=? t) eqn:Hle; [lia | done].
Qed.

Lemma scan_grows (pick : nat -> nat -> bool) (i j : nat)
    (h1 p h : string) (g g' : list string) (pr pr' : gset string) :
  scan_body pick t i h1 (g, pr) (j, (p, h)) = Ok (g', pr') -> pr ⊆ pr'.
Proof.
  intros H. apply scan_body_spec in H as [[[= -> ->] _] | ([= -> ->] & _)];
    set_solver.
Qed.

Lemma scans_agree (i : nat) (st : group_state) (p1 h1 : string) :
  loop_inv scan_all t images i st ->
  images !! i = Some (p1, h1) ->
  p1 ∉ st.2 ->
  for_each (enumerate images) (scan_body scan_all t i h1) ([p1], st.2)
  = for_each (enumerate images) (scan_body scan_forward t i h1) ([p1], st.2).
Proof.
  intros Hinv Hi Hp1.
  apply (for_each_enumerate_ext (fun _ s => st.2 ⊆ s.2)); [done| |].
  - intros j [p h] [g pr] Hj Hsub. simpl in Hsub.
    destruct (lt_eq_lt_dec j i) as [[Hlt | ->] | Hgt].
    + rewrite (scan_never_matches_backward i i j st p1 h1 p h); try done.
      unfold scan_body, scan_forward.
      by replace (i <? j)%nat with false by (symmetry; apply Nat.ltb_ge; lia).
    + unfold scan_body. by rewrite scan_all_irrefl, scan_forward_irrefl.
    + unfold scan_body, scan_all, scan_forward.
      replace (i <? j)%nat with true by (symmetry; apply Nat.ltb_lt; lia).
      by replace (i =? j)%nat with false by (symmetry; apply Nat.eqb_neq; lia).
  - intros j [p h] [g pr] [g' pr'] Hj Hsub Hstep. simpl in *.
    apply scan_grows in Hstep. set_solver.
Qed.

Lemma seed_bodies_agree (i : nat) (st : group_state) (p1 h1 : string) :
  loop_inv scan_all t images i st ->
  images !! i = Some (p1, h1) ->
  seed_body scan_all t images st (i, (p1, h1))
  = seed_body scan_forward t images st (i, (p1, h1)).
Proof.
  intros Hinv Hi. destruct st as [dups pr]. unfold seed_body.
  case_bool_decide as Hin; [done|].
  pose proof (scans_agree i (dups, pr) p1 h1 Hinv Hi Hin) as Hscan.
  simpl in Hscan. by rewrite Hscan.
Qed.

Lemma group_loops_agree :
  group_loop scan_all t images = group_loop scan_forward t images.
Proof.
  unfold group_loop.
  apply (for_each_enumerate_ext (loop_inv scan_all t images)).
  - apply loop_inv_init.
  - intros j [p h] s1 Hj Hinv. by apply seed_bodies_agree.
  - intros j [p h] s1 s2 Hj Hinv Hstep. by eapply loop_inv_step.
Qed.
End Backward.

(** ** Single steps of the two loops *)

Lemma res_bind_Ok {A B : Type} (a : A) (f : A -> res B) : Ok a ≫= f = f a.
Proof. reflexivity. Qed.

Section Steps.
Context (pick : nat -> nat -> bool) (t : Z).

Lemma scan_skip (i j : nat) (h1 p h : string) (st : scan_state) :
  pick i j = false \/ p ∈ st.2 ->
  scan_body pick t i h1 st (j, (p, h)) = Ok st.
Proof.
  destruct st as [g pr]. unfold scan_body. intros [-> | Hin]; [done|].
  rewrite (bool_decide_eq_true_2 _ Hin). by rewrite andb_false_r.
Qed.

Lemma scan_claim (i j : nat) (h1 p h : string) (g : list string)
    (pr : gset string) (d : Z) :
  pick i j = true -> p ∉ pr ->
  hamming_distance h1 h = Ok d -> d <= t ->
  scan_body pick t i h1 (g, pr) (j, (p, h)) = Ok (g ++ [p], pr ∪ {[p]}).
Proof.
  intros Hpick Hnin Hd Hle. unfold scan_body.
  rewrite Hpick, (bool_decide_eq_false_2 _ Hnin), Hd. simpl.
  by replace (d <=? t) with true by (symmetry; apply Z.leb_le; lia).
Qed.

Lemma scan_pass (i j : nat) (h1 p h : string) (st : scan_state) (d : Z) :
  hamming_distance h1 h = Ok d -> t < d ->
  scan_body pick t i h1 st (j, (p, h)) = Ok st.
Proof.
  intros Hd Hlt. destruct st as [g pr]. unfold scan_body.
  destruct (pick i j && negb (bool_decide (p ∈ pr))); [|done].
  rewrite Hd. simpl.
  by replace (d <=? t) with false by (symmetry; apply Z.leb_gt; lia).
Qed.

Lemma seed_skip (images : list (string * string)) (i : nat)
    (p1 h1 : string) (st : group_state) :
  p1 ∈ st.2 -> seed_body pick t images st (i, (p1, h1)) = Ok st.
Proof.
  destruct st as [dups pr]. intros Hin. unfold seed_body.
  by rewrite (bool_decide_eq_true_2 _ Hin).
Qed.

Lemma seed_scan (images : list (string * string)) (i : nat)
    (p1 h1 : string) (dups : list (list string)) (pr pr' : gset string)
    (g : list string) :
  p1 ∉ pr ->
  for_each (enumerate images) (scan_body pick t i h1) ([p1], pr)
  = Ok (g, pr') ->
  seed_body pick t images (dups, pr) (i, (p1, h1))
  = if (1 <? length g)%nat then Ok (dups ++ [g], pr' ∪ {[p1]})
    else Ok (dups, pr').
Proof.
  intros Hnin Hscan. unfold seed_body.
  by rewrite (bool_decide_eq_false_2 _ Hnin), Hscan.
Qed.
End Steps.

(** ** The chain scenario *)

(** A three-image run in which the second image is within the threshold
    of the first and the third is not: the first image claims the second
    and nothing else, and the third finds every other path claimed. *)
Lemma chain_groups (t : Z) (a b c ha hb hc : string) (dab dac : Z) :
  a <> b -> a <> c -> b <> c ->
  hamming_distance ha hb = Ok dab -> dab <= t ->
  hamming_distance ha hc = Ok dac -> t < dac ->
  find_duplicate_groups t [(a, ha); (b, hb); (c, hc)] = Ok [[a; b]].
Proof.
  intros Hab Hac Hbc Hdab Hle Hdac Hlt.
  set (images := [(a, ha); (b, hb); (c, hc)]).
  assert (for_each (enumerate images) (scan_body scan_all t 0 ha) ([a], ∅)
          = Ok ([a; b], ∅ ∪ {[b]})) as Hscan_a.
  { unfold images, enumerate. simpl enumerate_from.
    rewrite for_each_cons, scan_skip by (left; apply scan_all_irrefl).
    rewrite res_bind_Ok.
    rewrite for_each_cons, (scan_claim scan_all t 0 1 ha b hb [a] ∅ dab)
      by done.
    rewrite res_bind_Ok.
    by rewrite for_each_cons, (scan_pass scan_all t 0 2 ha c hc _ dac). }
  assert (for_each (enumerate images) (scan_body scan_all t 2 hc)
            ([c], ∅ ∪ {[b]} ∪ {[a]})
          = Ok ([c], ∅ ∪ {[b]} ∪ {[a]})) as Hscan_c.
  { unfold images, enumerate. simpl enumerate_from.
    rewrite for_each_cons, scan_skip by (right; set_solver). rewrite res_bind_Ok.
    rewrite for_each_cons, scan_skip by (right; set_solver). rewrite res_bind_Ok.
    by rewrite for_each_cons, scan_skip by (left; apply scan_all_irrefl). }
  unfold find_duplicate_groups, group_images, group_loop.
  fold images. unfold enumerate at 1. unfold images at 1.
  simpl enumerate_from.
  rewrite for_each_cons,
    (seed_scan scan_all t images 0 a ha [] ∅ _ _ (ltac:(set_solver)) Hscan_a).
  change (1 <? length [a; b])%nat with true. cbv iota.
  rewrite res_bind_Ok.
  rewrite app_nil_l.
  rewrite for_each_cons, seed_skip by set_solver. rewrite res_bind_Ok.
  rewrite for_each_cons,
    (seed_scan scan_all t images 2 c hc [[a; b]] (∅ ∪ {[b]} ∪ {[a]}) _ _
       (ltac:(set_solver)) Hscan_c).
  done.
Qed.

Lemma all_fingerprints_check (images : list (string * string)) :
  forallb (fun x => reads x.2) images = true -> all_fingerprints images.
Proof.
  intros Hall p h Hin. rewrite forallb_forall in Hall.
  apply list_elem_of_In, Hall in Hin. unfold reads, is_fingerprint in *.
  simpl in Hin. destruct (int16 h) as [v|e]; [by exists v | done].
Qed.

(** * The claims *)

(** ** C1: the chain A, B, C *)

(** C1 (as stated, refuted).  Three 64-bit fingerprints as
    [format(_, '016x')] writes them, with [hamming_distance] 3 from A to
    B, 3 from B to C and 9 from A to C (the triangle inequality fails
    because [bin] drops the sign of a negative XOR): at threshold 5 the
    result is the single group [A, B], and C is in no group.  The same
    happens on an unsigned chain with distances 3, 3 and 6. *)
Lemma chain_does_not_join :
  let A := "-000000000100380" in
  let B := "0000000000100000" in
  let C := "0000000000100403" in
  hamming_distance A B = Ok 3 /\
  hamming_distance B C = Ok 3 /\
  hamming_distance A C = Ok 9 /\
  find_duplicate_groups 5 [("A.png", A); ("B.png", B); ("C.png", C)]
  = Ok [["A.png"; "B.png"]] /\
  find_duplicate_groups 5 [("A.png", A); ("B.png", B); ("C.png", C)]
  <> Ok [["A.png"; "B.png"; "C.png"]] /\
  find_duplicate_groups 5
    [("A.png", "0000000000000000"); ("B.png", "0000000000000007");
     ("C.png", "000000000000003f")]
  = Ok [["A.png"; "B.png"]].
Proof. vm_compute. repeat split; congruence. Qed.

(** The three fingerprints of that chain are perceptual hashes: the code
    returns them for three black-and-white images, and the pipeline run
    on these images with [phash] cuts the chain in the same way. *)
Lemma chain_from_images :
  calculate_phash (bitmap (2 ^ 64 - 1049472)) 8 = Ok "-000000000100380" /\
  calculate_phash (bitmap 1048576) 8 = Ok "0000000000100000" /\
  calculate_phash (bitmap 1049603) 8 = Ok "0000000000100403" /\
  find_duplicate_images
    [("A.png", bitmap (2 ^ 64 - 1049472)); ("B.png", bitmap 1048576);
     ("C.png", bitmap 1049603)] 5 "phash"
  = Ok [["A.png"; "B.png"]].
Proof. by vm_compute. Qed.

(** C1 (amended).  With threshold 5 on [A, B, C], distinct references
    and distances 3 from A to B, 3 from B to C and 9 from A to C, the
    result is exactly one group [A, B] with A as representative: C is
    compared with the seed A only, is beyond the threshold, and stays
    ungrouped. *)
Theorem chain_is_cut_at_the_seed (a b c ha hb hc : string) :
  a <> b -> a <> c -> b <> c ->
  hamming_distance ha hb = Ok 3 ->
  hamming_distance hb hc = Ok 3 ->
  hamming_distance ha hc = Ok 9 ->
  find_duplicate_groups 5 [(a, ha); (b, hb); (c, hc)] = Ok [[a; b]].
Proof.
  intros Hab Hac Hbc Hdab _ Hdac.
  by apply (chain_groups 5 a b c ha hb hc 3 9).
Qed.

Lemma chain_is_cut_at_the_seed_witness :
  find_duplicate_groups 5
    [("A.png", "-000000000100380"); ("B.png", "0000000000100000");
     ("C.png", "0000000000100403")]
  = Ok [["A.png"; "B.png"]].
Proof.
  apply chain_is_cut_at_the_seed;
    [discriminate | discriminate | discriminate
     | reflexivity | reflexivity | reflexivity].
Defined.

(** ** C3: raising the threshold *)

(** C3 (as stated, refuted).  At threshold 1 the image x is grouped
    with s; at threshold 2 the earlier seed r claims s, and x, which is
    at distance 3 from r, is left in no group. *)
Lemma threshold_not_monotonic :
  1 <= 2 /\
  find_duplicate_groups 1 trio = Ok [["s.png"; "x.png"]] /\
  find_duplicate_groups 2 trio = Ok [["r.png"; "s.png"]] /\
  "x.png" ∈ concat [["s.png"; "x.png"]] /\
  "x.png" ∉ concat [["r.png"; "s.png"]].
Proof.
  split; [lia|]. split; [by vm_compute|]. split; [by vm_compute|].
  simpl. split; [set_solver|].
  intros H. repeat (apply elem_of_cons in H as [H | H]; [discriminate|]).
  by apply elem_of_nil in H.
Qed.

(** C3 (amended).  For thresholds [t <= t'] and readable fingerprints,
    both runs return, and for every group emitted at [t] and every
    non-representative member of it, the representative or that member
    is still a member of some group at [t']: a grouped pair is never
    dropped as a whole. *)
Theorem higher_threshold_keeps_a_partner (t t' : Z)
    (images : list (string * string)) :
  t <= t' ->
  all_fingerprints images ->
  exists groups groups',
    find_duplicate_groups t images = Ok groups /\
    find_duplicate_groups t' images = Ok groups' /\
    forall rep members, rep :: members ∈ groups ->
      forall m, m ∈ members ->
        rep ∈ concat groups' \/ m ∈ concat groups'.
Proof.
  intros Htt Hfp. unfold find_duplicate_groups.
  destruct (group_images_total scan_all t images Hfp) as [G HG].
  destruct (group_images_total scan_all t' images Hfp) as [G' HG'].
  exists G, G'. split; [done|]. split; [done|].
  intros rep members Hg m Hm.
  apply group_images_Ok in HG as [pr HG], HG' as [pr' HG'].
  apply loop_inv_final in HG as (_ & Hok & _).
  apply loop_inv_final in HG' as (Hpr' & _ & Hfar). simpl in *.
  rewrite Forall_forall in Hok.
  destruct (Hok _ Hg) as (i & p1 & h1 & ms & [= <- <-] & _ & Hi & Hms).
  destruct (Hms m Hm) as (j & h2 & Hj & Hpick & Hclose).
  destruct (decide (rep ∈ pr')) as [Hin | Hnin]; [left; by apply Hpr'|].
  destruct (decide (m ∈ pr')) as [Hin' | Hnin']; [right; by apply Hpr'|].
  exfalso. apply (close_far_absurd t' h1 h2).
  - by apply (close_to_mono t).
  - apply (Hfar i rep h1) with (j := j) (p' := m); try done.
    by eapply lookup_lt_Some.
Qed.

Lemma higher_threshold_keeps_a_partner_witness :
  exists groups groups',
    find_duplicate_groups 1 trio = Ok groups /\
    find_duplicate_groups 2 trio = Ok groups' /\
    forall rep members, rep :: members ∈ groups ->
      forall m, m ∈ members ->
        rep ∈ concat groups' \/ m ∈ concat groups'.
Proof.
  apply (higher_threshold_keeps_a_partner 1 2 trio); [lia|].
  apply all_fingerprints_check. reflexivity.
Defined.

(** ** C5: groups are disjoint *)

(** C5.  For pairwise-distinct references the grouping returns whenever
    the fingerprints are readable, and in any result no reference occurs
    twice, neither inside one group nor in two groups, and every grouped
    reference is a reference of the input. *)
Theorem groups_are_disjoint (t : Z) (images : list (string * string)) :
  NoDup images.*1 ->
  (all_fingerprints images ->
   exists groups, find_duplicate_groups t images = Ok groups) /\
  forall groups, find_duplicate_groups t images = Ok groups ->
    NoDup (concat groups) /\
    concat groups ⊆ images.*1 /\
    (forall g, g ∈ groups -> NoDup g) /\
    (forall i j g g' x,
       groups !! i = Some g -> groups !! j = Some g' ->
       x ∈ g -> x ∈ g' -> i = j).
Proof.
  intros Hdistinct. split; [apply group_images_total|].
  intros G HG. apply group_images_Ok in HG as [pr HG].
  assert (NoDup (concat G)) as Hnd.
  { by apply (nodup_final scan_all t images (G, pr) Hdistinct
                scan_all_irrefl). }
  split; [done|]. split; [|split].
  - apply loop_inv_final in HG as (_ & Hok & _). simpl in Hok.
    rewrite Forall_forall in Hok.
    intros x (g & Hx & Hg)%elem_of_concat.
    destruct (Hok g Hg) as (i & p1 & h1 & ms & -> & _ & Hi & Hms).
    apply elem_of_cons in Hx as [-> | Hx].
    + apply list_elem_of_fmap. exists (p1, h1).
      split; [done | by eapply list_elem_of_lookup_2].
    + destruct (Hms x Hx) as (j & h2 & Hj & _).
      apply list_elem_of_fmap. exists (x, h2).
      split; [done | by eapply list_elem_of_lookup_2].
  - intros g Hg. by apply (NoDup_concat_group G).
  - by apply NoDup_concat_disjoint.
Qed.

Lemma groups_are_disjoint_witness :
  NoDup (concat [["r.png"; "s.png"]]) /\
  concat [["r.png"; "s.png"]] ⊆ trio.*1.
Proof.
  assert (NoDup trio.*1) as Hdistinct.
  { apply (bool_decide_unpack _). vm_compute. exact I. }
  destruct (groups_are_disjoint 2 trio Hdistinct) as [_ H].
  destruct (H [["r.png"; "s.png"]]) as (H1 & H2 & _); [reflexivity|].
  exact (conj H1 H2).
Defined.

(** ** C6: no singleton group *)

Lemma single_image_no_group (t : Z) (p h : string) :
  find_duplicate_groups t [(p, h)] = Ok [].
Proof.
  unfold find_duplicate_groups, group_images, group_loop, enumerate.
  simpl enumerate_from. rewrite for_each_cons.
  rewrite (seed_scan scan_all t [(p, h)] 0 p h [] ∅ ∅ [p]).
  - reflexivity.
  - set_solver.
  - unfold enumerate. simpl enumerate_from.
    by rewrite for_each_cons, scan_skip by (left; apply scan_all_irrefl).
Qed.

(** C6.  For every input list and threshold: the grouping returns
    whenever the fingerprints are readable; every group of a result has
    at least two members; and an input of length 0 or 1 gives the empty
    result without raising, whatever its fingerprint. *)
Theorem groups_have_two_members (t : Z) (images : list (string * string)) :
  (all_fingerprints images ->
   exists groups, find_duplicate_groups t images = Ok groups) /\
  (forall groups, find_duplicate_groups t images = Ok groups ->
     forall g, g ∈ groups -> (2 <= length g)%nat) /\
  ((length images <= 1)%nat -> find_duplicate_groups t images = Ok []).
Proof.
  split; [apply group_images_total|]. split.
  - intros G HG g Hg. apply group_images_Ok in HG as [pr HG].
    apply loop_inv_final in HG as (_ & Hok & _). simpl in Hok.
    rewrite Forall_forall in Hok.
    destruct (Hok g Hg) as (i & p1 & h1 & ms & -> & Hne & _).
    destruct ms; [done | simpl; lia].
  - intros Hlen. destruct images as [|[p h] [|x images]]; simpl in Hlen.
    + reflexivity.
    + apply single_image_no_group.
    + lia.
Qed.

Lemma groups_have_two_members_witness :
  (forall g, g ∈ [["r.png"; "s.png"]] -> (2 <= length g)%nat) /\
  find_duplicate_groups 5 [("only.png", "not a fingerprint")] = Ok [].
Proof.
  split.
  - destruct (groups_have_two_members 2 trio) as (_ & H & _).
    apply H. reflexivity.
  - destruct (groups_have_two_members 5 [("only.png", "not a fingerprint")])
      as (_ & _ & H).
    apply H. simpl. lia.
Defined.

(** ** C7: scanning every position or only the later ones *)

(** C7.  The loop of the source, whose scan from seed [i] visits every
    unclaimed position [j <> i], and the forward-only loop of the
    specification return the same result (the same groups in the same
    order, or the same exception).  A match at an earlier position never
    happens: see [scan_never_matches_backward]. *)
Theorem full_scan_is_forward_scan (t : Z) (images : list (string * string)) :
  NoDup images.*1 ->
  find_duplicate_groups t images = forward_scan_groups t images.
Proof.
  intros _. unfold find_duplicate_groups, forward_scan_groups, group_images.
  by rewrite group_loops_agree.
Qed.

Lemma full_scan_is_forward_scan_witness :
  find_duplicate_groups 1 trio = forward_scan_groups 1 trio.
Proof.
  apply (full_scan_is_forward_scan 1 trio).
  apply (bool_decide_unpack _). vm_compute. exact I.
Defined.

(** ** Writing and reading hexadecimal text *)

Lemma hex_digit_hex_char (d : Z) :
  0 <= d < 16 -> hex_digit (hex_char d) = Some d.
Proof.
  intros Hd.
  assert (exists n : nat, (n < 16)%nat /\ d = Z.of_nat n) as (n & Hn & ->).
  { exists (Z.to_nat d). lia. }
  do 16 (destruct n as [|n]; [reflexivity|]). lia.
Qed.

Lemma hex_digits_app (acc : Z) (s1 s2 : string) :
  hex_digits acc (s1 ++ s2)%string
  = match hex_digits acc s1 with
    | Some a => hex_digits a s2
    | None => None
    end.
Proof.
  revert acc. induction s1 as [|c s1 IH]; intros acc; simpl; [done|].
  destruct (hex_digit c); [apply IH | done].
Qed.

Lemma hex_digits_zeros (k : nat) (s : string) :
  hex_digits 0 (zeros k ++ s)%string = hex_digits 0 s.
Proof. induction k as [|k IH]; [done | exact IH]. Qed.

Lemma hex_digits_hex_of (fuel : nat) :
  forall v, 0 <= v < 16 ^ (Z.of_nat fuel + 1) ->
            hex_digits 0 (hex_of fuel v) = Some v.
Proof.
  induction fuel as [|fuel IH]; intros v Hv.
  - simpl in *. rewrite Z.mod_small by lia.
    rewrite hex_digit_hex_char by lia. f_equal; lia.
  - simpl hex_of. destruct (v <? 16) eqn:Hlt.
    + simpl. rewrite hex_digit_hex_char by lia. f_equal; lia.
    + rewrite hex_digits_app, IH.
      * simpl. rewrite hex_digit_hex_char by (apply Z.mod_pos_bound; lia).
        f_equal. pose proof (Z.div_mod v 16). lia.
      * replace (Z.of_nat (S fuel) + 1) with (Z.succ (Z.of_nat fuel + 1))
          in Hv by lia.
        rewrite Z.pow_succ_r in Hv by lia.
        split; [apply Z.div_pos; lia|].
        apply Z.div_lt_upper_bound; lia.
Qed.

Lemma hex_digits_hex (v : Z) : 0 <= v -> hex_digits 0 (hex v) = Some v.
Proof.
  intros Hv. unfold hex. apply hex_digits_hex_of. split; [done|].
  destruct (decide (v = 0)) as [-> | Hne]; [done|].
  rewrite Z2Nat.id by apply Z.log2_nonneg.
  assert (v < 2 ^ (Z.log2 v + 1)).
  { replace (Z.log2 v + 1) with (Z.succ (Z.log2 v)) by lia.
    apply Z.log2_spec. lia. }
  assert (2 ^ (Z.log2 v + 1) <= 16 ^ (Z.log2 v + 1)); [|lia].
  apply Z.pow_le_mono_l. lia.
Qed.

Lemma hex_of_nonempty (fuel : nat) (v : Z) : hex_of fuel v <> EmptyString.
Proof.
  destruct fuel as [|fuel]; simpl; [done|].
  destruct (v <? 16); [done|].
  destruct (hex_of fuel (v / 16)); done.
Qed.

Lemma hex_magnitude_padded (k : nat) (v : Z) :
  0 <= v -> hex_magnitude (zeros k ++ hex v)%string = Ok v.
Proof.
  intros Hv. unfold hex_magnitude.
  rewrite hex_digits_zeros, hex_digits_hex by done.
  destruct (zeros k ++ hex v)%string eqn:Hs; [|done].
  destruct k; simpl in Hs; [|done]. by apply hex_of_nonempty in Hs.
Qed.

(** A string of digits that [hex_magnitude] reads carries no sign. *)
Lemma int16_unsigned (s : string) (v : Z) :
  hex_magnitude s = Ok v -> int16 s = Ok v.
Proof.
  destruct s as [|c s]; [done|].
  destruct c as [[] [] [] [] [] [] [] []]; try done.
Qed.

(** Round trip: [int(format(v, '0{w}x'), 16) == v], for negative [v]
    too. *)
Lemma int16_format_hex (v : Z) (width : nat) :
  int16 (format_hex v width) = Ok v.
Proof.
  unfold format_hex. destruct (v <? 0) eqn:Hneg.
  - simpl. rewrite hex_magnitude_padded by lia. simpl. f_equal; lia.
  - apply int16_unsigned, hex_magnitude_padded. lia.
Qed.

Lemma format_hex_is_fingerprint (v : Z) (width : nat) :
  is_fingerprint (format_hex v width).
Proof. exists v. apply int16_format_hex. Qed.

(** ** Counting differing bits *)
Lemma set_bits_from_shift (k n : nat) (x : Z) :
  set_bits_from (S k) n x = set_bits_from k n (Z.div2 x).
Proof.
  unfold set_bits_from. revert k. induction n as [|n IH]; intros k; [done|].
  cbn [seq foldr]. rewrite IH. f_equal. f_equal.
  rewrite Z.div2_spec, Z.shiftr_spec by lia. f_equal. lia.
Qed.

Lemma set_bits_from_0 (k n : nat) : set_bits_from k n 0 = 0.
Proof.
  unfold set_bits_from. revert k.
  induction n as [|n IH]; intros k; cbn [seq foldr]; [done|].
  by rewrite IH, Z.bits_0.
Qed.

Lemma ones_set_bits (p : positive) :
  forall n, Z.pos p < 2 ^ Z.of_nat n -> ones p = set_bits_from 0 n (Z.pos p).
Proof.
  induction p as [p IH | p IH |]; intros n Hn.
  - destruct n as [|n]; [simpl in Hn; lia|].
    unfold set_bits_from. cbn [seq foldr]. fold (set_bits_from 1 n (Z.pos p~1)).
    rewrite set_bits_from_shift. simpl Z.div2. simpl ones.
    rewrite <- IH; [done|].
    rewrite Nat2Z.inj_succ, Z.pow_succ_r in Hn by lia. lia.
  - destruct n as [|n]; [simpl in Hn; lia|].
    unfold set_bits_from. cbn [seq foldr]. fold (set_bits_from 1 n (Z.pos p~0)).
    rewrite set_bits_from_shift. simpl Z.div2. simpl ones.
    rewrite <- IH; [done|].
    rewrite Nat2Z.inj_succ, Z.pow_succ_r in Hn by lia. lia.
  - destruct n as [|n]; [simpl in Hn; lia|].
    unfold set_bits_from. cbn [seq foldr]. fold (set_bits_from 1 n 1).
    rewrite set_bits_from_shift. simpl Z.div2. simpl ones.
    by rewrite set_bits_from_0.
Qed.

Lemma bin_count_ones_set_bits (n : nat) (x : Z) :
  0 <= x < 2 ^ Z.of_nat n -> bin_count_ones x = set_bits_from 0 n x.
Proof.
  intros [Hx Hn]. destruct x as [|p|p]; [|by apply ones_set_bits | lia].
  by rewrite set_bits_from_0.
Qed.

(** On non-negative integers below [2^n], the count of [hamming_distance]
    is the number of differing bit positions. *)
Lemma bin_count_ones_lxor (n : nat) (a b : Z) :
  0 <= a < 2 ^ Z.of_nat n -> 0 <= b < 2 ^ Z.of_nat n ->
  bin_count_ones (Z.lxor a b) = bit_differences n a b.
Proof.
  intros Ha Hb. rewrite (bin_count_ones_set_bits n).
  - unfold set_bits_from, bit_differences.
    induction (seq 0 n) as [|k l IH]; cbn [foldr]; [done|].
    by rewrite IH, Z.lxor_spec.
  - split; [apply Z.lxor_nonneg; lia|].
    destruct (decide (Z.lxor a b = 0)) as [-> | Hne];
      [apply Z.pow_pos_nonneg; lia|].
    assert (0 < Z.of_nat n) as Hpos.
    { destruct n; [|lia]. simpl in Ha, Hb.
      assert (a = 0) as -> by lia. assert (b = 0) as -> by lia. done. }
    apply Z.log2_lt_pow2.
    + pose proof (Z.lxor_nonneg a b). lia.
    + eapply Z.le_lt_trans; [apply Z.log2_lxor; lia|].
      apply Z.max_lub_lt.
      * destruct (decide (a = 0)) as [-> | ?]; [simpl; lia|].
        apply Z.log2_lt_pow2; lia.
      * destruct (decide (b = 0)) as [-> | ?]; [simpl; lia|].
        apply Z.log2_lt_pow2; lia.
Qed.

(** On unsigned fingerprints the distance obeys the triangle inequality,
    so a chain with distances 3 and 3 spans at most 6. *)
Lemma bit_differences_triangle (n : nat) (a b c : Z) :
  bit_differences n a c <= bit_differences n a b + bit_differences n b c.
Proof.
  unfold bit_differences. induction (seq 0 n) as [|k l IH]; cbn [foldr]; [lia|].
  destruct (Z.testbit a (Z.of_nat k)), (Z.testbit b (Z.of_nat k)),
    (Z.testbit c (Z.of_nat k)); simpl; lia.
Qed.

Lemma unsigned_chain_bound (ha hb hc : string) (va vb vc dab dbc dac : Z) :
  int16 ha = Ok va -> int16 hb = Ok vb -> int16 hc = Ok vc ->
  0 <= va -> 0 <= vb -> 0 <= vc ->
  hamming_distance ha hb = Ok dab ->
  hamming_distance hb hc = Ok dbc ->
  hamming_distance ha hc = Ok dac ->
  dac <= dab + dbc.
Proof.
  intros Ha Hb Hc Hva Hvb Hvc. unfold hamming_distance.
  rewrite Ha, Hb, Hc. simpl. intros [= <-] [= <-] [= <-].
  set (n := Z.to_nat (Z.log2 (va + vb + vc) + 1)).
  assert (forall v, 0 <= v <= va + vb + vc -> 0 <= v < 2 ^ Z.of_nat n) as Hn.
  { intros v Hv. split; [lia|]. unfold n.
    rewrite Z2Nat.id by (pose proof (Z.log2_nonneg (va + vb + vc)); lia).
    destruct (decide (va + vb + vc = 0)) as [H0 | Hne].
    - rewrite H0. simpl. lia.
    - assert (va + vb + vc < 2 ^ (Z.log2 (va + vb + vc) + 1)); [|lia].
      replace (Z.log2 (va + vb + vc) + 1)
        with (Z.succ (Z.log2 (va + vb + vc))) by lia.
      apply Z.log2_spec. lia. }
  rewrite !(bin_count_ones_lxor n) by (apply Hn; lia).
  apply bit_differences_triangle.
Qed.

(** ** C2: fingerprints of different widths *)

(** C2 (as stated, refuted).  The difference hashes of one image at
    reduction sizes 2 and 8 are 4 and 64 bits wide, and their distance
    is computed: 60, no error. *)
Lemma widths_are_not_checked :
  calculate_dhash ramp 2 = Ok "f" /\
  calculate_dhash ramp 8 = Ok "ffffffffffffffff" /\
  hamming_distance "f" "ffffffffffffffff" = Ok 60.
Proof. by vm_compute. Qed.

(** C2 (amended).  The distance of two fingerprints written by
    [format], whatever their widths [w1] and [w2], is computed and never
    fails: for values below [2^n] it is the number of bit positions below
    [n] at which the two integers differ, the narrower fingerprint
    counting as padded with zero bits. *)
Theorem distance_ignores_width (n w1 w2 : nat) (v1 v2 : Z) :
  0 <= v1 < 2 ^ Z.of_nat n ->
  0 <= v2 < 2 ^ Z.of_nat n ->
  hamming_distance (format_hex v1 w1) (format_hex v2 w2)
  = Ok (bit_differences n v1 v2).
Proof.
  intros H1 H2. unfold hamming_distance.
  rewrite !int16_format_hex. simpl.
  by rewrite (bin_count_ones_lxor n).
Qed.

Lemma distance_ignores_width_witness :
  hamming_distance (format_hex 15 1) (format_hex (2 ^ 64 - 1) 16)
  = Ok (bit_differences 64 15 (2 ^ 64 - 1)).
Proof.
  apply (distance_ignores_width 64 1 16 15 (2 ^ 64 - 1)); simpl; lia.
Defined.

(** ** C4: members are close to the representative *)

Lemma hex_digit_range (c : ascii) (d : Z) :
  hex_digit c = Some d -> 0 <= d < 16.
Proof.
  unfold hex_digit. intros H.
  repeat case_match; simplify_eq; lia.
Qed.

Lemma hex_digits_bound (s : string) :
  forall acc v, 0 <= acc -> hex_digits acc s = Some v ->
    acc * 16 ^ Z.of_nat (String.length s) <= v
    < (acc + 1) * 16 ^ Z.of_nat (String.length s).
Proof.
  induction s as [|c s IH]; intros acc v Hacc H; simpl in H.
  - simplify_eq. simpl. lia.
  - destruct (hex_digit c) as [d|] eqn:Hd; [|done].
    apply hex_digit_range in Hd.
    apply IH in H; [|lia].
    cbn [String.length]. rewrite Nat2Z.inj_succ, Z.pow_succ_r by lia.
    nia.
Qed.

(** What [int(_, 16)] reads from an unsigned fingerprint of [w] digits. *)
Lemma hex_word_value (w : nat) (h : string) :
  (1 <= w)%nat -> hex_word w h ->
  exists v, int16 h = Ok v /\ 0 <= v < 2 ^ Z.of_nat (4 * w).
Proof.
  intros Hw [Hlen [v Hv]]. exists v. split.
  - apply int16_unsigned. unfold hex_magnitude. rewrite Hv.
    destruct h; [simpl in Hlen; lia | done].
  - apply hex_digits_bound in Hv; [|lia]. rewrite Hlen in Hv.
    replace (2 ^ Z.of_nat (4 * w)) with (16 ^ Z.of_nat w); [lia|].
    rewrite Nat2Z.inj_mul, Z.pow_mul_r by lia. done.
Qed.

(** The number that [int(_, 16)] reads from an unsigned fingerprint of
    [w] digits is the number its digits denote, and it has [4 * w]
    bits. *)
Lemma hex_word_reads (w : nat) (h : string) (v : Z) :
  hex_word w h -> int16 h = Ok v ->
  hex_digits 0 h = Some v /\ 0 <= v < 2 ^ Z.of_nat (4 * w).
Proof.
  intros Hword Hv.
  assert (1 <= w)%nat as Hpos.
  { destruct Hword as [Hlen _]. destruct h; [done | simpl in Hlen; lia]. }
  destruct Hword as [Hlen [v0 Hv0]].
  assert (int16 h = Ok v0) as Hv'.
  { apply int16_unsigned. unfold hex_magnitude. rewrite Hv0.
    destruct h; [simpl in Hlen; lia | done]. }
  rewrite Hv in Hv'. injection Hv' as ->. split; [done|].
  apply hex_digits_bound in Hv0; [|lia]. rewrite Hlen in Hv0.
  replace (2 ^ Z.of_nat (4 * w)) with (16 ^ Z.of_nat w); [lia|].
  rewrite Nat2Z.inj_mul, Z.pow_mul_r by lia. done.
Qed.

(** C4.  For pairwise-distinct references and unsigned fingerprints of
    one width, [w] hexadecimal digits: in every emitted group, the
    numbers denoted by the fingerprint of the representative (the first
    element) and by the fingerprint of any later member differ in at
    most [t] of their [4 * w] bit positions; and the grouping returns
    when the fingerprints have at least one digit. *)
Theorem members_within_threshold (t : Z) (w : nat)
    (images : list (string * string)) :
  NoDup images.*1 ->
  (forall p h, (p, h) ∈ images -> hex_word w h) ->
  ((1 <= w)%nat ->
   exists groups, find_duplicate_groups t images = Ok groups) /\
  forall groups, find_duplicate_groups t images = Ok groups ->
    forall g, g ∈ groups ->
      exists rep rep_hash a members,
        g = rep :: members /\ (rep, rep_hash) ∈ images /\
        hex_digits 0 rep_hash = Some a /\
        forall m, m ∈ members ->
          exists m_hash b,
            (m, m_hash) ∈ images /\ hex_digits 0 m_hash = Some b /\
            bit_differences (4 * w) a b <= t.
Proof.
  intros _ Hword. split.
  - intros Hpos. unfold find_duplicate_groups. apply group_images_total.
    intros p h Hin.
    destruct (hex_word_value w h Hpos (Hword p h Hin)) as (v & Hv & _).
    by exists v.
  - intros groups HG g Hg. unfold find_duplicate_groups in HG.
    apply group_images_Ok in HG as [pr HG].
    apply loop_inv_final in HG as (_ & Hok & _). simpl in Hok.
    rewrite Forall_forall in Hok.
    destruct (Hok g Hg) as (i & p1 & h1 & ms & -> & _ & Hi & Hms).
    apply list_elem_of_lookup_2 in Hi.
    destruct (Hword p1 h1 Hi) as [Hlen1 [a Ha]].
    exists p1, h1, a, ms. split; [done|]. split; [done|]. split; [done|].
    intros m Hm. destruct (Hms m Hm) as (j & h2 & Hj & _ & d & Hd & Hle).
    apply list_elem_of_lookup_2 in Hj.
    unfold hamming_distance in Hd.
    apply bind_Ok in Hd as (v1 & Hv1 & Hd).
    apply bind_Ok in Hd as (v2 & Hv2 & [= <-]).
    destruct (hex_word_reads w h1 v1 (Hword p1 h1 Hi) Hv1) as [Ha' Hr1].
    destruct (hex_word_reads w h2 v2 (Hword m h2 Hj) Hv2) as [Hb Hr2].
    rewrite Ha in Ha'. injection Ha' as ->.
    exists h2, v2. split; [done|]. split; [done|].
    by rewrite <- (bin_count_ones_lxor (4 * w)).
Qed.

Lemma members_within_threshold_witness :
  (forall p h, (p, h) ∈ trio -> hex_word 16 h) /\
  find_duplicate_groups 2 trio = Ok [["r.png"; "s.png"]] /\
  exists rep rep_hash a members,
    ["r.png"; "s.png"] = rep :: members /\ (rep, rep_hash) ∈ trio /\
    hex_digits 0 rep_hash = Some a /\
    forall m, m ∈ members ->
      exists m_hash b,
        (m, m_hash) ∈ trio /\ hex_digits 0 m_hash = Some b /\
        bit_differences (4 * 16) a b <= 2.
Proof.
  assert (NoDup trio.*1) as Hdistinct
    by (apply (bool_decide_unpack _); vm_compute; exact I).
  assert (forall p h, (p, h) ∈ trio -> hex_word 16 h) as Hword.
  { intros p h Hin. unfold trio in Hin.
    repeat (apply elem_of_cons in Hin as [[= -> ->] | Hin];
            [split; [reflexivity | by eexists]|]).
    by apply elem_of_nil in Hin. }
  assert (find_duplicate_groups 2 trio = Ok [["r.png"; "s.png"]]) as Hrun
    by reflexivity.
  split; [exact Hword|]. split; [exact Hrun|].
  apply (proj2 (members_within_threshold 2 16 trio Hdistinct Hword)
           [["r.png"; "s.png"]] Hrun).
  left.
Defined.

(** ** C10: the hash selector *)

Lemma calculate_dhash_fingerprint (img : Image) (n : nat) (h : string) :
  calculate_dhash img n = Ok h -> is_fingerprint h.
Proof.
  unfold calculate_dhash. intros (diff & _ & [= <-])%bind_Ok.
  apply format_hex_is_fingerprint.
Qed.

Lemma calculate_phash_fingerprint (img : Image) (n : nat) (h : string) :
  calculate_phash img n = Ok h -> is_fingerprint h.
Proof.
  unfold calculate_phash.
  intros (px & _ & (dct & _ & (d00 & _ & [= <-])%bind_Ok)%bind_Ok)%bind_Ok.
  apply format_hex_is_fingerprint.
Qed.

Lemma calculate_average_hash_fingerprint (img : Image) (n : nat)
    (h : string) :
  calculate_average_hash img n = Ok h -> is_fingerprint h.
Proof.
  unfold calculate_average_hash. intros (avg & _ & [= <-])%bind_Ok.
  apply format_hex_is_fingerprint.
Qed.

Lemma select_hash_fingerprint (m : string) (img : Image) (h : string) :
  select_hash m img = Ok h -> is_fingerprint h.
Proof.
  unfold select_hash. repeat case_bool_decide;
    eauto using calculate_dhash_fingerprint, calculate_phash_fingerprint,
      calculate_average_hash_fingerprint.
Qed.

Lemma hash_images_fingerprints (m : string) (files : list (string * Image)) :
  all_fingerprints (hash_images m files).
Proof.
  induction files as [|[path img] files IH]; intros p h Hin; simpl in Hin.
  - by apply elem_of_nil in Hin.
  - destruct (select_hash m img) as [h0|e] eqn:Hh; [|by eapply IH].
    apply elem_of_cons in Hin as [[= -> ->] | Hin]; [|by eapply IH].
    by eapply select_hash_fingerprint.
Qed.

(** The pipeline never raises: a file whose hashing fails is skipped,
    and every hash that is kept can be read back. *)
Lemma find_duplicate_images_total (files : list (string * Image)) (t : Z)
    (m : string) :
  exists groups, find_duplicate_images files t m = Ok groups.
Proof.
  unfold find_duplicate_images, find_duplicate_groups.
  apply group_images_total, hash_images_fingerprints.
Qed.

Lemma select_hash_fallback (m : string) (img : Image) :
  m <> "dhash" -> m <> "phash" -> m <> "ahash" ->
  select_hash m img = select_hash "dhash" img.
Proof.
  intros Hd Hp Ha. unfold select_hash.
  rewrite (bool_decide_eq_false_2 _ Hd), (bool_decide_eq_false_2 _ Hp),
    (bool_decide_eq_false_2 _ Ha).
  done.
Qed.

(** C10.  With a selector other than [dhash], [phash] and [ahash] the
    pipeline raises nothing and returns what it returns with [dhash] on
    the same files and threshold. *)
Theorem unknown_method_falls_back_to_dhash
    (files : list (string * Image)) (t : Z) (hash_method : string) :
  hash_method <> "dhash" -> hash_method <> "phash" ->
  hash_method <> "ahash" ->
  find_duplicate_images files t hash_method
  = find_duplicate_images files t "dhash" /\
  exists groups, find_duplicate_images files t hash_method = Ok groups.
Proof.
  intros Hd Hp Ha. split; [|apply find_duplicate_images_total].
  unfold find_duplicate_images. f_equal.
  induction files as [|[path img] files IH]; simpl; [done|].
  by rewrite (select_hash_fallback hash_method img Hd Hp Ha), IH.
Qed.

Lemma unknown_method_falls_back_to_dhash_witness :
  find_duplicate_images [("a.png", ramp); ("b.png", ramp); ("c.png", flat)]
                        5 "dhsah"
  = find_duplicate_images [("a.png", ramp); ("b.png", ramp); ("c.png", flat)]
                          5 "dhash" /\
  exists groups,
    find_duplicate_images [("a.png", ramp); ("b.png", ramp); ("c.png", flat)]
                          5 "dhsah" = Ok groups.
Proof.
  apply unknown_method_falls_back_to_dhash; discriminate.
Defined.

(** ** The [int64] accumulator *)

Lemma wrap_int64_mod (z : Z) : wrap_int64 z mod 2 ^ 64 = z mod 2 ^ 64.
Proof.
  unfold wrap_int64. rewrite Zminus_mod_idemp_l. f_equal. lia.
Qed.

Lemma wrap_int64_congr (a b : Z) :
  a mod 2 ^ 64 = b mod 2 ^ 64 -> wrap_int64 a = wrap_int64 b.
Proof.
  intros H. unfold wrap_int64.
  rewrite <- (Zplus_mod_idemp_l a), <- (Zplus_mod_idemp_l b). by rewrite H.
Qed.

Lemma wrap_int64_small (z : Z) :
  - 2 ^ 63 <= z < 2 ^ 63 -> wrap_int64 z = z.
Proof. intros H. unfold wrap_int64. rewrite Z.mod_small; lia. Qed.

Lemma wrap_int64_double (x : Z) : exists y, wrap_int64 (2 * x) = 2 * y.
Proof.
  exists ((x + 2 ^ 62) mod 2 ^ 63 - 2 ^ 62). unfold wrap_int64.
  replace (2 * x + 2 ^ 63) with (2 * (x + 2 ^ 62)) by lia.
  replace (2 ^ 64) with (2 * 2 ^ 63) by lia.
  rewrite Z.mul_mod_distr_l by lia. lia.
Qed.

Lemma lor_double_bit (y : Z) (b : bool) :
  Z.lor (2 * y) (Z.b2z b) = 2 * y + Z.b2z b.
Proof.
  destruct b; simpl Z.b2z; [|by rewrite Z.lor_0_r, Z.add_0_r].
  apply Z.bits_inj'. intros k Hk. rewrite Z.lor_spec.
  destruct (decide (k = 0)) as [-> | Hne].
  - by rewrite Z.testbit_even_0, Z.testbit_odd_0.
  - replace k with (Z.succ (k - 1)) by lia.
    rewrite Z.testbit_even_succ, Z.testbit_odd_succ by lia.
    change 1 with (2 * 0 + 1).
    rewrite Z.testbit_odd_succ, Z.bits_0 by lia. apply orb_false_r.
Qed.

Lemma pack_step_int64 (v : Z) (b : bool) :
  wrap_int64 (Z.lor (wrap_int64 (Z.shiftl (wrap_int64 v) 1)) (Z.b2z b))
  = wrap_int64 (Z.lor (Z.shiftl v 1) (Z.b2z b)).
Proof.
  rewrite !Z.shiftl_mul_pow2 by lia. change (2 ^ 1) with 2.
  rewrite !(Z.mul_comm _ 2).
  destruct (wrap_int64_double (wrap_int64 v)) as [y Hy].
  rewrite Hy, !lor_double_bit, <- Hy.
  apply wrap_int64_congr.
  rewrite <- Zplus_mod_idemp_l, wrap_int64_mod.
  rewrite <- Zmult_mod_idemp_r, wrap_int64_mod.
  by rewrite Zmult_mod_idemp_r, Zplus_mod_idemp_l.
Qed.

(** The [int64] accumulator holds the unbounded packing modulo [2^64],
    read as a signed number. *)
Lemma pack_bits_int64_wrap (bits : list bool) :
  pack_bits_int64 bits = wrap_int64 (pack_bits bits).
Proof.
  unfold pack_bits_int64, pack_bits.
  change 0 with (wrap_int64 0) at 1. generalize 0.
  induction bits as [|b bits IH]; intros v; simpl; [done|].
  by rewrite pack_step_int64, IH.
Qed.

Lemma pack_bits_bound (bits : list bool) :
  0 <= pack_bits bits < 2 ^ Z.of_nat (length bits).
Proof.
  unfold pack_bits.
  enough (forall v k, 0 <= v < 2 ^ Z.of_nat k ->
            0 <= fold_left (fun v b => Z.lor (Z.shiftl v 1) (Z.b2z b)) bits v
            < 2 ^ Z.of_nat (k + length bits)) as H.
  { apply (H 0 0%nat). simpl. lia. }
  induction bits as [|b bits IH]; intros v k Hv; simpl.
  - by rewrite Nat.add_0_r.
  - replace (k + S (length bits))%nat with (S k + length bits)%nat by lia.
    apply IH. rewrite Z.shiftl_mul_pow2 by lia. change (2 ^ 1) with 2.
    rewrite (Z.mul_comm _ 2), lor_double_bit.
    rewrite Nat2Z.inj_succ, Z.pow_succ_r by lia.
    destruct b; simpl; lia.
Qed.

(** ** Copying the pixel grid *)

(** Total-correctness rule for a loop over [range n]. *)
Lemma for_each_seq_inv {St : Type} (P : nat -> St -> Prop)
    (body : St -> nat -> res St) (n : nat) :
  forall (k : nat) (s : St),
    P k s ->
    (forall j s1, (k <= j < k + n)%nat -> P j s1 ->
       exists s2, body s1 j = Ok s2 /\ P (S j) s2) ->
    exists s', for_each (seq k n) body s = Ok s' /\ P (k + n)%nat s'.
Proof.
  induction n as [|n IH]; intros k s HP Hstep; simpl.
  - exists s. by rewrite Nat.add_0_r.
  - destruct (Hstep k s) as (s1 & H1 & HP1); [lia | done |].
    rewrite H1. simpl.
    destruct (IH (S k) s1 HP1) as (s' & Hrun & HP').
    { intros j s2 Hj. apply Hstep. lia. }
    exists s'. split; [done|]. by rewrite Nat.add_succ_r.
Qed.

Lemma for_each_range_inv {St : Type} (P : nat -> St -> Prop)
    (body : St -> nat -> res St) (n : nat) (s : St) :
  P 0%nat s ->
  (forall j s1, (j < n)%nat -> P j s1 ->
     exists s2, body s1 j = Ok s2 /\ P (S j) s2) ->
  exists s', for_each (range n) body s = Ok s' /\ P n s'.
Proof.
  intros H0 Hstep.
  destruct (for_each_seq_inv P body n 0 s H0) as (s' & Hrun & HP).
  - intros j s1 Hj. apply Hstep. lia.
  - by exists s'.
Qed.

(** Overwriting position [i] of a list that already agrees with [l1]
    before [i]. *)
Lemma insert_take_drop {A : Type} (l1 l2 : list A) (i : nat) (x : A) :
  l1 !! i = Some x -> (i < length l2)%nat ->
  <[i := x]> (take i l1 ++ drop i l2) = take (S i) l1 ++ drop (S i) l2.
Proof.
  intros Hx Hi.
  assert (length (take i l1) = i) as Hlen.
  { apply length_take_le. apply lookup_lt_Some in Hx. lia. }
  rewrite insert_app_r_alt by lia. rewrite Hlen, Nat.sub_diag.
  destruct (lookup_lt_is_Some_2 l2 i Hi) as [y Hy].
  rewrite (drop_S l2 y i Hy). simpl.
  rewrite (take_S_r l1 i x Hx), <- app_assoc. done.
Qed.

Lemma split_rows_length (rows cols : nat) (data : list Z) :
  length (split_rows rows cols data) = rows.
Proof.
  revert data. induction rows as [|rows IH]; intros data; simpl; [done|].
  by rewrite IH.
Qed.

Lemma split_rows_lookup (rows cols : nat) (data : list Z) (i : nat) :
  (i < rows)%nat ->
  split_rows rows cols data !! i = Some (take cols (drop (i * cols) data)).
Proof.
  revert data i. induction rows as [|rows IH]; intros data i Hi; [lia|].
  destruct i as [|i]; simpl; [done|].
  rewrite IH by lia. by rewrite drop_drop.
Qed.

Lemma concat_split_rows (rows cols : nat) (data : list Z) :
  length data = (rows * cols)%nat ->
  concat (split_rows rows cols data) = data.
Proof.
  revert data. induction rows as [|rows IH]; intros data Hlen; simpl.
  - by destruct data.
  - rewrite IH; [apply take_drop|]. rewrite length_drop. simpl in Hlen. lia.
Qed.

Lemma split_rows_row_length (rows cols : nat) (data row : list Z) (i : nat) :
  length data = (rows * cols)%nat ->
  split_rows rows cols data !! i = Some row -> length row = cols.
Proof.
  intros Hlen Hrow.
  assert (i < rows)%nat as Hi.
  { apply lookup_lt_Some in Hrow. by rewrite split_rows_length in Hrow. }
  rewrite split_rows_lookup in Hrow by done. simplify_eq.
  rewrite length_take_le; [done|]. rewrite length_drop. nia.
Qed.

(** The inner loop [for j in range(n): dct[i, j] = pixels[i, j]] copies
    row [i]. *)
Lemma copy_row (n i : nat) (pixels dct : list (list Z)) (prow row : list Z) :
  pixels !! i = Some prow -> length prow = n ->
  dct !! i = Some row -> length row = n ->
  for_each (range n)
           (fun dct j => v ← getitem2 pixels i j; setitem2 dct i j v) dct
  = Ok (<[i := prow]> dct).
Proof.
  intros Hp Hplen Hd Hdlen.
  destruct (for_each_range_inv
              (fun j d => d = <[i := take j prow ++ drop j row]> dct)
              (fun dct j => v ← getitem2 pixels i j; setitem2 dct i j v)
              n dct) as (d' & Hrun & ->).
  - simpl. by rewrite list_insert_id.
  - intros j d Hj ->.
    destruct (lookup_lt_is_Some_2 prow j) as [v Hv]; [lia|].
    exists (<[i := take (S j) prow ++ drop (S j) row]> dct). split; [|done].
    unfold getitem2, setitem2, getitem. rewrite Hp. simpl. rewrite Hv. simpl.
    rewrite list_lookup_insert_eq by (by eapply lookup_lt_Some). simpl.
    destruct ((take j prow ++ drop j row) !! j) as [w|] eqn:Hw; simpl.
    + rewrite list_insert_insert_eq. f_equal. f_equal.
      apply insert_take_drop; [done | lia].
    + apply lookup_ge_None in Hw.
      rewrite length_app, length_take_le, length_drop in Hw by lia. lia.
  - rewrite Hrun. f_equal. f_equal.
    rewrite take_ge, drop_ge by lia. apply app_nil_r.
Qed.

(** The two nested loops copy the whole grid into [dct]. *)
Lemma copy_grid (n : nat) (data : list Z) :
  length data = (n * n)%nat ->
  for_each (range n)
    (fun dct i =>
       for_each (range n)
         (fun dct j => v ← getitem2 (split_rows n n data) i j;
                       setitem2 dct i j v)
         dct)
    (np_zeros n n)
  = Ok (split_rows n n data).
Proof.
  intros Hlen. set (pixels := split_rows n n data).
  destruct (for_each_range_inv
              (fun i d => d = take i pixels ++ drop i (np_zeros n n))
              (fun dct i =>
                 for_each (range n)
                   (fun dct j => v ← getitem2 pixels i j; setitem2 dct i j v)
                   dct)
              n (np_zeros n n)) as (d' & Hrun & ->).
  - done.
  - intros i d Hi ->.
    assert (pixels !! i = Some (take n (drop (i * n) data))) as Hp.
    { by apply split_rows_lookup. }
    exists (take (S i) pixels ++ drop (S i) (np_zeros n n)). split; [|done].
    rewrite (copy_row n i pixels _ _ (replicate n 0) Hp).
    + f_equal. apply insert_take_drop; [done|].
      unfold np_zeros. rewrite length_replicate. lia.
    + apply (split_rows_row_length n n data _ i Hlen Hp).
    + assert (length (take i pixels) = i) as Hti.
      { apply length_take_le. unfold pixels. rewrite split_rows_length. lia. }
      rewrite lookup_app_r by lia.
      rewrite Hti, Nat.sub_diag, lookup_drop, Nat.add_0_r.
      unfold np_zeros. apply lookup_replicate_2. lia.
    + apply length_replicate.
  - rewrite Hrun. f_equal.
    rewrite take_ge by (unfold pixels; rewrite split_rows_length; lia).
    rewrite drop_ge by (unfold np_zeros; rewrite length_replicate; lia).
    apply app_nil_r.
Qed.

(** ** What [calculate_phash] computes *)

(** For a grid of [n * n] grey levels, [n >= 2]: the bits are those of
    the specification (no transform, mean without the top-left cell,
    [>=] on every cell, row-major), and the value written is their
    most-significant-first packing wrapped into a signed 64-bit word. *)
Lemma calculate_phash_int64 (image : Image) (n : nat) :
  (2 <= n)%nat ->
  length (image n n) = (n * n)%nat ->
  calculate_phash image n
  = Ok (format_hex (wrap_int64 (pack_bits (spec_phash_bits (image n n))))
                   (n ^ 2 / 4)%nat).
Proof.
  intros Hn Hlen. unfold calculate_phash, reshape.
  rewrite Hlen, Nat.eqb_refl. rewrite res_bind_Ok.
  rewrite (copy_grid n (image n n) Hlen). rewrite res_bind_Ok.
  destruct (image n n) as [|p0 data] eqn:Himg; [simpl in Hlen; nia|].
  assert (getitem2 (split_rows n n (p0 :: data)) 0 0 = Ok p0) as ->.
  { unfold getitem2, getitem. rewrite split_rows_lookup by lia. simpl.
    destruct n; [lia | done]. }
  rewrite res_bind_Ok. f_equal. f_equal.
  rewrite pack_bits_int64_wrap. f_equal. f_equal.
  unfold np_sum. rewrite (concat_split_rows n n _ Hlen).
  rewrite <- concat_map, (concat_split_rows n n _ Hlen).
  unfold spec_phash_bits, spec_phash_mean. rewrite Hlen.
  rewrite Nat2Z.inj_mul. cbn [hd].
  destruct (Z.of_nat n * Z.of_nat n - 1) as [|d|d] eqn:Hd; [nia | | nia].
  done.
Qed.

(** Below 64 bits nothing wraps: up to reduction size 7 the code returns
    the fingerprint of the specification. *)
Lemma calculate_phash_small (image : Image) (n : nat) :
  (2 <= n <= 7)%nat ->
  length (image n n) = (n * n)%nat ->
  calculate_phash image n = Ok (spec_phash image n).
Proof.
  intros Hn Hlen. rewrite calculate_phash_int64 by (done || lia).
  unfold spec_phash. rewrite wrap_int64_small; [done|].
  pose proof (pack_bits_bound (spec_phash_bits (image n n))) as [H0 H1].
  assert (2 ^ Z.of_nat (length (spec_phash_bits (image n n))) <= 2 ^ 63).
  { apply Z.pow_le_mono_r; [lia|].
    unfold spec_phash_bits. rewrite length_map, Hlen. nia. }
  lia.
Qed.

(** ** Width of the fingerprints of unbounded packings *)

Lemma zeros_length (k : nat) : String.length (zeros k) = k.
Proof. induction k as [|k IH]; simpl; [done | by rewrite IH]. Qed.

Lemma string_app_length (s1 s2 : string) :
  String.length (s1 ++ s2)%string = (String.length s1 + String.length s2)%nat.
Proof. induction s1 as [|c s1 IH]; simpl; [done | by rewrite IH]. Qed.

Lemma hex_of_length (fuel : nat) :
  forall (v : Z) (w : nat),
    (1 <= w)%nat -> 0 <= v < 16 ^ Z.of_nat w ->
    (1 <= String.length (hex_of fuel v) <= w)%nat.
Proof.
  induction fuel as [|fuel IH]; intros v w Hw Hv; simpl; [lia|].
  destruct (v <? 16) eqn:Hlt; simpl; [lia|].
  apply Z.ltb_ge in Hlt. rewrite string_app_length. simpl.
  destruct w as [|[|w]]; [lia | simpl in Hv; lia |].
  destruct (IH (v / 16) (S w)) as [H1 H2]; [lia | | lia].
  rewrite (Nat2Z.inj_succ (S w)), Z.pow_succ_r in Hv by lia.
  split; [apply Z.div_pos; lia | apply Z.div_lt_upper_bound; lia].
Qed.

(** A value below [16^w] is written with exactly [w] digits. *)
Lemma format_hex_length (v : Z) (w : nat) :
  (1 <= w)%nat -> 0 <= v < 16 ^ Z.of_nat w ->
  String.length (format_hex v w) = w.
Proof.
  intros Hw Hv. unfold format_hex.
  replace (v <? 0) with false by (symmetry; apply Z.ltb_ge; lia).
  rewrite string_app_length, zeros_length.
  pose proof (hex_of_length (Z.to_nat (Z.log2 v)) v w Hw Hv). unfold hex. lia.
Qed.

Lemma even_square_bits (n : nat) :
  Nat.Even n -> 2 ^ Z.of_nat (n * n) = 16 ^ Z.of_nat (n ^ 2 / 4).
Proof.
  intros [k ->].
  replace (2 * k * (2 * k))%nat with (4 * (k * k))%nat by lia.
  replace ((2 * k) ^ 2 / 4)%nat with (k * k)%nat.
  - rewrite Nat2Z.inj_mul, Z.pow_mul_r by lia. done.
  - replace ((2 * k) ^ 2)%nat with ((k * k) * 4)%nat by (simpl; lia).
    by rewrite Nat.div_mul.
Qed.

Lemma even_square_quarter (n : nat) :
  Nat.Even n -> (2 <= n)%nat -> (1 <= n ^ 2 / 4)%nat.
Proof.
  intros [k ->] Hn.
  replace ((2 * k) ^ 2)%nat with ((k * k) * 4)%nat by (simpl; lia).
  rewrite Nat.div_mul by lia. nia.
Qed.

(** The difference hash of a well-formed image at an even reduction
    size is [n * n / 4] hexadecimal digits. *)
Lemma calculate_dhash_width (image : Image) (n : nat) :
  wf_image image -> Nat.Even n -> (2 <= n)%nat ->
  exists h, calculate_dhash image n = Ok h /\
            String.length h = (n ^ 2 / 4)%nat.
Proof.
  intros Hwf Heven Hn. unfold calculate_dhash. cbv zeta.
  destruct (Hwf (n + 1)%nat n) as [Hlen _].
  set (pixels := image (n + 1)%nat n) in *.
  destruct (for_each_range_inv
              (fun row (diff : list bool) => length diff = (row * n)%nat)
              (fun diff row =>
                 for_each (range n) (fun diff col =>
                   a ← getitem pixels (row * (n + 1) + col)%nat;
                   b ← getitem pixels (row * (n + 1) + col + 1)%nat;
                   Ok (diff ++ [b <? a]))
                 diff)
              n []) as (diff & Hrun & Hdiff).
  - done.
  - intros row diff0 Hrow Hdiff0.
    destruct (for_each_range_inv
                (fun col (diff : list bool) =>
                   length diff = (row * n + col)%nat)
                (fun diff col =>
                   a ← getitem pixels (row * (n + 1) + col)%nat;
                   b ← getitem pixels (row * (n + 1) + col + 1)%nat;
                   Ok (diff ++ [b <? a]))
                n diff0) as (diff1 & Hrun1 & Hdiff1).
    + lia.
    + intros col diff2 Hcol Hdiff2. unfold getitem.
      destruct (lookup_lt_is_Some_2 pixels (row * (n + 1) + col)) as [a ->];
        [nia|].
      destruct (lookup_lt_is_Some_2 pixels (row * (n + 1) + col + 1))
        as [b ->]; [nia|].
      eexists. split; [done|]. rewrite length_app. simpl. lia.
    + exists diff1. split; [done | lia].
  - rewrite Hrun. eexists. split; [done|].
    apply format_hex_length.
    + by apply even_square_quarter.
    + rewrite <- (even_square_bits n Heven), <- Hdiff. apply pack_bits_bound.
Qed.

(** So is the average hash. *)
Lemma calculate_average_hash_width (image : Image) (n : nat) :
  wf_image image -> Nat.Even n -> (2 <= n)%nat ->
  exists h, calculate_average_hash image n = Ok h /\
            String.length h = (n ^ 2 / 4)%nat.
Proof.
  intros Hwf Heven Hn. unfold calculate_average_hash. cbv zeta.
  destruct (Hwf n n) as [Hlen _]. rewrite Hlen.
  destruct (Z.of_nat (n * n)) as [|d|d] eqn:Hd; [nia | | lia].
  cbn [true_divide]. rewrite res_bind_Ok. eexists. split; [done|].
  apply format_hex_length.
  - by apply even_square_quarter.
  - match goal with
    | |- context [pack_bits ?bits] => pose proof (pack_bits_bound bits) as Hb
    end.
    rewrite length_map, Hlen in Hb. by rewrite <- (even_square_bits n Heven).
Qed.

(** ** C8 and C9: the perceptual hash *)

(** C8 (the code at failing inputs).  At the default reduction size 8
    the bits of [spot] are 1, then 62 zeros, then 1; packed most
    significant bit first they are [8000000000000001], and the code
    returns the signed text of the wrapped [int64] instead.  At size 10
    the first 36 of the 100 bits are shifted out of the accumulator. *)
Theorem phash_packing_wraps_at_64_bits :
  spec_phash spot 8 = "8000000000000001" /\
  calculate_phash spot 8 = Ok "-7fffffffffffffff" /\
  spec_phash flat 10 = "fffffffffffffffffffffffff" /\
  calculate_phash flat 10 = Ok "-000000000000000000000001".
Proof. by vm_compute. Qed.

(** C9 (the code at a failing input).  The perceptual hash of a uniform
    image at reduction size 8 is a sign and 15 hexadecimal digits, and
    that of [spot] has 17 characters; the average hash and the
    difference hash return 16 digits. *)
Theorem phash_fingerprint_is_signed :
  calculate_phash flat 8 = Ok "-000000000000001" /\
  calculate_phash spot 8 = Ok "-7fffffffffffffff" /\
  String.length "-7fffffffffffffff" = 17%nat /\
  calculate_average_hash flat 8 = Ok "ffffffffffffffff" /\
  calculate_dhash ramp 8 = Ok "ffffffffffffffff".
Proof. by vm_compute. Qed.

(** A consequence for the pipeline: the perceptual hashes of [flat] (64
    one bits) and [corner] (63 zero bits and a one) differ in 63
    positions, yet their [hamming_distance] is 1 and threshold 5 groups
    the two images; with the average hash, which yields the same bits,
    they are not grouped. *)
Lemma phash_sign_breaks_distance :
  spec_phash flat 8 = "ffffffffffffffff" /\
  spec_phash corner 8 = "0000000000000001" /\
  hamming_distance "ffffffffffffffff" "0000000000000001" = Ok 63 /\
  calculate_phash flat 8 = Ok "-000000000000001" /\
  calculate_phash corner 8 = Ok "0000000000000001" /\
  hamming_distance "-000000000000001" "0000000000000001" = Ok 1 /\
  find_duplicate_images [("flat.png", flat); ("corner.png", corner)] 5 "phash"
  = Ok [["flat.png"; "corner.png"]] /\
  find_duplicate_images [("flat.png", flat); ("corner.png", corner)] 5 "ahash"
  = Ok [].
Proof. by vm_compute. Qed.

(** * Further properties *)

(** ** The distance *)

Lemma bin_count_ones_nonneg (x : Z) : 0 <= bin_count_ones x.
Proof.
  assert (forall p, 0 < ones p) as Hp.
  { induction p; simpl; lia. }
  destruct x as [|p|p]; simpl; [lia | |]; pose proof (Hp p); lia.
Qed.

Lemma bin_count_ones_zero (x : Z) : bin_count_ones x = 0 <-> x = 0.
Proof.
  assert (forall p, 0 < ones p) as Hp.
  { induction p; simpl; lia. }
  destruct x as [|p|p]; simpl; split; try done; pose proof (Hp p); lia.
Qed.

Lemma bit_differences_range (n : nat) (a b : Z) :
  0 <= bit_differences n a b <= Z.of_nat n.
Proof.
  unfold bit_differences.
  enough (forall l : list nat,
            0 <= foldr (fun k acc =>
                          Z.b2z (xorb (Z.testbit a (Z.of_nat k))
                                      (Z.testbit b (Z.of_nat k))) + acc) 0 l
            <= Z.of_nat (length l)) as H.
  { specialize (H (seq 0 n)). by rewrite length_seq in H. }
  induction l as [|k l IH]; cbn [foldr length]; [lia|].
  destruct (xorb _ _); simpl Z.b2z; lia.
Qed.

(** X1.  The distance is symmetric: the two orders of the arguments
    return the same count, or raise the same exception. *)
Theorem distance_is_symmetric (hash1 hash2 : string) :
  hamming_distance hash1 hash2 = hamming_distance hash2 hash1.
Proof. apply hamming_distance_sym. Qed.

(** X2.  On two strings that [int(_, 16)] reads, the distance is 0
    exactly when they denote the same number (signed fingerprints
    included); in particular the distance of a fingerprint to itself is
    0. *)
Theorem distance_zero_iff_same_value (hash1 hash2 : string) (v1 v2 : Z) :
  int16 hash1 = Ok v1 -> int16 hash2 = Ok v2 ->
  (hamming_distance hash1 hash2 = Ok 0 <-> v1 = v2) /\
  hamming_distance hash1 hash1 = Ok 0.
Proof.
  intros H1 H2. unfold hamming_distance. rewrite H1, H2. simpl. split.
  - split.
    + intros [= H]. apply (proj1 (bin_count_ones_zero _)) in H.
      by apply Z.lxor_eq.
    + intros ->. by rewrite Z.lxor_nilpotent.
  - by rewrite Z.lxor_nilpotent.
Qed.

Lemma distance_zero_iff_same_value_witness :
  (hamming_distance "00ff" "ff" = Ok 0 <-> 255 = 255) /\
  hamming_distance "00ff" "00ff" = Ok 0.
Proof.
  apply (distance_zero_iff_same_value "00ff" "ff" 255 255); reflexivity.
Defined.

(** X3.  On two unsigned fingerprints of [w >= 1] hexadecimal digits the
    distance is computed and lies between 0 and the bit width [4 * w]. *)
Theorem distance_is_bounded (w : nat) (hash1 hash2 : string) :
  (1 <= w)%nat -> hex_word w hash1 -> hex_word w hash2 ->
  exists d, hamming_distance hash1 hash2 = Ok d /\ 0 <= d <= 4 * Z.of_nat w.
Proof.
  intros Hw H1 H2.
  destruct (hex_word_value w hash1 Hw H1) as (v1 & Hv1 & Hr1).
  destruct (hex_word_value w hash2 Hw H2) as (v2 & Hv2 & Hr2).
  unfold hamming_distance. rewrite Hv1, Hv2. simpl. eexists. split; [done|].
  rewrite (bin_count_ones_lxor (4 * w)) by done.
  pose proof (bit_differences_range (4 * w) v1 v2). lia.
Qed.

Lemma distance_is_bounded_witness :
  exists d, hamming_distance "0f0f" "ffff" = Ok d /\ 0 <= d <= 4 * Z.of_nat 4.
Proof.
  apply (distance_is_bounded 4 "0f0f" "ffff").
  - lia.
  - split; [reflexivity | by eexists].
  - split; [reflexivity | by eexists].
Defined.

(** X4.  On unsigned fingerprints, of any widths, the distance obeys the
    triangle inequality. *)
Theorem distance_triangle_unsigned (w1 w2 w3 : nat)
    (hash1 hash2 hash3 : string) :
  (1 <= w1)%nat -> (1 <= w2)%nat -> (1 <= w3)%nat ->
  hex_word w1 hash1 -> hex_word w2 hash2 -> hex_word w3 hash3 ->
  exists d12 d23 d13,
    hamming_distance hash1 hash2 = Ok d12 /\
    hamming_distance hash2 hash3 = Ok d23 /\
    hamming_distance hash1 hash3 = Ok d13 /\
    d13 <= d12 + d23.
Proof.
  intros Hw1 Hw2 Hw3 H1 H2 H3.
  destruct (hex_word_value w1 hash1 Hw1 H1) as (v1 & Hv1 & Hr1).
  destruct (hex_word_value w2 hash2 Hw2 H2) as (v2 & Hv2 & Hr2).
  destruct (hex_word_value w3 hash3 Hw3 H3) as (v3 & Hv3 & Hr3).
  destruct (hamming_distance_total hash1 hash2) as [d12 H12];
    [by exists v1 | by exists v2 |].
  destruct (hamming_distance_total hash2 hash3) as [d23 H23];
    [by exists v2 | by exists v3 |].
  destruct (hamming_distance_total hash1 hash3) as [d13 H13];
    [by exists v1 | by exists v3 |].
  exists d12, d23, d13. repeat split; try done.
  eapply (unsigned_chain_bound hash1 hash2 hash3 v1 v2 v3); try done; lia.
Qed.

Lemma distance_triangle_unsigned_witness :
  exists d12 d23 d13,
    hamming_distance "0" "07" = Ok d12 /\
    hamming_distance "07" "03f" = Ok d23 /\
    hamming_distance "0" "03f" = Ok d13 /\
    d13 <= d12 + d23.
Proof.
  apply (distance_triangle_unsigned 1 2 3 "0" "07" "03f"); try lia;
    (split; [reflexivity | by eexists]).
Defined.

(** X5.  Round trip of the fingerprint text: what [format(v, '0{w}x')]
    writes, [int(_, 16)] reads back as [v], for every integer [v]
    (negative ones too) and every width; so two values written at any
    widths have the same text only if they are equal. *)
Theorem fingerprint_round_trip (v v' : Z) (w w' : nat) :
  int16 (format_hex v w) = Ok v /\
  (format_hex v w = format_hex v' w' -> v = v').
Proof.
  split; [apply int16_format_hex|].
  intros H. pose proof (int16_format_hex v w) as H1.
  rewrite H, int16_format_hex in H1. by simplify_eq.
Qed.


(** ** The bits of a fingerprint *)

Lemma pack_bits_snoc (bits : list bool) (b : bool) :
  pack_bits (bits ++ [b]) = 2 * pack_bits bits + Z.b2z b.
Proof.
  unfold pack_bits. rewrite fold_left_app. cbn [fold_left].
  rewrite Z.shiftl_mul_pow2 by lia. change (2 ^ 1) with 2.
  by rewrite (Z.mul_comm _ 2), lor_double_bit.
Qed.

(** Bit [length bits - 1 - k] of the packed value is the [k]-th bit
    packed: the first bit is the most significant. *)
Lemma pack_bits_testbit (bits : list bool) :
  forall k, (k < length bits)%nat ->
    Z.testbit (pack_bits bits) (Z.of_nat (length bits - 1 - k))
    = nth k bits false.
Proof.
  induction bits as [|b bits IH] using rev_ind; intros k Hk;
    [simpl in Hk; lia|].
  rewrite length_app in *. cbn [length] in *. rewrite pack_bits_snoc.
  destruct (decide (k = length bits)) as [-> | Hne].
  - replace (length bits + 1 - 1 - length bits)%nat with 0%nat by lia.
    rewrite Z.testbit_0_r.
    by rewrite app_nth2, Nat.sub_diag by lia.
  - replace (Z.of_nat (length bits + 1 - 1 - k))
      with (Z.succ (Z.of_nat (length bits - 1 - k))) by lia.
    rewrite Z.testbit_succ_r by lia.
    rewrite IH by lia. by rewrite app_nth1 by lia.
Qed.

Lemma Qle_bool_cross (a p : Z) (d : positive) :
  Qle_bool (a # d) (inject_Z p) = (a <=? p * Z.pos d).
Proof.
  unfold Qle_bool, inject_Z. simpl. by rewrite Z.mul_1_r.
Qed.

Lemma nth_map_seq {A : Type} (f : nat -> A) (n k : nat) (x : A) :
  (k < n)%nat -> nth k (map f (seq 0 n)) x = f k.
Proof.
  intros Hk. rewrite (nth_indep _ x (f 0%nat)) by (by rewrite length_map, length_seq).
  rewrite (map_nth f (seq 0 n) 0%nat k). by rewrite seq_nth.
Qed.

Lemma div_mod_row_col (n row col : nat) :
  (col < n)%nat ->
  ((row * n + col) / n = row)%nat /\ ((row * n + col) mod n = col)%nat.
Proof.
  intros Hcol. split; symmetry.
  - apply (Nat.div_unique _ n row col); lia.
  - apply (Nat.mod_unique _ n row col); lia.
Qed.

(** The two loops of [calculate_dhash] compute [dhash_bits]. *)
Lemma dhash_loop (pixels : list Z) (n : nat) :
  length pixels = ((n + 1) * n)%nat ->
  for_each (range n) (fun diff row =>
     for_each (range n) (fun diff col =>
        a ← getitem pixels (row * (n + 1) + col)%nat;
        b ← getitem pixels (row * (n + 1) + col + 1)%nat;
        Ok (diff ++ [b <? a]))
     diff)
  [] = Ok (dhash_bits pixels n).
Proof.
  intros Hlen.
  set (bit := fun k => dhash_bit pixels n (k / n) (k mod n)).
  destruct (for_each_range_inv
              (fun row (diff : list bool) => diff = map bit (seq 0 (row * n)))
              (fun diff row =>
                 for_each (range n) (fun diff col =>
                   a ← getitem pixels (row * (n + 1) + col)%nat;
                   b ← getitem pixels (row * (n + 1) + col + 1)%nat;
                   Ok (diff ++ [b <? a]))
                 diff)
              n []) as (diff & Hrun & ->); [done | | by rewrite Hrun].
  intros row diff0 Hrow ->.
  destruct (for_each_range_inv
              (fun col (diff : list bool) =>
                 diff = map bit (seq 0 (row * n + col)))
              (fun diff col =>
                 a ← getitem pixels (row * (n + 1) + col)%nat;
                 b ← getitem pixels (row * (n + 1) + col + 1)%nat;
                 Ok (diff ++ [b <? a]))
              n (map bit (seq 0 (row * n)))) as (diff1 & Hrun1 & ->).
  - by rewrite Nat.add_0_r.
  - intros col diff2 Hcol ->. unfold getitem.
    destruct (lookup_lt_is_Some_2 pixels (row * (n + 1) + col)) as [a Ha];
      [nia|].
    destruct (lookup_lt_is_Some_2 pixels (row * (n + 1) + col + 1))
      as [b Hb]; [nia|].
    rewrite Ha, Hb. eexists. split; [done|].
    replace (row * n + S col)%nat with (S (row * n + col)) by lia.
    rewrite seq_S, map_app. simpl. f_equal. f_equal.
    unfold bit, dhash_bit.
    destruct (div_mod_row_col n row col Hcol) as [-> ->].
    by rewrite (nth_lookup_Some _ _ 0 _ Ha), (nth_lookup_Some _ _ 0 _ Hb).
  - exists (map bit (seq 0 (row * n + n))). split; [done|].
    by replace (S row * n)%nat with (row * n + n)%nat by lia.
Qed.

Lemma calculate_dhash_bits (image : Image) (n : nat) :
  length (image (n + 1)%nat n) = ((n + 1) * n)%nat ->
  calculate_dhash image n
  = Ok (format_hex (pack_bits (dhash_bits (image (n + 1)%nat n) n))
                   (n ^ 2 / 4)%nat).
Proof.
  intros Hlen. unfold calculate_dhash. cbv zeta.
  by rewrite (dhash_loop _ n Hlen).
Qed.

(** X7.  For a reduction size [n >= 1], the difference hash of an
    [n + 1] by [n] grid returns a fingerprint whose value is below
    [2^(n*n)] and whose bit for row [row] and column [col], counted
    row-major from the most significant bit, is 1 exactly when the pixel
    is strictly greater than its right neighbour. *)
Theorem dhash_bits_are_comparisons (image : Image) (n : nat) :
  (1 <= n)%nat ->
  length (image (n + 1)%nat n) = ((n + 1) * n)%nat ->
  exists h v,
    calculate_dhash image n = Ok h /\ int16 h = Ok v /\
    0 <= v < 2 ^ Z.of_nat (n * n) /\
    forall row col, (row < n)%nat -> (col < n)%nat ->
      Z.testbit v (Z.of_nat (n * n - 1 - (row * n + col)))
      = (nth (row * (n + 1) + col + 1) (image (n + 1)%nat n) 0
         <? nth (row * (n + 1) + col) (image (n + 1)%nat n) 0).
Proof.
  intros _ Hlen. rewrite (calculate_dhash_bits image n Hlen).
  set (bits := dhash_bits (image (n + 1)%nat n) n).
  assert (length bits = (n * n)%nat) as Hbits.
  { unfold bits, dhash_bits. by rewrite length_map, length_seq. }
  exists (format_hex (pack_bits bits) (n ^ 2 / 4)%nat), (pack_bits bits).
  split; [done|]. split; [apply int16_format_hex|]. split.
  - rewrite <- Hbits. apply pack_bits_bound.
  - intros row col Hrow Hcol. rewrite <- Hbits at 1.
    rewrite pack_bits_testbit by (rewrite Hbits; nia).
    unfold bits, dhash_bits. rewrite nth_map_seq by nia.
    unfold dhash_bit.
    by destruct (div_mod_row_col n row col Hcol) as [-> ->].
Qed.

Lemma dhash_bits_are_comparisons_witness :
  exists h v,
    calculate_dhash ramp 2 = Ok h /\ int16 h = Ok v /\
    0 <= v < 2 ^ Z.of_nat (2 * 2) /\
    forall row col, (row < 2)%nat -> (col < 2)%nat ->
      Z.testbit v (Z.of_nat (2 * 2 - 1 - (row * 2 + col)))
      = (nth (row * (2 + 1) + col + 1) (ramp (2 + 1)%nat 2%nat) 0
         <? nth (row * (2 + 1) + col) (ramp (2 + 1)%nat 2%nat) 0).
Proof. apply (dhash_bits_are_comparisons ramp 2); [lia | reflexivity]. Defined.

Lemma calculate_average_hash_bits (image : Image) (n : nat) :
  image n n <> [] ->
  calculate_average_hash image n
  = Ok (format_hex (pack_bits (ahash_bits (image n n))) (n ^ 2 / 4)%nat).
Proof.
  unfold calculate_average_hash. cbv zeta.
  set (pixels := image n n). intros Hne.
  destruct (Z.of_nat (length pixels)) as [|d|d] eqn:Hd;
    [destruct pixels; [done | simpl in Hd; lia] | | lia].
  cbn [true_divide]. rewrite res_bind_Ok. do 3 f_equal.
  unfold ahash_bits. apply map_ext. intros p.
  by rewrite Qle_bool_cross, Hd.
Qed.

(** X8.  For a reduction size [n >= 1], the average hash of a
    non-empty pixel list returns a fingerprint whose value is below
    [2^len] and whose [k]-th bit from the most significant is 1 exactly
    when [len] times the [k]-th pixel is at least the sum of all pixels
    (the pixel is at least the mean). *)
Theorem ahash_bits_are_mean_tests (image : Image) (n : nat) :
  (1 <= n)%nat ->
  image n n <> [] ->
  exists h v,
    calculate_average_hash image n = Ok h /\ int16 h = Ok v /\
    0 <= v < 2 ^ Z.of_nat (length (image n n)) /\
    forall k, (k < length (image n n))%nat ->
      Z.testbit v (Z.of_nat (length (image n n) - 1 - k))
      = (foldr Z.add 0 (image n n)
         <=? nth k (image n n) 0 * Z.of_nat (length (image n n))).
Proof.
  intros _ Hne. rewrite (calculate_average_hash_bits image n Hne).
  set (pixels := image n n).
  assert (length (ahash_bits pixels) = length pixels) as Hbits
    by apply length_map.
  eexists _, (pack_bits (ahash_bits pixels)).
  split; [done|]. split; [apply int16_format_hex|]. split.
  - rewrite <- Hbits. apply pack_bits_bound.
  - intros k Hk. rewrite <- Hbits at 1.
    rewrite pack_bits_testbit by lia. unfold ahash_bits.
    rewrite (nth_indep _ false
               (foldr Z.add 0 pixels <=? 0 * Z.of_nat (length pixels)))
      by (rewrite length_map; lia).
    by rewrite (map_nth (fun pixel => foldr Z.add 0 pixels
                           <=? pixel * Z.of_nat (length pixels))).
Qed.

Lemma ahash_bits_are_mean_tests_witness :
  exists h v,
    calculate_average_hash corner 2 = Ok h /\ int16 h = Ok v /\
    0 <= v < 2 ^ Z.of_nat (length (corner 2%nat 2%nat)) /\
    forall k, (k < length (corner 2%nat 2%nat))%nat ->
      Z.testbit v (Z.of_nat (length (corner 2%nat 2%nat) - 1 - k))
      = (foldr Z.add 0 (corner 2%nat 2%nat)
         <=? nth k (corner 2%nat 2%nat) 0
             * Z.of_nat (length (corner 2%nat 2%nat))).
Proof.
  apply (ahash_bits_are_mean_tests corner 2); [lia | discriminate].
Defined.

Lemma spec_phash_bits_cross (pixels : list Z) (k : nat) :
  (2 <= length pixels)%nat -> (k < length pixels)%nat ->
  nth k (spec_phash_bits pixels) false
  = (foldr Z.add 0 pixels - hd 0 pixels
     <=? nth k pixels 0 * (Z.of_nat (length pixels) - 1)).
Proof.
  intros Hlen Hk. unfold spec_phash_bits, spec_phash_mean.
  rewrite (nth_indep _ false
             (Qle_bool (foldr Z.add 0 pixels - hd 0 pixels
                        # Z.to_pos (Z.of_nat (length pixels) - 1))
                       (inject_Z 0)))
    by (rewrite length_map; lia).
  rewrite (map_nth (fun v => Qle_bool
                               (foldr Z.add 0 pixels - hd 0 pixels
                                # Z.to_pos (Z.of_nat (length pixels) - 1))
                               (inject_Z v))).
  rewrite Qle_bool_cross. by rewrite Z2Pos.id by lia.
Qed.

(** X9.  For a grid of [n * n] grey levels, [n >= 2], the perceptual
    hash of the code returns a fingerprint that reads back as
    [wrap_int64 V], where [V] is below [2^(n*n)] and its [k]-th bit from
    the most significant (row-major) is 1 exactly when the cell is at
    least the mean of all cells but the top-left one; up to 63 bits
    nothing wraps and the fingerprint reads back as [V] itself. *)
Theorem phash_is_wrapped_packing (image : Image) (n : nat) :
  (2 <= n)%nat ->
  length (image n n) = (n * n)%nat ->
  exists h V,
    calculate_phash image n = Ok h /\ int16 h = Ok (wrap_int64 V) /\
    0 <= V < 2 ^ Z.of_nat (n * n) /\
    (forall k, (k < n * n)%nat ->
       Z.testbit V (Z.of_nat (n * n - 1 - k))
       = (foldr Z.add 0 (image n n) - hd 0 (image n n)
          <=? nth k (image n n) 0 * (Z.of_nat (n * n) - 1))) /\
    ((n * n <= 63)%nat -> wrap_int64 V = V).
Proof.
  intros Hn Hlen. rewrite (calculate_phash_int64 image n Hn Hlen).
  set (bits := spec_phash_bits (image n n)).
  assert (length bits = (n * n)%nat) as Hbits.
  { unfold bits, spec_phash_bits. by rewrite length_map. }
  pose proof (pack_bits_bound bits) as Hbound. rewrite Hbits in Hbound.
  eexists _, (pack_bits bits).
  split; [done|]. split; [apply int16_format_hex|]. split; [done|]. split.
  - intros k Hk. rewrite <- Hbits at 1.
    rewrite pack_bits_testbit by lia. unfold bits.
    rewrite spec_phash_bits_cross by (rewrite Hlen; nia).
    by rewrite Hlen.
  - intros Hsmall. apply wrap_int64_small.
    assert (2 ^ Z.of_nat (n * n) <= 2 ^ 63) by (apply Z.pow_le_mono_r; lia).
    lia.
Qed.

Lemma phash_is_wrapped_packing_witness :
  exists h V,
    calculate_phash spot 8 = Ok h /\ int16 h = Ok (wrap_int64 V) /\
    0 <= V < 2 ^ Z.of_nat (8 * 8) /\
    (forall k, (k < 8 * 8)%nat ->
       Z.testbit V (Z.of_nat (8 * 8 - 1 - k))
       = (foldr Z.add 0 (spot 8%nat 8%nat) - hd 0 (spot 8%nat 8%nat)
          <=? nth k (spot 8%nat 8%nat) 0 * (Z.of_nat (8 * 8) - 1))) /\
    ((8 * 8 <= 63)%nat -> wrap_int64 V = V).
Proof.
  apply (phash_is_wrapped_packing spot 8); [lia | reflexivity].
Defined.

Lemma wrap_int64_negative (V : Z) :
  0 <= V < 2 ^ 64 -> (wrap_int64 V < 0 <-> Z.testbit V 63 = true).
Proof.
  intros HV. unfold wrap_int64.
  rewrite Z.testbit_true by lia.
  destruct (decide (V < 2 ^ 63)) as [Hlt | Hge].
  - rewrite Z.mod_small by lia. rewrite Z.div_small by lia.
    simpl. split; [lia | done].
  - replace ((V + 2 ^ 63) mod 2 ^ 64) with (V - 2 ^ 63).
    + replace (V / 2 ^ 63) with 1; [simpl; split; [done | lia]|].
      apply (Z.div_unique _ _ 1 (V - 2 ^ 63)); lia.
    + apply (Z.mod_unique _ _ 1 (V - 2 ^ 63)); lia.
Qed.

(** X10.  At the default reduction size 8, the perceptual hash is a
    negative number, written with a leading minus sign, exactly when the
    top-left cell is at least the mean of the 63 other cells. *)
Theorem phash_sign_is_top_left_bit (image : Image) :
  length (image 8%nat 8%nat) = 64%nat ->
  exists h v,
    calculate_phash image 8 = Ok h /\ int16 h = Ok v /\
    (v < 0 <->
     foldr Z.add 0 (image 8%nat 8%nat) - hd 0 (image 8%nat 8%nat)
     <= 63 * hd 0 (image 8%nat 8%nat)) /\
    (v < 0 <-> exists digits, h = String "-"%char digits).
Proof.
  intros Hlen.
  rewrite (calculate_phash_int64 image 8) by (done || lia).
  set (bits := spec_phash_bits (image 8%nat 8%nat)).
  assert (length bits = 64%nat) as Hbits.
  { unfold bits, spec_phash_bits. by rewrite length_map. }
  pose proof (pack_bits_bound bits) as Hbound. rewrite Hbits in Hbound.
  eexists _, (wrap_int64 (pack_bits bits)).
  split; [done|]. split; [apply int16_format_hex|]. split.
  - rewrite wrap_int64_negative by done.
    pose proof (pack_bits_testbit bits 0) as Hbit. rewrite Hbits in Hbit.
    change (Z.of_nat (64 - 1 - 0)) with 63 in Hbit. rewrite Hbit by lia.
    unfold bits. rewrite spec_phash_bits_cross by (rewrite Hlen; lia).
    rewrite Hlen. destruct (image 8%nat 8%nat) as [|p0 rest]; [done|].
    cbn [nth hd]. rewrite Z.leb_le. change (Z.of_nat 64 - 1) with 63. lia.
  - unfold format_hex. destruct (wrap_int64 (pack_bits bits) <? 0) eqn:Hneg.
    + apply Z.ltb_lt in Hneg. split; [by eexists | done].
    + apply Z.ltb_ge in Hneg. split; [lia|]. intros [digits Hd].
      set (d := hex (wrap_int64 (pack_bits bits))) in *.
      assert (hex_magnitude (zeros (16 - String.length d) ++ d)%string
              = Ok (wrap_int64 (pack_bits bits))) as Hm.
      { apply hex_magnitude_padded. lia. }
      change (8 ^ 2 / 4)%nat with 16%nat in Hd. rewrite Hd in Hm.
      unfold hex_magnitude in Hm. simpl in Hm. done.
Qed.

Lemma phash_sign_is_top_left_bit_witness :
  exists h v,
    calculate_phash flat 8 = Ok h /\ int16 h = Ok v /\
    (v < 0 <->
     foldr Z.add 0 (flat 8%nat 8%nat) - hd 0 (flat 8%nat 8%nat)
     <= 63 * hd 0 (flat 8%nat 8%nat)) /\
    (v < 0 <-> exists digits, h = String "-"%char digits).
Proof. apply (phash_sign_is_top_left_bit flat). reflexivity. Defined.

(** ** Brightness and contrast *)

Lemma for_each_ext {St A : Type} (l : list A) (body1 body2 : St -> A -> res St) :
  (forall s x, body1 s x = body2 s x) ->
  forall s, for_each l body1 s = for_each l body2 s.
Proof.
  intros Hext. induction l as [|x l IH]; intros s; simpl; [done|].
  rewrite Hext. destruct (body2 s x); simpl; [apply IH | done].
Qed.

Lemma getitem_map {A B : Type} (f : A -> B) (l : list A) (k : nat) :
  getitem (map f l) k = x ← getitem l k; Ok (f x).
Proof.
  unfold getitem. change (map f l) with (f <$> l).
  rewrite list_lookup_fmap. by destruct (l !! k).
Qed.

Lemma sum_adjust (gain offset : Z) (l : list Z) :
  foldr Z.add 0 (map (fun p => gain * p + offset) l)
  = gain * foldr Z.add 0 l + offset * Z.of_nat (length l).
Proof. induction l as [|p l IH]; simpl foldr; cbn [length map]; [lia|].
  simpl. rewrite IH. lia.
Qed.

(** X11.  The difference hash does not depend on brightness and
    contrast: it is unchanged when every grey level [p] is replaced by
    [gain * p + offset] with a positive gain (pixel lists of a wrong
    length raise the same exception). *)
Theorem dhash_ignores_brightness (gain offset : Z) (image : Image) (n : nat) :
  0 < gain ->
  calculate_dhash (adjust gain offset image) n = calculate_dhash image n.
Proof.
  intros Hgain. unfold calculate_dhash, adjust. cbv zeta.
  set (pixels := image (n + 1)%nat n).
  f_equal. apply for_each_ext. intros diff row.
  apply for_each_ext. intros diff' col.
  rewrite !getitem_map.
  destruct (getitem pixels (row * (n + 1) + col)) as [a|]; simpl; [|done].
  destruct (getitem pixels (row * (n + 1) + col + 1)) as [b|]; simpl; [|done].
  do 3 f_equal. destruct (b <? a) eqn:Hlt.
  - apply Z.ltb_lt in Hlt. apply Z.ltb_lt. nia.
  - apply Z.ltb_ge in Hlt. apply Z.ltb_ge. nia.
Qed.

Lemma dhash_ignores_brightness_witness :
  calculate_dhash (adjust 2 (-100) ramp) 8 = calculate_dhash ramp 8.
Proof. apply dhash_ignores_brightness. lia. Defined.

(** X12.  The average hash is unchanged too when every grey level [p] is
    replaced by [gain * p + offset] with a positive gain. *)
Theorem ahash_ignores_brightness (gain offset : Z) (image : Image) (n : nat) :
  0 < gain ->
  calculate_average_hash (adjust gain offset image) n
  = calculate_average_hash image n.
Proof.
  intros Hgain.
  destruct (image n n) as [|p0 rest] eqn:Himg.
  - unfold calculate_average_hash, adjust. cbv zeta. by rewrite Himg.
  - rewrite !calculate_average_hash_bits
      by (unfold adjust; rewrite ?Himg; done).
    do 3 f_equal. unfold adjust. rewrite Himg.
    set (pixels := p0 :: rest). unfold ahash_bits.
    rewrite map_map, sum_adjust, length_map. apply map_ext. intros p.
    assert (0 < Z.of_nat (length pixels)) by (unfold pixels; simpl; lia).
    destruct (foldr Z.add 0 pixels <=? p * Z.of_nat (length pixels)) eqn:Hle.
    + apply Z.leb_le in Hle. apply Z.leb_le. nia.
    + apply Z.leb_gt in Hle. apply Z.leb_gt. nia.
Qed.

Lemma ahash_ignores_brightness_witness :
  calculate_average_hash (adjust 3 7 corner) 8
  = calculate_average_hash corner 8.
Proof. apply ahash_ignores_brightness. lia. Defined.

(** Some pixel is at least the mean. *)
Lemma sum_below (m S : Z) (l : list Z) :
  Forall (fun p => p * m + 1 <= S) l ->
  foldr Z.add 0 l * m + Z.of_nat (length l) <= Z.of_nat (length l) * S.
Proof.
  induction 1 as [|p l Hp _ IH]; cbn [foldr length]; [lia|]. lia.
Qed.

Lemma exists_above_mean (l : list Z) :
  l <> [] ->
  exists k, (k < length l)%nat /\
            foldr Z.add 0 l <= nth k l 0 * Z.of_nat (length l).
Proof.
  intros Hne.
  destruct (decide (Forall (fun p => p * Z.of_nat (length l) + 1
                                     <= foldr Z.add 0 l) l)) as [Hall | Hex].
  - apply sum_below in Hall. destruct l; [done|]. cbn [length] in *. nia.
  - apply not_Forall_Exists in Hex; [|intros p; apply _].
    apply Exists_exists in Hex as (p & Hp & Hgt).
    apply list_elem_of_lookup in Hp as [k Hk]. exists k.
    split; [by eapply lookup_lt_Some|].
    rewrite (nth_lookup_Some _ _ 0 _ Hk). simpl in Hgt. lia.
Qed.

(** X13.  The average hash of a non-empty pixel list is never the
    all-zero fingerprint: the bit of some pixel (one that is at least
    the mean) is set, so the fingerprint reads back as a positive
    number. *)
Theorem ahash_is_never_zero (image : Image) (n : nat) :
  image n n <> [] ->
  exists h v, calculate_average_hash image n = Ok h /\ int16 h = Ok v /\ 0 < v.
Proof.
  intros Hne. rewrite (calculate_average_hash_bits image n Hne).
  set (pixels := image n n) in *.
  eexists _, _. split; [done|]. split; [apply int16_format_hex|].
  destruct (exists_above_mean pixels Hne) as (k & Hk & Hle).
  assert (length (ahash_bits pixels) = length pixels) as Hbits
    by apply length_map.
  pose proof (pack_bits_bound (ahash_bits pixels)) as [H0 _].
  pose proof (pack_bits_testbit (ahash_bits pixels) k) as Hbit.
  rewrite Hbits in Hbit. specialize (Hbit Hk).
  unfold ahash_bits in Hbit at 2.
  rewrite (nth_indep _ false
             (foldr Z.add 0 pixels <=? 0 * Z.of_nat (length pixels)))
    in Hbit by (rewrite length_map; lia).
  rewrite (map_nth (fun pixel => foldr Z.add 0 pixels
                        <=? pixel * Z.of_nat (length pixels))) in Hbit.
  apply Z.leb_le in Hle. rewrite Hle in Hbit.
  destruct (decide (pack_bits (ahash_bits pixels) = 0)) as [Hz | Hnz]; [|lia].
  rewrite Hz, Z.bits_0 in Hbit. done.
Qed.

Lemma ahash_is_never_zero_witness :
  exists h v, calculate_average_hash flat 8 = Ok h /\ int16 h = Ok v /\ 0 < v.
Proof. apply (ahash_is_never_zero flat 8). discriminate. Defined.

(** ** More on the grouping *)

(** X14.  No duplicate pair is missed entirely: when the fingerprints at
    two different positions are within the threshold, the path of at
    least one of them is in some group of the result. *)
Theorem close_pair_is_grouped (t : Z) (images : list (string * string))
    (groups : list (list string)) (i j : nat) (p h p' h' : string) :
  find_duplicate_groups t images = Ok groups ->
  i <> j ->
  images !! i = Some (p, h) -> images !! j = Some (p', h') ->
  close_to t h h' ->
  p ∈ concat groups \/ p' ∈ concat groups.
Proof.
  intros Hrun Hij Hi Hj Hclose.
  apply group_images_Ok in Hrun as [pr Hrun].
  apply loop_inv_final in Hrun as (Hpr & _ & Hfar). simpl in *.
  destruct (decide (p ∈ pr)) as [Hin | Hnin]; [left; by apply Hpr|].
  destruct (decide (p' ∈ pr)) as [Hin' | Hnin']; [right; by apply Hpr|].
  exfalso. apply (close_far_absurd t h h' Hclose).
  apply (Hfar i p h) with (j := j) (p' := p'); try done.
  - by eapply lookup_lt_Some.
  - by apply scan_all_true.
Qed.

Lemma close_pair_is_grouped_witness :
  "s.png" ∈ concat [["r.png"; "s.png"]] \/
  "x.png" ∈ concat [["r.png"; "s.png"]].
Proof.
  apply (close_pair_is_grouped 2 trio [["r.png"; "s.png"]] 1 2
           "s.png" "0000000000000003" "x.png" "0000000000000007").
  - reflexivity.
  - discriminate.
  - reflexivity.
  - reflexivity.
  - exists 1. split; [reflexivity | lia].
Defined.

(** X15.  With a negative threshold nothing is grouped: any result is
    empty, and on readable fingerprints the result is the empty list. *)
Theorem negative_threshold_groups_nothing (t : Z)
    (images : list (string * string)) :
  t < 0 ->
  (forall groups, find_duplicate_groups t images = Ok groups -> groups = []) /\
  (all_fingerprints images -> find_duplicate_groups t images = Ok []).
Proof.
  intros Ht.
  assert (forall groups, find_duplicate_groups t images = Ok groups ->
                         groups = []) as Hempty.
  { intros groups Hrun. apply group_images_Ok in Hrun as [pr Hrun].
    apply loop_inv_final in Hrun as (_ & Hok & _). simpl in Hok.
    destruct groups as [|g groups]; [done|]. exfalso.
    apply Forall_cons in Hok as [(i & p1 & h1 & ms & -> & Hne & _ & Hms) _].
    destruct ms as [|m ms]; [done|].
    destruct (Hms m) as (j & h2 & _ & _ & d & Hd & Hle); [by left|].
    unfold hamming_distance in Hd.
    destruct (int16 h1) as [x|]; [|done].
    destruct (int16 h2) as [y|]; [|done]. simpl in Hd. simplify_eq.
    pose proof (bin_count_ones_nonneg (Z.lxor x y)). lia. }
  split; [done|]. intros Hfp.
  destruct (group_images_total scan_all t images Hfp) as [groups Hrun].
  unfold find_duplicate_groups. rewrite Hrun. f_equal. by apply Hempty.
Qed.

Lemma negative_threshold_groups_nothing_witness :
  find_duplicate_groups (-1)
    [("a.png", "00ff"); ("b.png", "00ff"); ("c.png", "00ff")] = Ok [].
Proof.
  destruct (negative_threshold_groups_nothing (-1)
              [("a.png", "00ff"); ("b.png", "00ff"); ("c.png", "00ff")])
    as [_ H]; [lia|].
  apply H. apply all_fingerprints_check. reflexivity.
Defined.

Lemma concat_length_ge {A : Type} (gs : list (list A)) :
  Forall (fun g => (2 <= length g)%nat) gs ->
  (2 * length gs <= length (concat gs))%nat.
Proof.
  induction 1 as [|g gs Hg _ IH]; simpl; [lia|]. rewrite length_app. lia.
Qed.

(** X16.  With pairwise-distinct paths, the groups together hold at most
    as many paths as the input has images, and there are at most half as
    many groups as images. *)
Theorem grouped_paths_are_counted_once (t : Z)
    (images : list (string * string)) (groups : list (list string)) :
  NoDup images.*1 ->
  find_duplicate_groups t images = Ok groups ->
  (length (concat groups) <= length images)%nat /\
  (2 * length groups <= length images)%nat.
Proof.
  intros Hdistinct Hrun. apply group_images_Ok in Hrun as [pr Hrun].
  pose proof (nodup_final scan_all t images (groups, pr) Hdistinct
                scan_all_irrefl Hrun) as Hnd.
  apply loop_inv_final in Hrun as (_ & Hok & _). simpl in *.
  assert (length (concat groups) <= length images)%nat as Hlen.
  { rewrite <- (length_fmap fst images).
    apply submseteq_length, NoDup_submseteq; [done|].
    intros x (g & Hx & Hg)%elem_of_concat.
    rewrite Forall_forall in Hok.
    destruct (Hok g Hg) as (i & p1 & h1 & ms & -> & _ & Hi & Hms).
    apply elem_of_cons in Hx as [-> | Hx].
    - apply list_elem_of_fmap. exists (p1, h1).
      split; [done | by eapply list_elem_of_lookup_2].
    - destruct (Hms x Hx) as (j & h2 & Hj & _).
      apply list_elem_of_fmap. exists (x, h2).
      split; [done | by eapply list_elem_of_lookup_2]. }
  split; [done|].
  assert (2 * length groups <= length (concat groups))%nat; [|lia].
  apply concat_length_ge. eapply Forall_impl; [exact Hok|].
  intros g (i & p1 & h1 & ms & -> & Hne & _). destruct ms; [done | simpl; lia].
Qed.

Lemma grouped_paths_are_counted_once_witness :
  (length (concat [["r.png"; "s.png"]]) <= length trio)%nat /\
  (2 * length [["r.png"; "s.png"]] <= length trio)%nat.
Proof.
  apply (grouped_paths_are_counted_once 2 trio).
  - apply (bool_decide_unpack _). vm_compute. exact I.
  - reflexivity.
Defined.

Lemma hash_images_paths (hash_method : string)
    (files : list (string * Image)) (p h : string) :
  (p, h) ∈ hash_images hash_method files -> p ∈ files.*1.
Proof.
  induction files as [|[path img] files IH]; intros Hin;
    simpl in Hin; [by apply elem_of_nil in Hin|].
  rewrite fmap_cons. simpl.
  destruct (select_hash hash_method img).
  - apply elem_of_cons in Hin as [[= -> ->] | Hin]; [by left|].
    right. by eapply IH.
  - right. by eapply IH.
Qed.

Lemma grouped_paths_are_files (files : list (string * Image)) (t : Z)
    (hash_method : string) (groups : list (list string)) (path : string) :
  find_duplicate_images files t hash_method = Ok groups ->
  path ∈ concat groups -> path ∈ files.*1.
Proof.
  intros Hrun (g & Hx & Hg)%elem_of_concat.
  unfold find_duplicate_images, find_duplicate_groups in Hrun.
  apply group_images_Ok in Hrun as [pr Hrun].
  apply loop_inv_final in Hrun as (_ & Hok & _). simpl in Hok.
  rewrite Forall_forall in Hok.
  destruct (Hok g Hg) as (i & p1 & h1 & ms & -> & _ & Hi & Hms).
  apply elem_of_cons in Hx as [-> | Hx].
  - eapply hash_images_paths. by eapply list_elem_of_lookup_2.
  - destruct (Hms path Hx) as (j & h2 & Hj & _).
    eapply hash_images_paths. by eapply list_elem_of_lookup_2.
Qed.

Lemma hash_images_spec (hash_method : string)
    (files : list (string * Image)) (p h : string) :
  (p, h) ∈ hash_images hash_method files ->
  exists img, (p, img) ∈ files /\ select_hash hash_method img = Ok h.
Proof.
  induction files as [|[path img] files IH]; intros Hin;
    simpl in Hin; [by apply elem_of_nil in Hin|].
  destruct (select_hash hash_method img) as [h0|e] eqn:Hh.
  - apply elem_of_cons in Hin as [[= -> ->] | Hin].
    + exists img. split; [by left | done].
    + destruct (IH Hin) as (img' & ? & ?). exists img'.
      split; [by right | done].
  - destruct (IH Hin) as (img' & ? & ?). exists img'.
    split; [by right | done].
Qed.

(** X17.  Every path that the search reports is the path of an input
    file whose hash was computed: a file whose hashing raises is skipped
    and is never reported. *)
Theorem reported_paths_were_hashed (files : list (string * Image)) (t : Z)
    (hash_method : string) (groups : list (list string)) (path : string) :
  find_duplicate_images files t hash_method = Ok groups ->
  path ∈ concat groups ->
  exists img img_hash,
    (path, img) ∈ files /\ select_hash hash_method img = Ok img_hash.
Proof.
  intros Hrun (g & Hx & Hg)%elem_of_concat.
  unfold find_duplicate_images, find_duplicate_groups in Hrun.
  apply group_images_Ok in Hrun as [pr Hrun].
  apply loop_inv_final in Hrun as (_ & Hok & _). simpl in Hok.
  rewrite Forall_forall in Hok.
  destruct (Hok g Hg) as (i & p1 & h1 & ms & -> & _ & Hi & Hms).
  apply elem_of_cons in Hx as [-> | Hx].
  - apply list_elem_of_lookup_2, hash_images_spec in Hi as (img & ? & ?).
    by exists img, h1.
  - destruct (Hms path Hx) as (j & h2 & Hj & _).
    apply list_elem_of_lookup_2, hash_images_spec in Hj as (img & ? & ?).
    by exists img, h2.
Qed.

Lemma reported_paths_were_hashed_witness :
  find_duplicate_images [("a.png", flat); ("b.png", spot); ("c.png", flat)]
                        0 "dhash" = Ok [["a.png"; "c.png"]] /\
  exists img img_hash,
    ("c.png", img) ∈ [("a.png", flat); ("b.png", spot); ("c.png", flat)] /\
    select_hash "dhash" img = Ok img_hash.
Proof.
  assert (find_duplicate_images
            [("a.png", flat); ("b.png", spot); ("c.png", flat)] 0 "dhash"
          = Ok [["a.png"; "c.png"]]) as Hrun by (vm_compute; reflexivity).
  split; [exact Hrun|].
  apply (reported_paths_were_hashed _ 0 "dhash" [["a.png"; "c.png"]] "c.png"
           Hrun).
  apply (bool_decide_unpack _). vm_compute. exact I.
Defined.

(** Positions are determined by paths when the paths are distinct. *)
Lemma distinct_paths_position (images : list (string * string))
    (i j : nat) (p h h' : string) :
  NoDup images.*1 ->
  images !! i = Some (p, h) -> images !! j = Some (p, h') ->
  i = j /\ h = h'.
Proof.
  intros Hnd Hi Hj.
  assert (i = j) as ->.
  { apply (NoDup_lookup images.*1 i j p Hnd).
    - by rewrite list_lookup_fmap, Hi.
    - by rewrite list_lookup_fmap, Hj. }
  rewrite Hi in Hj. by simplify_eq.
Qed.

Section Twins.
Context (t : Z) (images : list (string * string)).
Hypothesis Hdistinct : NoDup images.*1.

(** A scan that claims one of two equal fingerprints claims the other
    too, unless it is already claimed or is the seed itself. *)
Lemma twin_claimed (i ia ib : nat) (pa pb h h1 : string)
    (pr : gset string) (ms : list string) :
  images !! ia = Some (pa, h) -> images !! ib = Some (pb, h) ->
  i <> ib ->
  scanned scan_all t i h1 (enumerate images) pr ms ->
  pa ∈ ms -> pb ∉ pr -> pb ∈ ms.
Proof.
  intros Ha Hb Hne (_ & Hms & Hrest) Hin Hnpr.
  destruct (Hms pa Hin) as (_ & j & h2 & Hj & _ & Hclose).
  apply elem_of_enumerate in Hj.
  destruct (distinct_paths_position images j ia pa h2 h Hdistinct Hj Ha)
    as [-> ->].
  destruct (decide (pb ∈ ms)) as [|Hnms]; [done|]. exfalso.
  apply (close_far_absurd t h1 h Hclose).
  apply (Hrest ib pb h); [by apply elem_of_enumerate | | done | done].
  by apply scan_all_true.
Qed.

(** The scan of a seed claims an unclaimed position with the seed's own
    fingerprint. *)
Lemma seed_claims_twin (ia ib : nat) (pb h : string)
    (pr : gset string) (ms : list string) :
  images !! ib = Some (pb, h) -> ia <> ib ->
  close_to t h h ->
  scanned scan_all t ia h (enumerate images) pr ms ->
  pb ∉ pr -> pb ∈ ms.
Proof.
  intros Hb Hne Hclose (_ & _ & Hrest) Hnpr.
  destruct (decide (pb ∈ ms)) as [|Hnms]; [done|]. exfalso.
  apply (close_far_absurd t h h Hclose).
  apply (Hrest ib pb h); [by apply elem_of_enumerate | | done | done].
  by apply scan_all_true.
Qed.

Lemma twin_in_group (i ia ib : nat) (p1 h1 pa pb h : string)
    (pr : gset string) (ms : list string) :
  images !! i = Some (p1, h1) ->
  images !! ia = Some (pa, h) -> images !! ib = Some (pb, h) ->
  ia <> ib -> close_to t h h ->
  p1 ∉ pr -> (pa ∈ pr <-> pb ∈ pr) ->
  scanned scan_all t i h1 (enumerate images) pr ms ->
  pa ∈ p1 :: ms -> pb ∈ p1 :: ms.
Proof.
  intros Hi Ha Hb Hne Hclose Hp1 Hpr Hscan Hin.
  apply elem_of_cons in Hin as [-> | Hin].
  - destruct (distinct_paths_position images i ia p1 h1 h Hdistinct Hi Ha)
      as [-> ->].
    right. apply (seed_claims_twin ia ib pb h pr ms); try done. tauto.
  - assert (pa ∉ pr) as Hna.
    { destruct Hscan as (_ & Hms & _). by destruct (Hms pa Hin). }
    destruct (decide (i = ib)) as [-> | Hib].
    + rewrite Hi in Hb. simplify_eq. by left.
    + right. apply (twin_claimed i ia ib pa pb h h1 pr ms); try done. tauto.
Qed.

Lemma twins_step (ix iy : nat) (px py h : string) (i : nat)
    (p1 h1 : string) (st st' : group_state) :
  images !! ix = Some (px, h) -> images !! iy = Some (py, h) ->
  ix <> iy -> close_to t h h ->
  images !! i = Some (p1, h1) ->
  twins_inv ix iy px py i st ->
  seed_body scan_all t images st (i, (p1, h1)) = Ok st' ->
  twins_inv ix iy px py (S i) st'.
Proof.
  destruct st as [dups pr].
  intros Hx Hy Hne Hclose Hi (Hpr & Hgr & Hseen) Hstep. simpl in *.
  apply seed_body_spec in Hstep
    as [[Hin ->] | (Hnin & ms & Hscan & Hcase)].
  - split; [done|]. split; [done|]. simpl. intros Hlt.
    destruct (decide (ix < i \/ iy < i)%nat) as [Hold | Hnew];
      [by apply Hseen|].
    destruct (decide (i = ix)) as [-> | Hix].
    + rewrite Hi in Hx. by simplify_eq.
    + assert (i = iy) as -> by lia. rewrite Hi in Hy. simplify_eq. tauto.
  - assert (px ∈ p1 :: ms <-> py ∈ p1 :: ms) as Hgroup.
    { split.
      - apply (twin_in_group i ix iy p1 h1 px py h pr ms); done.
      - apply (twin_in_group i iy ix p1 h1 py px h pr ms); done. }
    destruct Hcase as [[-> ->] | [Hms ->]]; simpl.
    + split; [done|]. split; [done|]. intros Hlt.
      destruct (decide (ix < i \/ iy < i)%nat) as [Hold | Hnew];
        [by apply Hseen|].
      exfalso.
      destruct (decide (i = ix)) as [-> | Hix].
      * rewrite Hi in Hx. simplify_eq.
        assert (py ∈ [px]) as Hin by (apply Hgroup; by left).
        apply list_elem_of_singleton in Hin as ->.
        destruct (distinct_paths_position images ix iy px h h Hdistinct Hi Hy).
        done.
      * assert (i = iy) as -> by lia. rewrite Hi in Hy. simplify_eq.
        assert (px ∈ [py]) as Hin by (apply Hgroup; by left).
        apply list_elem_of_singleton in Hin as ->.
        destruct (distinct_paths_position images ix iy py h h Hdistinct Hx Hi).
        done.
    + assert (forall x, x ∈ pr ∪ list_to_set ms ∪ {[p1]}
                        <-> x ∈ pr \/ x ∈ p1 :: ms) as Hpr'.
      { intros x. rewrite elem_of_cons. set_solver. }
      split; [rewrite !Hpr'; tauto|]. split.
      * intros g [Hg | ->%list_elem_of_singleton]%elem_of_app;
          [by apply Hgr | done].
      * intros Hlt. rewrite Hpr'.
        destruct (decide (ix < i \/ iy < i)%nat) as [Hold | Hnew];
          [left; by apply Hseen|].
        right. destruct (decide (i = ix)) as [-> | Hix].
        -- rewrite Hi in Hx. simplify_eq. by left.
        -- assert (i = iy) as -> by lia. rewrite Hi in Hy. simplify_eq.
           apply Hgroup. by left.
Qed.
End Twins.

Lemma close_to_itself (t : Z) (h : string) :
  0 <= t -> is_fingerprint h -> close_to t h h.
Proof.
  intros Ht [v Hv]. exists 0. split; [|done].
  unfold hamming_distance. rewrite Hv. simpl. by rewrite Z.lxor_nilpotent.
Qed.

(** X18.  Exact duplicates are always grouped together: with a
    non-negative threshold and pairwise-distinct paths, two images with
    the same readable fingerprint end up in one and the same group. *)
Theorem identical_fingerprints_share_a_group (t : Z)
    (images : list (string * string)) (groups : list (list string))
    (ix iy : nat) (px py h : string) :
  0 <= t -> NoDup images.*1 -> is_fingerprint h ->
  ix <> iy ->
  images !! ix = Some (px, h) -> images !! iy = Some (py, h) ->
  find_duplicate_groups t images = Ok groups ->
  exists g, g ∈ groups /\ px ∈ g /\ py ∈ g.
Proof.
  intros Ht Hdistinct Hfp Hne Hx Hy Hrun.
  apply group_images_Ok in Hrun as [pr Hrun].
  assert (loop_inv scan_all t images (length images) (groups, pr) /\
          twins_inv ix iy px py (length images) (groups, pr))
    as [(Hpr & _) (_ & Hgr & Hseen)].
  { revert Hrun. unfold group_loop.
    apply (for_each_enumerate_inv
             (fun n st => loop_inv scan_all t images n st /\
                          twins_inv ix iy px py n st)).
    - split; [apply loop_inv_init|].
      split; [done|]. split; [by intros g ?%elem_of_nil | lia].
    - intros j [p h'] s1 s2 Hj [Hinv Htw] Hstep. split.
      + by eapply loop_inv_step.
      + eapply (twins_step t images Hdistinct ix iy px py h); try done.
        by apply close_to_itself. }
  simpl in *.
  assert (px ∈ concat groups) as (g & Hin & Hg)%elem_of_concat.
  { apply Hpr, Hseen. left. by eapply lookup_lt_Some. }
  exists g. split; [done|]. split; [done | by apply Hgr].
Qed.

Lemma identical_fingerprints_share_a_group_witness :
  exists g,
    g ∈ [["a.png"; "c.png"]] /\ "a.png" ∈ g /\ "c.png" ∈ g.
Proof.
  apply (identical_fingerprints_share_a_group 0
           [("a.png", "00ff"); ("b.png", "ff00"); ("c.png", "00ff")]
           [["a.png"; "c.png"]] 0 2 "a.png" "c.png" "00ff").
  - lia.
  - apply (bool_decide_unpack _). vm_compute. exact I.
  - by exists 255.
  - discriminate.
  - reflexivity.
  - reflexivity.
  - reflexivity.
Defined.

Lemma order_step (t : Z) (images : list (string * string)) (i : nat)
    (p1 h1 : string) (st st' : group_state) :
  NoDup images.*1 ->
  images !! i = Some (p1, h1) ->
  order_inv images i st ->
  seed_body scan_all t images st (i, (p1, h1)) = Ok st' ->
  order_inv images (S i) st'.
Proof.
  destruct st as [dups pr]. intros Hdistinct Hi [Hpos Hord] Hstep.
  simpl in *.
  apply seed_body_spec in Hstep
    as [[Hin ->] | (Hnin & ms & Hscan & [[-> ->] | [Hms ->]])].
  - split; [|done]. intros g rep ms i0 h Hg -> Hi0.
    pose proof (Hpos _ rep ms i0 h Hg eq_refl Hi0). lia.
  - split; [|done]. intros g rep ms i0 h Hg -> Hi0.
    pose proof (Hpos _ rep ms i0 h Hg eq_refl Hi0). lia.
  - split; simpl.
    + intros g rep ms0 i0 h [Hg | Hg%list_elem_of_singleton]%elem_of_app -> Hi0.
      * pose proof (Hpos _ rep ms0 i0 h Hg eq_refl Hi0). lia.
      * simplify_eq.
        destruct (distinct_paths_position images i0 i _ h h1
                    Hdistinct Hi0 Hi) as [-> _]. lia.
    + intros k k' rep ms0 rep' ms' i0 i' h h' Hk Hgk Hgk' Hi0 Hi'.
      assert (k < length dups)%nat as Hklen.
      { apply lookup_lt_Some in Hgk'. rewrite length_app in Hgk'.
        simpl in Hgk'. lia. }
      rewrite lookup_app_l in Hgk by done.
      destruct (decide (k' < length dups)%nat) as [Hk' | Hk'].
      * rewrite lookup_app_l in Hgk' by done.
        by apply (Hord k k' rep ms0 rep' ms' i0 i' h h').
      * rewrite lookup_app_r in Hgk' by lia.
        destruct (k' - length dups)%nat; simpl in Hgk'; [|done].
        simplify_eq.
        destruct (distinct_paths_position images i' i _ h' h1
                    Hdistinct Hi' Hi) as [-> _].
        apply (Hpos (rep :: ms0) rep ms0 i0 h); try done.
        by eapply list_elem_of_lookup_2.
Qed.

(** X19.  With pairwise-distinct paths, every member of a group comes
    later in the input than the group's representative, and the groups
    are listed in the input order of their representatives. *)
Theorem representatives_come_first (t : Z)
    (images : list (string * string)) (groups : list (list string)) :
  NoDup images.*1 ->
  find_duplicate_groups t images = Ok groups ->
  (forall g, g ∈ groups ->
     exists i rep h members,
       g = rep :: members /\ images !! i = Some (rep, h) /\
       forall m, m ∈ members ->
         exists j hm, images !! j = Some (m, hm) /\ (i < j)%nat) /\
  (forall k k' rep ms rep' ms' i i' h h',
     (k < k')%nat ->
     groups !! k = Some (rep :: ms) -> groups !! k' = Some (rep' :: ms') ->
     images !! i = Some (rep, h) -> images !! i' = Some (rep', h') ->
     (i < i')%nat).
Proof.
  intros Hdistinct Hrun. apply group_images_Ok in Hrun as [pr Hrun]. split.
  - rewrite group_loops_agree in Hrun.
    apply loop_inv_final in Hrun as (_ & Hok & _). simpl in Hok.
    rewrite Forall_forall in Hok. intros g Hg.
    destruct (Hok g Hg) as (i & p1 & h1 & ms & -> & _ & Hi & Hms).
    exists i, p1, h1, ms. split; [done|]. split; [done|].
    intros m Hm. destruct (Hms m Hm) as (j & h2 & Hj & Hpick & _).
    exists j, h2. split; [done|]. by apply Nat.ltb_lt.
  - enough (order_inv images (length images) (groups, pr)) as [_ H]
      by exact H.
    revert Hrun. unfold group_loop.
    apply (for_each_enumerate_inv (order_inv images)).
    + split; [by intros g rep ms i h ?%elem_of_nil | done].
    + intros j [p h] s1 s2 Hj Hinv Hstep. by eapply order_step.
Qed.

Lemma representatives_come_first_witness :
  exists i rep h members,
    ["r.png"; "s.png"] = rep :: members /\ trio !! i = Some (rep, h) /\
    forall m, m ∈ members ->
      exists j hm, trio !! j = Some (m, hm) /\ (i < j)%nat.
Proof.
  assert (NoDup trio.*1) as Hdistinct
    by (apply (bool_decide_unpack _); vm_compute; exact I).
  assert (find_duplicate_groups 2 trio = Ok [["r.png"; "s.png"]]) as Hrun
    by reflexivity.
  apply (proj1 (representatives_come_first 2 trio [["r.png"; "s.png"]]
                 Hdistinct Hrun)).
  left.
Defined.

(** A scan from the first position that finds every later fingerprint
    within the threshold claims all later paths, in order. *)
Lemma scan_claims_all (t : Z) (h0 : string) (rest : list (string * string)) :
  forall (k : nat) (g : list string) (pr : gset string),
    (1 <= k)%nat ->
    NoDup rest.*1 ->
    (forall p, p ∈ rest.*1 -> p ∉ pr) ->
    (forall p h, (p, h) ∈ rest -> close_to t h0 h) ->
    for_each (enumerate_from k rest) (scan_body scan_all t 0 h0) (g, pr)
    = Ok (g ++ rest.*1, pr ∪ list_to_set rest.*1).
Proof.
  induction rest as [|[p h] rest IH]; intros k g pr Hk Hnd Hfresh Hclose.
  - simpl. rewrite app_nil_r. do 2 f_equal. set_solver.
  - rewrite fmap_cons in *. cbn [fst enumerate_from] in *.
    apply NoDup_cons in Hnd as [Hp Hnd].
    destruct (Hclose p h) as (d & Hd & Hle); [by left|].
    rewrite for_each_cons, (scan_claim scan_all t 0 k h0 p h g pr d);
      [| apply scan_all_true; lia | apply Hfresh; by left | done | done].
    rewrite res_bind_Ok, IH; [| lia | done | |].
    + rewrite <- app_assoc. do 2 f_equal. set_solver.
    + intros q Hq. specialize (Hfresh q). set_solver.
    + intros q hq Hq. apply (Hclose q hq). by right.
Qed.

Lemma seeds_all_claimed (t : Z) (images xs : list (string * string)) :
  forall (k : nat) (st : group_state),
    (forall p, p ∈ xs.*1 -> p ∈ st.2) ->
    for_each (enumerate_from k xs) (seed_body scan_all t images) st = Ok st.
Proof.
  induction xs as [|[p h] xs IH]; intros k st Hin; [done|].
  rewrite fmap_cons in Hin. cbn [enumerate_from].
  rewrite for_each_cons, seed_skip by (apply Hin; by left).
  rewrite res_bind_Ok. apply IH. intros q Hq. apply Hin. by right.
Qed.

Lemma hex_words_close (w : nat) (t : Z) (h1 h2 : string) :
  (1 <= w)%nat -> 4 * Z.of_nat w <= t ->
  hex_word w h1 -> hex_word w h2 -> close_to t h1 h2.
Proof.
  intros Hw Ht H1 H2.
  destruct (hex_word_value w h1 Hw H1) as (v1 & Hv1 & Hr1).
  destruct (hex_word_value w h2 Hw H2) as (v2 & Hv2 & Hr2).
  unfold close_to, hamming_distance. rewrite Hv1, Hv2. simpl.
  eexists. split; [done|].
  rewrite (bin_count_ones_lxor (4 * w)) by done.
  pose proof (bit_differences_range (4 * w) v1 v2). lia.
Qed.

(** X20.  A threshold of at least the bit width groups everything: for
    two or more images with pairwise-distinct paths and unsigned
    fingerprints of [w] hexadecimal digits, and [t >= 4 * w], the result
    is the single group of all paths in input order, headed by the first
    image. *)
Theorem full_threshold_groups_everything (w : nat) (t : Z)
    (p0 h0 : string) (rest : list (string * string)) :
  (1 <= w)%nat -> 4 * Z.of_nat w <= t ->
  rest <> [] ->
  NoDup (p0 :: rest.*1) ->
  hex_word w h0 -> (forall p h, (p, h) ∈ rest -> hex_word w h) ->
  find_duplicate_groups t ((p0, h0) :: rest) = Ok [p0 :: rest.*1].
Proof.
  intros Hw Ht Hne Hnd H0 Hrest.
  apply NoDup_cons in Hnd as [Hp0 Hnd].
  unfold find_duplicate_groups, group_images, group_loop, enumerate.
  cbn [enumerate_from]. rewrite for_each_cons.
  rewrite (seed_scan scan_all t _ 0 p0 h0 [] ∅
             (∅ ∪ list_to_set rest.*1) ([p0] ++ rest.*1));
    [| set_solver |].
  - replace (1 <? length ([p0] ++ rest.*1))%nat with true.
    2:{ symmetry. apply Nat.ltb_lt. destruct rest; [done|].
        simpl. lia. }
    rewrite res_bind_Ok, seeds_all_claimed; [done|].
    intros p Hp. simpl. set_solver.
  - unfold enumerate. cbn [enumerate_from].
    rewrite for_each_cons, scan_skip by (left; apply scan_all_irrefl).
    rewrite res_bind_Ok. apply scan_claims_all; [lia | done | set_solver |].
    intros p h Hin. apply (hex_words_close w); try done. by eapply Hrest.
Qed.

Lemma full_threshold_groups_everything_witness :
  find_duplicate_groups 16
    [("a.png", "0000"); ("b.png", "ffff"); ("c.png", "0f0f")]
  = Ok [["a.png"; "b.png"; "c.png"]].
Proof.
  apply (full_threshold_groups_everything 4 16 "a.png" "0000"
           [("b.png", "ffff"); ("c.png", "0f0f")]).
  - lia.
  - lia.
  - discriminate.
  - apply (bool_decide_unpack _). vm_compute. exact I.
  - split; [reflexivity | by eexists].
  - intros p h Hin.
    apply elem_of_cons in Hin as [[= -> ->] | Hin];
      [split; [reflexivity | by eexists]|].
    apply elem_of_cons in Hin as [[= -> ->] | Hin];
      [split; [reflexivity | by eexists]|].
    by apply elem_of_nil in Hin.
Defined.

(** ** Strings and paths *)

Lemma string_app_cons (c : ascii) (s1 s2 : string) :
  (String c s1 ++ s2)%string = String c (s1 ++ s2)%string.
Proof. reflexivity. Qed.

Lemma string_app_nil_l (s : string) : (EmptyString ++ s)%string = s.
Proof. reflexivity. Qed.

Lemma string_app_assoc (s1 s2 s3 : string) :
  ((s1 ++ s2) ++ s3)%string = (s1 ++ (s2 ++ s3))%string.
Proof.
  induction s1 as [|c s1 IH]; [done|].
  by rewrite !string_app_cons, IH.
Qed.

Lemma string_app_inv_head (s s1 s2 : string) :
  (s ++ s1)%string = (s ++ s2)%string -> s1 = s2.
Proof. apply (inj (String.app s)). Qed.

Lemma string_app_inv_tail (s1 s2 s : string) :
  (s1 ++ s)%string = (s2 ++ s)%string -> s1 = s2.
Proof.
  revert s2. induction s1 as [|c s1 IH]; intros [|c2 s2] H.
  - done.
  - apply (f_equal String.length) in H.
    rewrite string_app_nil_l, string_app_cons in H. cbn [String.length] in H.
    rewrite string_app_length in H. lia.
  - apply (f_equal String.length) in H.
    rewrite string_app_nil_l, string_app_cons in H. cbn [String.length] in H.
    rewrite string_app_length in H. lia.
  - rewrite !string_app_cons in H. injection H as -> H. f_equal. by apply IH.
Qed.

Lemma rfind_range (c : ascii) (s : string) :
  -1 <= rfind c s < Z.of_nat (String.length s).
Proof.
  induction s as [|a s IH]; simpl rfind; cbn [String.length]; [lia|].
  destruct (0 <=? rfind c s) eqn:H; [lia|].
  destruct (Ascii.eqb a c); lia.
Qed.

Lemma rfind_app (c : ascii) (s1 s2 : string) :
  rfind c (s1 ++ s2)%string
  = if 0 <=? rfind c s2 then Z.of_nat (String.length s1) + rfind c s2
    else rfind c s1.
Proof.
  induction s1 as [|a s1 IH].
  - rewrite string_app_nil_l. cbn [String.length rfind].
    destruct (0 <=? rfind c s2) eqn:H; [lia|].
    pose proof (rfind_range c s2). apply Z.leb_gt in H. lia.
  - rewrite string_app_cons. cbn [String.length rfind].
    rewrite IH. destruct (0 <=? rfind c s2) eqn:H.
    + apply Z.leb_le in H.
      replace (0 <=? Z.of_nat (String.length s1) + rfind c s2) with true
        by (symmetry; apply Z.leb_le; lia).
      lia.
    + done.
Qed.

Lemma string_drop_app (s1 s2 : string) :
  string_drop (String.length s1) (s1 ++ s2) = s2.
Proof.
  induction s1 as [|c s1 IH]; [by destruct s2|].
  rewrite string_app_cons. exact IH.
Qed.

Lemma string_take_app (s1 s2 : string) :
  string_take (String.length s1) (s1 ++ s2) = s1.
Proof.
  induction s1 as [|c s1 IH]; [by destruct s2|].
  rewrite string_app_cons. cbn [String.length string_take]. by rewrite IH.
Qed.

Lemma string_take_drop (n : nat) (s : string) :
  (string_take n s ++ string_drop n s)%string = s.
Proof.
  revert s. induction n as [|n IH]; intros [|c s]; try done.
  cbn [string_take string_drop]. by rewrite string_app_cons, IH.
Qed.

Lemma string_take_length (n : nat) (s : string) :
  (n <= String.length s)%nat -> String.length (string_take n s) = n.
Proof.
  revert s. induction n as [|n IH]; intros [|c s] H; simpl in *; try lia.
  rewrite IH; lia.
Qed.

(** The base name of a path holds no separator. *)
Lemma rfind_drop_after (c : ascii) (s : string) :
  rfind c (string_drop (Z.to_nat (rfind c s + 1)) s) = -1.
Proof.
  induction s as [|a s IH]; [done|]. simpl rfind.
  destruct (0 <=? rfind c s) eqn:H.
  - apply Z.leb_le in H.
    replace (Z.to_nat (rfind c s + 1 + 1)) with (S (Z.to_nat (rfind c s + 1)))
      by lia.
    simpl. exact IH.
  - apply Z.leb_gt in H. pose proof (rfind_range c s).
    assert (rfind c s = -1) as Hs by lia.
    destruct (Ascii.eqb a c) eqn:Hac; simpl.
    + done.
    + simpl. rewrite Hs. simpl. by rewrite Hac.
Qed.

Lemma basename_no_sep (p : string) : rfind "/" (basename p) = -1.
Proof. apply rfind_drop_after. Qed.

Lemma ends_with_sep_rfind (a : string) :
  ends_with_sep a = true ->
  rfind "/" a = Z.of_nat (String.length a) - 1.
Proof.
  induction a as [|c a IH]; [done|]. intros H.
  destruct a as [|c' a'].
  - simpl in *. rewrite H. done.
  - change (ends_with_sep (String c (String c' a')))
      with (ends_with_sep (String c' a')) in H.
    specialize (IH H). simpl rfind in *. cbn [String.length] in *.
    rewrite IH.
    replace (0 <=? Z.of_nat (S (String.length a')) - 1) with true
      by (symmetry; apply Z.leb_le; lia).
    lia.
Qed.

Lemma no_sep_not_absolute (b : string) :
  rfind "/" b = -1 -> starts_with_sep b = false.
Proof.
  destruct b as [|c b]; [done|]. simpl.
  destruct (0 <=? rfind "/" b) eqn:H; [pose proof (rfind_range "/" b); lia|].
  by destruct (Ascii.eqb c "/").
Qed.

(** Joining a folder and a separator-free name, and taking the base
    name again, gives the name back. *)
Lemma basename_join (folder name : string) :
  rfind "/" name = -1 -> basename (join folder name) = name.
Proof.
  intros Hname. unfold join. rewrite (no_sep_not_absolute name Hname).
  unfold basename.
  destruct (bool_decide (folder = EmptyString)) eqn:Hempty.
  - apply bool_decide_eq_true in Hempty as ->. cbn [orb].
    by rewrite string_app_nil_l, Hname.
  - cbn [orb]. destruct (ends_with_sep folder) eqn:Hend.
    + rewrite rfind_app, Hname. cbv iota. change (0 <=? -1) with false.
      cbv iota. rewrite (ends_with_sep_rfind folder Hend).
      replace (Z.to_nat (Z.of_nat (String.length folder) - 1 + 1))
        with (String.length folder) by lia.
      apply string_drop_app.
    + rewrite rfind_app. cbn [rfind]. rewrite Hname.
      change (0 <=? -1) with false. cbv iota.
      change (Ascii.eqb "/" "/") with true. cbv iota.
      change (0 <=? 0) with true. cbv iota.
      replace (Z.to_nat (Z.of_nat (String.length folder) + 0 + 1))
        with (String.length (folder ++ "/")%string)
        by (rewrite string_app_length; simpl; lia).
      replace (folder ++ String "/" name)%string
        with ((folder ++ "/") ++ name)%string
        by (by rewrite string_app_assoc).
      apply string_drop_app.
Qed.

(** Joining to one folder is injective on names that start alike. *)
Lemma join_inj (folder n1 n2 : string) :
  starts_with_sep n1 = starts_with_sep n2 ->
  join folder n1 = join folder n2 -> n1 = n2.
Proof.
  unfold join. intros <-. destruct (starts_with_sep n1); [done|].
  destruct (bool_decide (folder = EmptyString) || ends_with_sep folder).
  - apply string_app_inv_head.
  - intros H. apply string_app_inv_head in H. by injection H.
Qed.

Lemma starts_with_sep_app (base s1 s2 : string) :
  starts_with_sep (base ++ String "_" s1)
  = starts_with_sep (base ++ String "_" s2).
Proof. by destruct base. Qed.

Lemma candidate_inj (folder base ext : string) (k k' : nat) :
  candidate folder base ext k = candidate folder base ext k' -> k = k'.
Proof.
  unfold candidate. intros H.
  apply join_inj in H; [|apply starts_with_sep_app].
  apply string_app_inv_head in H. injection H as H.
  apply string_app_inv_tail in H. by apply (inj pretty) in H.
Qed.

(** ** The destination loop *)

Section FreeName.
Context (existing : gset string) (folder base ext : string).

Lemma free_name_None (fuel : nat) :
  forall dest counter,
    free_name fuel existing folder base ext dest counter = None ->
    dest ∈ existing /\
    forall j, (j < fuel)%nat ->
              candidate folder base ext (counter + j) ∈ existing.
Proof.
  induction fuel as [|fuel IH]; intros dest counter H; simpl in H.
  - case_bool_decide; [|done]. split; [done|]. lia.
  - case_bool_decide as Hin; [|done]. split; [done|].
    apply IH in H as [H0 Hrest]. intros [|j] Hj.
    + by rewrite Nat.add_0_r.
    + replace (counter + S j)%nat with (S counter + j)%nat by lia.
      apply Hrest. lia.
Qed.

(** What the loop returns does not exist, and it is the plain name or
    the variant with the least counter that does not exist. *)
Lemma free_name_Some (fuel : nat) :
  forall dest counter d,
    free_name fuel existing folder base ext dest counter = Some d ->
    (d ∉ existing) /\
    (((dest ∉ existing) /\ d = dest) \/
     (dest ∈ existing /\
      exists k, (counter <= k)%nat /\ d = candidate folder base ext k /\
                forall j, (counter <= j < k)%nat ->
                          candidate folder base ext j ∈ existing)).
Proof.
  induction fuel as [|fuel IH]; intros dest counter d H; simpl in H.
  - case_bool_decide; [done|]. simplify_eq. split; [done|]. by left.
  - case_bool_decide as Hin; [|simplify_eq; split; [done | by left]].
    apply IH in H as [Hd Hcase]. split; [done|]. right. split; [done|].
    destruct Hcase as [[Hfree ->] | (Hex & k & Hk & -> & Hmin)].
    + exists counter. split; [done|]. split; [done|]. lia.
    + exists k. split; [lia|]. split; [done|]. intros j Hj.
      destruct (decide (j = counter)) as [-> | Hne]; [done|].
      apply Hmin. lia.
Qed.

(** One more iteration than there are existing paths always suffices:
    the candidates are pairwise different, so they cannot all exist. *)
Lemma free_name_terminates (dest : string) (counter : nat) :
  is_Some (free_name (S (size existing)) existing folder base ext
                     dest counter).
Proof.
  destruct (free_name _ _ _ _ _ _ _) as [d|] eqn:H; [by eexists|].
  exfalso. apply free_name_None in H as [_ Hall].
  set (cs := map (fun j => candidate folder base ext (counter + j))
                 (seq 0 (S (size existing)))).
  assert (NoDup cs) as Hnd.
  { apply NoDup_fmap_2_strong; [|apply NoDup_seq].
    intros j1 j2 _ _ Heq. apply candidate_inj in Heq. lia. }
  assert (list_to_set cs ⊆ existing) as Hsub.
  { intros x Hx. apply elem_of_list_to_set in Hx.
    apply list_elem_of_fmap in Hx as (j & -> & Hj).
    apply elem_of_seq in Hj. apply Hall. lia. }
  apply subseteq_size in Hsub.
  rewrite size_list_to_set in Hsub by done.
  unfold cs in Hsub. rewrite length_map, length_seq in Hsub. lia.
Qed.
End FreeName.

Lemma destination_total (existing : gset string) (folder path : string) :
  is_Some (destination existing folder path).
Proof.
  unfold destination. cbv zeta.
  destruct (splitext (basename path)) as [base ext].
  apply free_name_terminates.
Qed.

Lemma destination_fresh (existing : gset string)
    (folder path dest : string) :
  destination existing folder path = Some dest -> dest ∉ existing.
Proof.
  unfold destination. cbv zeta.
  destruct (splitext (basename path)) as [base ext].
  by intros [? _]%free_name_Some.
Qed.

(** X21.  Choosing a destination always ends, and the path chosen does
    not exist; it is the source's file name inside the folder when that
    is free, and otherwise the numbered variant [base_k.ext] with the
    least [k >= 1] that is free. *)
Theorem destination_is_free (existing : gset string) (folder path : string) :
  exists dest,
    destination existing folder path = Some dest /\
    (dest ∉ existing) /\
    (join folder (basename path) ∉ existing ->
     dest = join folder (basename path)) /\
    (join folder (basename path) ∈ existing ->
     exists k, (1 <= k)%nat /\
       dest = candidate folder (splitext (basename path)).1
                        (splitext (basename path)).2 k /\
       forall j, (1 <= j < k)%nat ->
         candidate folder (splitext (basename path)).1
                   (splitext (basename path)).2 j ∈ existing).
Proof.
  unfold destination. cbv zeta.
  destruct (splitext (basename path)) as [base ext]. cbn [fst snd].
  destruct (free_name_terminates existing folder base ext
              (join folder (basename path)) 1) as [dest Hdest].
  exists dest. split; [done|].
  apply free_name_Some in Hdest as [Hfree Hcase]. split; [done|].
  destruct Hcase as [[Hplain ->] | (Hex & k & Hk & -> & Hmin)].
  - split; [done|]. by intros ?.
  - split; [by intros ?|]. intros _. by exists k.
Qed.

Lemma destination_is_free_witness :
  destination {["out/a.jpg"; "out/a_1.jpg"]} "out" "in/a.jpg"
  = Some "out/a_2.jpg" /\
  "out/a_2.jpg" ∉ ({["out/a.jpg"; "out/a_1.jpg"]} : gset string).
Proof.
  destruct (destination_is_free {["out/a.jpg"; "out/a_1.jpg"]} "out"
              "in/a.jpg") as (dest & Hdest & Hfree & _).
  vm_compute in Hdest. injection Hdest as <-.
  split; [reflexivity | exact Hfree].
Defined.

(** ** The extension of a renamed copy *)

Lemma rfind_absent_cons (c a : ascii) (s : string) :
  rfind c (String a s) = -1 <-> a <> c /\ rfind c s = -1.
Proof.
  pose proof (rfind_range c s) as Hr. cbn [rfind]. cbv zeta.
  destruct (0 <=? rfind c s) eqn:Hle.
  - apply Z.leb_le in Hle. split; [lia | intros [_ ?]; lia].
  - apply Z.leb_gt in Hle. destruct (Ascii.eqb_spec a c) as [-> | Hne].
    + split; [lia | by intros [? _]].
    + split; [intros _; split; [done | lia] | done].
Qed.

Lemma rfind_app_absent (c : ascii) (s1 s2 : string) :
  rfind c (s1 ++ s2)%string = -1 <-> rfind c s1 = -1 /\ rfind c s2 = -1.
Proof.
  rewrite rfind_app. pose proof (rfind_range c s1). pose proof (rfind_range c s2).
  destruct (0 <=? rfind c s2) eqn:Hle.
  - apply Z.leb_le in Hle. split; [lia | intros [_ ?]; lia].
  - apply Z.leb_gt in Hle. split; [intros ?; split; lia | by intros [? _]].
Qed.

(** A decimal numeral contains neither a dot nor a separator. *)
Lemma rfind_pretty_N_go (c : ascii) (x : N) :
  (forall d, pretty_N_char d <> c) ->
  forall s, rfind c s = -1 -> rfind c (pretty_N_go x s) = -1.
Proof.
  intros Hc. induction (N.lt_wf_0 x) as [x _ IH]. intros s Hs.
  destruct (decide (x = 0)%N) as [-> | Hx]; [by rewrite pretty_N_go_0|].
  rewrite pretty_N_go_step by lia. apply IH; [apply N.div_lt; lia|].
  apply rfind_absent_cons. split; [apply Hc | done].
Qed.

Lemma rfind_pretty (c : ascii) (k : nat) :
  (forall d, pretty_N_char d <> c) -> rfind c (pretty k) = -1.
Proof.
  intros Hc. unfold pretty, pretty_nat, pretty, pretty_N.
  case_decide.
  - apply rfind_absent_cons. split; [apply (Hc 0%N) | done].
  - by apply rfind_pretty_N_go.
Qed.

Lemma pretty_N_char_not_dot (d : N) : pretty_N_char d <> "."%char.
Proof. unfold pretty_N_char. by repeat case_match. Qed.

Lemma pretty_N_char_not_sep (d : N) : pretty_N_char d <> "/"%char.
Proof. unfold pretty_N_char. by repeat case_match. Qed.

Lemma all_dots_app (s1 s2 : string) :
  all_dots (s1 ++ s2) = all_dots s1 && all_dots s2.
Proof.
  induction s1 as [|c s1 IH]; [by rewrite string_app_nil_l|].
  rewrite string_app_cons. cbn [all_dots]. rewrite IH.
  by rewrite andb_assoc.
Qed.

Lemma string_take_app_le (n : nat) (s1 s2 : string) :
  (n <= String.length s1)%nat ->
  string_take n (s1 ++ s2) = string_take n s1.
Proof.
  revert s1. induction n as [|n IH]; intros [|c s1] Hn; simpl in Hn;
    try done; try lia.
  rewrite string_app_cons. cbn [string_take]. f_equal. apply IH. lia.
Qed.

(** The suffix from the last occurrence of [c] starts with it and holds
    no other. *)
Lemma rfind_drop_at (c : ascii) (s : string) :
  0 <= rfind c s ->
  rfind c (string_drop (Z.to_nat (rfind c s)) s) = 0.
Proof.
  induction s as [|a s IH]; [cbn [rfind]; lia|].
  pose proof (rfind_range c s) as Hr. cbn [rfind]. cbv zeta.
  destruct (0 <=? rfind c s) eqn:Hle.
  - apply Z.leb_le in Hle. intros _.
    replace (Z.to_nat (rfind c s + 1)) with (S (Z.to_nat (rfind c s)))
      by lia.
    cbn [string_drop]. by apply IH.
  - apply Z.leb_gt in Hle. destruct (Ascii.eqb_spec a c) as [-> | Hne];
      [|lia].
    intros _. change (Z.to_nat 0) with 0%nat. cbn [string_drop rfind].
    cbv zeta. apply Z.leb_gt in Hle. rewrite Hle.
    by rewrite Ascii.eqb_refl.
Qed.

Lemma splitext_no_sep (p : string) :
  rfind "/" p = -1 ->
  splitext p
  = if (0 <=? rfind "." p)
       && negb (all_dots (string_take (Z.to_nat (rfind "." p)) p))
    then (string_take (Z.to_nat (rfind "." p)) p,
          string_drop (Z.to_nat (rfind "." p)) p)
    else (p, EmptyString).
Proof.
  intros Hsep. unfold splitext. cbv zeta. rewrite Hsep.
  change (Z.to_nat (-1 + 1)) with 0%nat.
  replace (string_drop 0 p) with p by (by destruct p).
  replace (rfind "." p - (-1 + 1)) with (rfind "." p) by lia.
  replace (-1 <? rfind "." p) with (0 <=? rfind "." p); [done|].
  destruct (0 <=? rfind "." p) eqn:H1, (-1 <? rfind "." p) eqn:H2;
    try done; rewrite ?Z.leb_le, ?Z.leb_gt, ?Z.ltb_lt, ?Z.ltb_ge in *; lia.
Qed.

Lemma string_app_nil_r (s : string) : (s ++ EmptyString)%string = s.
Proof.
  induction s as [|c s IH]; [by rewrite string_app_nil_l|].
  by rewrite string_app_cons, IH.
Qed.

(** Inserting a dot-free, separator-free text between the root and the
    extension of a file name leaves the extension as it was. *)
Lemma splitext_insert (name mid : string) :
  rfind "/" name = -1 -> rfind "/" mid = -1 -> rfind "." mid = -1 ->
  splitext ((splitext name).1 ++ (mid ++ (splitext name).2))
  = (((splitext name).1 ++ mid)%string, (splitext name).2).
Proof.
  intros Hsep Hmid_sep Hmid_dot.
  pose proof (rfind_range "." name) as Hrange.
  rewrite (splitext_no_sep name Hsep).
  destruct (0 <=? rfind "." name) eqn:Hdot; cbn [andb].
  - apply Z.leb_le in Hdot.
    set (d := Z.to_nat (rfind "." name)).
    destruct (all_dots (string_take d name)) eqn:Hall; cbn [negb fst snd].
    + (* only dots before the last dot: no extension *)
      rewrite string_app_nil_r. rewrite splitext_no_sep
        by (by apply rfind_app_absent).
      assert (rfind "." (name ++ mid) = rfind "." name) as ->.
      { rewrite rfind_app, Hmid_dot. done. }
      fold d. rewrite string_take_app_le by (unfold d; lia).
      rewrite Hall. by rewrite andb_false_r.
    + pose proof (string_take_drop d name) as Hname.
      assert (rfind "." (string_drop d name) = 0) as Hext
        by (by apply rfind_drop_at).
      assert (String.length (string_take d name) = d) as Hlen
        by (apply string_take_length; unfold d; lia).
      assert (rfind "/" (string_take d name) = -1 /\
              rfind "/" (string_drop d name) = -1) as [Hb He].
      { apply rfind_app_absent. by rewrite Hname. }
      set (base := string_take d name) in *.
      set (ext := string_drop d name) in *.
      rewrite splitext_no_sep.
      2:{ apply rfind_app_absent. split; [done|].
          by apply rfind_app_absent. }
      assert (rfind "." (base ++ (mid ++ ext))
              = Z.of_nat (String.length (base ++ mid))) as ->.
      { rewrite rfind_app. rewrite (rfind_app "." mid ext), Hext.
        change (0 <=? 0) with true. cbv iota.
        replace (0 <=? Z.of_nat (String.length mid) + 0) with true
          by (symmetry; apply Z.leb_le; lia).
        rewrite string_app_length. lia. }
      rewrite Nat2Z.id. rewrite <- string_app_assoc.
      rewrite string_take_app, string_drop_app.
      rewrite all_dots_app, Hall. cbn [andb negb].
      replace (0 <=? Z.of_nat (String.length (base ++ mid))) with true
        by (symmetry; apply Z.leb_le; lia).
      done.
  - apply Z.leb_gt in Hdot. cbn [fst snd].
    rewrite string_app_nil_r. rewrite splitext_no_sep
      by (by apply rfind_app_absent).
    assert (rfind "." (name ++ mid) = rfind "." name) as ->.
    { rewrite rfind_app, Hmid_dot. done. }
    replace (0 <=? rfind "." name) with false
      by (symmetry; apply Z.leb_gt; lia).
    done.
Qed.

Lemma splitext_app (p : string) :
  ((splitext p).1 ++ (splitext p).2)%string = p.
Proof.
  unfold splitext. cbv zeta. case_match; cbn [fst snd].
  - apply string_take_drop.
  - apply string_app_nil_r.
Qed.

Lemma candidate_name (folder name : string) (k : nat) :
  rfind "/" name = -1 ->
  exists renamed,
    (candidate folder (splitext name).1 (splitext name).2 k
     = join folder renamed) /\
    (rfind "/" renamed = -1) /\
    (splitext renamed
     = (((splitext name).1 ++ String "_" (pretty k))%string,
        (splitext name).2)).
Proof.
  intros Hsep.
  assert (rfind "/" (splitext name).1 = -1 /\
          rfind "/" (splitext name).2 = -1) as [Hb He].
  { apply rfind_app_absent. by rewrite splitext_app. }
  assert (rfind "/" (String "_" (pretty k)) = -1) as Hmid_sep.
  { apply rfind_absent_cons. split; [done|].
    apply rfind_pretty, pretty_N_char_not_sep. }
  assert (rfind "." (String "_" (pretty k)) = -1) as Hmid_dot.
  { apply rfind_absent_cons. split; [done|].
    apply rfind_pretty, pretty_N_char_not_dot. }
  exists ((splitext name).1
          ++ (String "_" (pretty k) ++ (splitext name).2))%string.
  split; [by rewrite string_app_cons|]. split.
  - apply rfind_app_absent. split; [done|]. by apply rfind_app_absent.
  - by apply splitext_insert.
Qed.

Lemma destination_name (existing : gset string)
    (folder path dest : string) :
  destination existing folder path = Some dest ->
  exists name, dest = join folder name /\ rfind "/" name = -1 /\
    (splitext name).2 = (splitext (basename path)).2.
Proof.
  intros Hdest. pose proof (basename_no_sep path) as Hsep.
  unfold destination in Hdest. cbv zeta in Hdest.
  destruct (splitext (basename path)) as [base ext] eqn:Hsplit.
  apply free_name_Some in Hdest as [_ Hcase].
  destruct Hcase as [[_ ->] | (_ & k & _ & -> & _)].
  - exists (basename path). by rewrite Hsplit.
  - destruct (candidate_name folder (basename path) k Hsep)
      as (renamed & Hc & Hr & Hs).
    rewrite Hsplit in Hc, Hs. cbn [fst snd] in Hc, Hs.
    exists renamed. by rewrite Hs.
Qed.

(** X22.  The destination chosen for a file lies directly in the target
    folder, under a name without separator, and has the extension of the
    source: a numbered copy of an image file is still recognised as an
    image file. *)
Theorem destination_keeps_extension (existing : gset string)
    (folder path dest : string) :
  destination existing folder path = Some dest ->
  dest = join folder (basename dest) /\
  rfind "/" (basename dest) = -1 /\
  (splitext (basename dest)).2 = (splitext (basename path)).2 /\
  has_image_extension (basename dest) = has_image_extension (basename path).
Proof.
  intros (name & -> & Hname & Hext)%destination_name.
  rewrite basename_join by done. unfold has_image_extension.
  by rewrite Hext.
Qed.

Lemma destination_keeps_extension_witness :
  "out/a_2.JPG" = join "out" (basename "out/a_2.JPG") /\
  rfind "/" (basename "out/a_2.JPG") = -1 /\
  (splitext (basename "out/a_2.JPG")).2 = (splitext (basename "in/a.JPG")).2 /\
  has_image_extension (basename "out/a_2.JPG")
  = has_image_extension (basename "in/a.JPG").
Proof.
  apply (destination_keeps_extension {["out/a.JPG"; "out/a_1.JPG"]}).
  vm_compute. reflexivity.
Defined.

(** ** The walk *)

Lemma opened_images_paths (open_image : string -> option Image)
    (paths : list string) (path : string) :
  path ∈ (opened_images open_image paths).*1 ->
  path ∈ paths /\ is_Some (open_image path).
Proof.
  induction paths as [|p paths IH]; simpl; [by intros ?%elem_of_nil|].
  destruct (open_image p) as [img|] eqn:Hopen.
  - rewrite fmap_cons. simpl. intros [-> | Hin]%elem_of_cons.
    + split; [by left | by rewrite Hopen].
    + destruct (IH Hin). split; [by right | done].
  - intros Hin. destruct (IH Hin). split; [by right | done].
Qed.

Lemma walked_files_spec (walk : list (string * list string)) (path : string) :
  path ∈ walked_files walk <->
  exists root files file,
    (root, files) ∈ walk /\ file ∈ files /\
    has_image_extension file = true /\ path = join root file.
Proof.
  unfold walked_files. rewrite elem_of_concat. split.
  - intros (l & Hp & Hl). apply list_elem_of_fmap in Hl
      as ([root files] & -> & Hw).
    apply list_elem_of_fmap in Hp as (file & -> & Hf).
    apply list_elem_of_filter in Hf as [Hext Hf].
    by exists root, files, file.
  - intros (root & files & file & Hw & Hf & Hext & ->).
    exists (map (fun file => join root file)
                (filter (fun file => has_image_extension file = true) files)).
    split.
    + apply list_elem_of_fmap. exists file. split; [done|].
      by apply list_elem_of_filter.
    + apply list_elem_of_fmap. by exists (root, files).
Qed.

(** X23.  Every path that searching a folder reports is a walked file
    whose name has one of the seven image extensions (in any letter
    case) and which opened as an image: other files, and image files
    that fail to open, are never reported. *)
Theorem only_opened_image_files_are_reported
    (walk : list (string * list string))
    (open_image : string -> option Image) (t : Z) (hash_method : string)
    (groups : list (list string)) (path : string) :
  find_duplicate_images_in walk open_image t hash_method = Ok groups ->
  path ∈ concat groups ->
  exists root files file,
    (root, files) ∈ walk /\ file ∈ files /\
    path = join root file /\
    lower (splitext file).2 ∈ image_extensions /\
    is_Some (open_image path).
Proof.
  unfold find_duplicate_images_in. intros Hrun Hin.
  eapply grouped_paths_are_files in Hin; [|done].
  apply opened_images_paths in Hin as [Hwalked Hopen].
  apply walked_files_spec in Hwalked
    as (root & files & file & Hw & Hf & Hext & ->).
  exists root, files, file. repeat split; try done.
  unfold has_image_extension in Hext. by apply bool_decide_eq_true in Hext.
Qed.

Lemma only_opened_image_files_are_reported_witness :
  find_duplicate_images_in
    [("in", ["a.jpg"; "notes.txt"; "b.PNG"; "c.gif"])]
    (fun path => if bool_decide (path = "in/c.gif") then None else Some flat)
    5 "dhash" = Ok [["in/a.jpg"; "in/b.PNG"]] /\
  exists root files file,
    (root, files) ∈ [("in", ["a.jpg"; "notes.txt"; "b.PNG"; "c.gif"])] /\
    file ∈ files /\
    "in/b.PNG" = join root file /\
    lower (splitext file).2 ∈ image_extensions /\
    is_Some ((fun path => if bool_decide (path = "in/c.gif")
                          then None else Some flat) "in/b.PNG").
Proof.
  assert (find_duplicate_images_in
            [("in", ["a.jpg"; "notes.txt"; "b.PNG"; "c.gif"])]
            (fun path => if bool_decide (path = "in/c.gif")
                         then None else Some flat)
            5 "dhash" = Ok [["in/a.jpg"; "in/b.PNG"]]) as Hrun
    by (vm_compute; reflexivity).
  split; [exact Hrun|].
  apply (only_opened_image_files_are_reported _ _ 5 "dhash"
           [["in/a.jpg"; "in/b.PNG"]] "in/b.PNG" Hrun).
  apply (bool_decide_unpack _). vm_compute. exact I.
Defined.

(** ** Copying *)

Section Copying.
Context (copy2 : copy2_t).

Lemma copy_to_total (folder : string) (unique : bool) (src : string)
    (st : copy_state) :
  is_Some (copy_to copy2 folder unique src st).
Proof.
  unfold copy_to.
  destruct (destination_total (paths st) folder src) as [dest ->].
  simpl. by destruct (copy2 _ _ _ _) as [[] ?].
Qed.

(** What one copy does to the state. *)
Lemma copy_to_spec (folder : string) (unique : bool) (src : string)
    (st st' : copy_state) :
  copy_to copy2 folder unique src st = Some st' ->
  exists dest,
    destination (paths st) folder src = Some dest /\
    paths st' = (copy2 (calls st) (paths st) src dest).2 /\
    calls st' = S (calls st) /\
    if (copy2 (calls st) (paths st) src dest).1
    then copied_files st' = <[src := dest]> (copied_files st) /\
         unique_count st' = (unique_count st + if unique then 1 else 0)%nat /\
         duplicate_count st'
         = (duplicate_count st + if unique then 0 else 1)%nat
    else copied_files st' = copied_files st /\
         unique_count st' = unique_count st /\
         duplicate_count st' = duplicate_count st.
Proof.
  unfold copy_to.
  destruct (destination (paths st) folder src) as [dest|]; [|done].
  simpl. destruct (copy2 _ _ _ _) as [[] ex'] eqn:Hc;
    intros [= <-]; exists dest; rewrite Hc; simpl;
    repeat split; destruct unique; lia.
Qed.

Lemma run_jobs_app (js1 js2 : list job) (st : copy_state) :
  run_jobs copy2 (js1 ++ js2) st
  = st' ← run_jobs copy2 js1 st; run_jobs copy2 js2 st'.
Proof.
  revert st. induction js1 as [|[[folder unique] src] js1 IH]; intros st;
    simpl; [done|].
  destruct (copy_to copy2 folder unique src st) as [st1|]; simpl; [|done].
  apply IH.
Qed.

Lemma run_jobs_total (js : list job) (st : copy_state) :
  is_Some (run_jobs copy2 js st).
Proof.
  revert st. induction js as [|[[folder unique] src] js IH]; intros st;
    simpl; [by eexists|].
  destruct (copy_to_total folder unique src st) as [st1 ->]. simpl.
  apply IH.
Qed.

Lemma copy_all_jobs (folder : string) (unique : bool) (srcs : list string)
    (st : copy_state) :
  copy_all copy2 folder unique srcs st
  = run_jobs copy2 (map (fun src => (folder, unique, src)) srcs) st.
Proof.
  revert st. induction srcs as [|src srcs IH]; intros st; simpl; [done|].
  destruct (copy_to copy2 folder unique src st) as [st1|]; simpl; [|done].
  apply IH.
Qed.

Lemma copy_group_jobs (unique_folder duplicate_folder : string)
    (group : list string) (st : copy_state) :
  group <> [] ->
  copy_group copy2 unique_folder duplicate_folder group st
  = st' ← run_jobs copy2 (group_jobs unique_folder duplicate_folder group) st;
    Some (Ok st').
Proof.
  destruct group as [|original_img others]; [done|]. intros _. simpl.
  destruct (copy_to copy2 unique_folder true original_img st) as [st1|];
    simpl; [|done].
  by rewrite copy_all_jobs.
Qed.

Lemma copy_groups_jobs (unique_folder duplicate_folder : string)
    (duplicates : list (list string)) (st : copy_state) :
  [] ∉ duplicates ->
  copy_groups copy2 unique_folder duplicate_folder duplicates st
  = st' ← run_jobs copy2
            (concat (map (group_jobs unique_folder duplicate_folder)
                         duplicates)) st;
    Some (Ok st').
Proof.
  revert st. induction duplicates as [|group duplicates IH]; intros st Hne;
    simpl; [done|].
  apply not_elem_of_cons in Hne as [Hg Hne].
  rewrite copy_group_jobs by done. rewrite run_jobs_app.
  destruct (run_jobs copy2 (group_jobs _ _ group) st) as [st1|]; simpl;
    [|done].
  by apply IH.
Qed.

Lemma copy_groups_raises (unique_folder duplicate_folder : string)
    (duplicates : list (list string)) (st : copy_state) :
  [] ∈ duplicates ->
  copy_groups copy2 unique_folder duplicate_folder duplicates st
  = Some (Raise IndexError).
Proof.
  revert st. induction duplicates as [|group duplicates IH]; intros st Hin;
    [by apply elem_of_nil in Hin|].
  simpl. destruct group as [|original_img others]; [done|].
  apply elem_of_cons in Hin as [? | Hin]; [done|].
  rewrite copy_group_jobs by done.
  destruct (run_jobs_total
              (group_jobs unique_folder duplicate_folder
                          (original_img :: others)) st) as [st1 ->].
  simpl. by apply IH.
Qed.

(** The function makes the copies of [jobs] in order, unless a group is
    empty. *)
Lemma copy_files_to_folders_jobs (existing : gset string)
    (duplicates : list (list string)) (walk : list (string * list string))
    (unique_folder duplicate_folder : string) :
  copy_files_to_folders copy2 existing duplicates walk
                        unique_folder duplicate_folder
  = if bool_decide ([] ∈ duplicates) then Some (Raise IndexError)
    else st ← run_jobs copy2
                (jobs duplicates walk unique_folder duplicate_folder)
                (initial_state existing);
         Some (Ok st).
Proof.
  unfold copy_files_to_folders. case_bool_decide as Hempty.
  - by rewrite copy_groups_raises.
  - rewrite copy_groups_jobs by done. unfold jobs. rewrite run_jobs_app.
    destruct (run_jobs copy2 _ (initial_state existing)) as [st1|]; simpl;
      [|done].
    by rewrite copy_all_jobs.
Qed.

Lemma copy_files_to_folders_Ok (existing : gset string)
    (duplicates : list (list string)) (walk : list (string * list string))
    (unique_folder duplicate_folder : string) (st : copy_state) :
  copy_files_to_folders copy2 existing duplicates walk
                        unique_folder duplicate_folder = Some (Ok st) <->
  ([] ∉ duplicates) /\
  run_jobs copy2 (jobs duplicates walk unique_folder duplicate_folder)
           (initial_state existing) = Some st.
Proof.
  rewrite copy_files_to_folders_jobs. case_bool_decide as Hempty.
  - split; [done | by intros [? _]].
  - destruct (run_jobs copy2 _ _) as [st1|]; simpl.
    + split; [by intros [= ->] | by intros [_ [= ->]]].
    + split; [done | by intros [_ ?]].
Qed.

(** An invariant of the single copies is an invariant of the run. *)
Lemma run_jobs_inv (P : copy_state -> Prop) (js : list job)
    (st st' : copy_state) :
  P st ->
  (forall folder unique src s s',
     (folder, unique, src) ∈ js -> P s ->
     copy_to copy2 folder unique src s = Some s' -> P s') ->
  run_jobs copy2 js st = Some st' -> P st'.
Proof.
  revert st. induction js as [|[[folder unique] src] js IH];
    intros st Hst Hstep; simpl.
  - by intros [= <-].
  - destruct (copy_to copy2 folder unique src st) as [st1|] eqn:Hc;
      simpl; [|done].
    apply IH.
    + eapply Hstep; [by left | done | done].
    + intros f u s0 s1 s2 Hin. apply Hstep. by right.
Qed.

End Copying.

(** X24.  An empty group stops the copying: [group[0]] raises, so the
    function returns normally only when every group has a first
    member. *)
Theorem copying_returns_only_without_empty_group (copy2 : copy2_t)
    (existing : gset string) (duplicates : list (list string))
    (walk : list (string * list string))
    (unique_folder duplicate_folder : string) (st : copy_state) :
  copy_files_to_folders copy2 existing duplicates walk
                        unique_folder duplicate_folder = Some (Ok st) ->
  Forall (fun group => exists original_img others,
                         group = original_img :: others) duplicates.
Proof.
  intros [Hne _]%copy_files_to_folders_Ok. apply Forall_forall.
  intros [|original_img others] Hin; [done|]. by eexists _, _.
Qed.

Lemma copying_returns_only_without_empty_group_witness :
  exists st,
    copy_files_to_folders copy2_flaky ∅ demo_groups demo_walk
                          "out/u" "out/d" = Some (Ok st) /\
    Forall (fun group => exists original_img others,
                           group = original_img :: others) demo_groups.
Proof.
  destruct (copy_files_to_folders copy2_flaky ∅ demo_groups demo_walk
              "out/u" "out/d") as [[st|e]|] eqn:Hrun;
    [|vm_compute in Hrun; discriminate..].
  exists st. split; [reflexivity|].
  apply (copying_returns_only_without_empty_group copy2_flaky ∅ demo_groups
           demo_walk "out/u" "out/d" st Hrun).
Defined.

(** ** What is copied where *)

Lemma copy2_fine_sound : copy2_sound copy2_fine.
Proof. intros n existing src dest. simpl. split; [|intros _]; set_solver. Qed.

Lemma copy2_flaky_sound : copy2_sound copy2_flaky.
Proof.
  intros n existing src dest. unfold copy2_flaky.
  destruct (Nat.even n); simpl; (split; [|intros ?]); set_solver.
Qed.

Lemma copy2_fine_succeeds : copy2_succeeds copy2_fine.
Proof. by intros n existing src dest. Qed.

Lemma elem_of_group_jobs (unique_folder duplicate_folder : string)
    (group : list string) (folder : string) (unique : bool) (src : string) :
  (folder, unique, src) ∈ group_jobs unique_folder duplicate_folder group <->
  (folder = unique_folder /\ unique = true /\ head group = Some src) \/
  (folder = duplicate_folder /\ unique = false /\ src ∈ tail group).
Proof.
  destruct group as [|original_img others]; simpl.
  - split; [by intros ?%elem_of_nil | by intros [(_ & _ & ?) | (_ & _ & ?%elem_of_nil)]].
  - rewrite elem_of_cons, list_elem_of_fmap. split.
    + intros [[= -> -> ->] | (m & [= -> -> ->] & Hm)]; [by left | by right].
    + intros [(-> & -> & [= ->]) | (-> & -> & Hm)]; [by left|].
      right. by exists src.
Qed.

Lemma elem_of_jobs (duplicates : list (list string))
    (walk : list (string * list string))
    (unique_folder duplicate_folder folder : string) (unique : bool)
    (src : string) :
  (folder, unique, src) ∈ jobs duplicates walk unique_folder duplicate_folder
  <->
  (folder = unique_folder /\ unique = true /\
   ((exists group, group ∈ duplicates /\ head group = Some src) \/
    src ∈ other_images walk duplicates)) \/
  (folder = duplicate_folder /\ unique = false /\
   exists group, group ∈ duplicates /\ src ∈ tail group).
Proof.
  unfold jobs. rewrite elem_of_app, elem_of_concat, list_elem_of_fmap.
  split.
  - intros [(js & Hin & Hjs) | (p & [= -> -> ->] & Hp)].
    + apply list_elem_of_fmap in Hjs as (group & -> & Hg).
      apply elem_of_group_jobs in Hin as [(-> & -> & Hh) | (-> & -> & Ht)].
      * left. repeat split; try done. left. by exists group.
      * right. repeat split; try done. by exists group.
    + left. repeat split; try done. by right.
  - intros [(-> & -> & [(group & Hg & Hh) | Hp]) | (-> & -> & group & Hg & Ht)].
    + left. exists (group_jobs unique_folder duplicate_folder group). split.
      * apply elem_of_group_jobs. by left.
      * apply list_elem_of_fmap. by exists group.
    + right. by exists src.
    + left. exists (group_jobs unique_folder duplicate_folder group). split.
      * apply elem_of_group_jobs. by right.
      * apply list_elem_of_fmap. by exists group.
Qed.

Lemma elem_of_tail {A : Type} (x : A) (l : list A) : x ∈ tail l -> x ∈ l.
Proof. destruct l as [|y l]; simpl; [done | by right]. Qed.

Lemma head_elem_of {A : Type} (x : A) (l : list A) :
  head l = Some x -> x ∈ l.
Proof. destruct l as [|y l]; simpl; [done | intros [= ->]; by left]. Qed.

Lemma elem_of_concat_tails (duplicates : list (list string)) (src : string) :
  src ∈ concat (map tail duplicates) <->
  exists group, group ∈ duplicates /\ src ∈ tail group.
Proof.
  rewrite elem_of_concat. split.
  - intros (l & Hsrc & Hl). apply list_elem_of_fmap in Hl as (g & -> & Hg).
    by exists g.
  - intros (g & Hg & Hsrc). exists (tail g). split; [done|].
    apply list_elem_of_fmap. by exists g.
Qed.

(** In disjoint groups without repetition, the first path of a group is
    not a later path of any group. *)
Lemma head_not_in_tails (duplicates : list (list string)) (group : list string)
    (src : string) :
  NoDup (concat duplicates) ->
  group ∈ duplicates -> head group = Some src ->
  src ∉ concat (map tail duplicates).
Proof.
  intros Hnd Hg Hhead (g' & Hg' & Hsrc)%elem_of_concat_tails.
  apply list_elem_of_lookup in Hg as [i Hi].
  pose proof Hg' as Hg''. apply list_elem_of_lookup in Hg'' as [j Hj].
  assert (i = j) as <-.
  { eapply (NoDup_concat_disjoint duplicates Hnd i j group g' src);
      [done | done | by apply head_elem_of | by apply elem_of_tail]. }
  assert (g' = group) as -> by congruence.
  apply (NoDup_concat_group duplicates group Hnd) in Hg'.
  destruct group as [|p others]; [done|]. simpl in *.
  injection Hhead as ->. apply NoDup_cons in Hg' as [Hnotin _]. done.
Qed.

(** With groups that share no path, the source of a job tells its
    folder. *)
Lemma routed_folder (duplicates : list (list string))
    (walk : list (string * list string))
    (unique_folder duplicate_folder folder : string) (unique : bool)
    (src : string) :
  NoDup (concat duplicates) ->
  (folder, unique, src) ∈ jobs duplicates walk unique_folder duplicate_folder
  ->
  folder = if bool_decide (src ∈ concat (map tail duplicates))
           then duplicate_folder else unique_folder.
Proof.
  intros Hnd Hjob.
  apply elem_of_jobs in Hjob
    as [(-> & -> & [(group & Hg & Hh) | Hother]) | (-> & -> & group & Hg & Ht)].
  - rewrite bool_decide_eq_false_2; [done|]. by eapply head_not_in_tails.
  - rewrite bool_decide_eq_false_2; [done|].
    unfold other_images in Hother.
    apply list_elem_of_filter in Hother as [Hnotin _].
    intros (g & Hg & Hsrc)%elem_of_concat_tails. apply Hnotin.
    apply elem_of_concat. exists g. split; [by apply elem_of_tail | done].
  - rewrite bool_decide_eq_true_2; [done|].
    apply elem_of_concat_tails. by exists group.
Qed.

(** Every recorded copy was made by a job for its source, into that
    job's folder, under a name with the source's extension. *)
Lemma run_jobs_routed (copy2 : copy2_t) (js : list job)
    (existing : gset string) (st : copy_state) (src dest : string) :
  run_jobs copy2 js (initial_state existing) = Some st ->
  copied_files st !! src = Some dest ->
  exists folder unique name,
    (folder, unique, src) ∈ js /\ dest = join folder name /\
    rfind "/" name = -1 /\
    (splitext name).2 = (splitext (basename src)).2.
Proof.
  intros Hrun. revert src dest.
  apply (run_jobs_inv copy2 (fun s => forall src dest,
           copied_files s !! src = Some dest ->
           exists folder unique name,
             (folder, unique, src) ∈ js /\ dest = join folder name /\
             rfind "/" name = -1 /\
             (splitext name).2 = (splitext (basename src)).2)
           js (initial_state existing) st); [done| |done].
  intros folder unique src0 s s' Hin IH Hcopy src dest.
  apply copy_to_spec in Hcopy as (d & Hd & _ & _ & Hcase).
  destruct ((copy2 (calls s) (paths s) src0 d).1).
  - destruct Hcase as (-> & _). intros Hlook.
    apply lookup_insert_Some in Hlook as [[<- <-] | [_ Hlook]]; [|by apply IH].
    apply destination_name in Hd as (name & -> & Hname & Hext).
    by exists folder, unique, name.
  - destruct Hcase as (-> & _). apply IH.
Qed.

(** With a sound [shutil.copy2], every recorded destination was free
    before the run and exists after it, and no two sources share one. *)
Lemma run_jobs_fresh (copy2 : copy2_t) (js : list job)
    (existing : gset string) (st : copy_state) :
  copy2_sound copy2 ->
  run_jobs copy2 js (initial_state existing) = Some st ->
  existing ⊆ paths st /\
  (forall src dest, copied_files st !! src = Some dest ->
     dest ∈ paths st /\ dest ∉ existing) /\
  (forall src1 src2 dest,
     copied_files st !! src1 = Some dest ->
     copied_files st !! src2 = Some dest -> src1 = src2).
Proof.
  intros Hsound.
  apply (run_jobs_inv copy2 (fun s =>
           existing ⊆ paths s /\
           (forall src dest, copied_files s !! src = Some dest ->
              dest ∈ paths s /\ dest ∉ existing) /\
           (forall src1 src2 dest,
              copied_files s !! src1 = Some dest ->
              copied_files s !! src2 = Some dest -> src1 = src2))).
  { split; [done|]. split; intros ? ?; by rewrite ?lookup_empty. }
  intros folder unique src0 s s' _ (Hsub & Hin & Hinj) Hcopy.
  apply copy_to_spec in Hcopy as (d & Hd & Hpaths & _ & Hcase).
  apply destination_fresh in Hd.
  destruct (Hsound (calls s) (paths s) src0 d) as [Hmono Hcreate].
  rewrite <- Hpaths in Hmono, Hcreate.
  destruct ((copy2 (calls s) (paths s) src0 d).1).
  - destruct Hcase as (-> & _). specialize (Hcreate eq_refl).
    split; [set_solver|]. split.
    + intros src dest [[<- <-] | [_ Hlook]]%lookup_insert_Some.
      * split; [done | set_solver].
      * destruct (Hin _ _ Hlook). split; [set_solver | done].
    + intros src1 src2 dest
        [[<- <-] | [? H1]]%lookup_insert_Some
        [[<- Heq] | [? H2]]%lookup_insert_Some; try done.
      * subst. by destruct (Hin _ _ H2).
      * subst. by destruct (Hin _ _ H1).
      * by eapply Hinj.
  - destruct Hcase as (-> & _). split; [set_solver|]. split; [|done].
    intros src dest Hlook. destruct (Hin _ _ Hlook).
    split; [set_solver | done].
Qed.

(** X26.  Copying never overwrites: with a [shutil.copy2] that deletes
    nothing and creates its destination, every destination recorded in
    [copied_files] did not exist before the run and exists after it,
    no two sources were copied to the same destination, and every path
    that existed still does. *)
Theorem copies_never_overwrite (copy2 : copy2_t) (existing : gset string)
    (duplicates : list (list string)) (walk : list (string * list string))
    (unique_folder duplicate_folder : string) (st : copy_state) :
  copy2_sound copy2 ->
  copy_files_to_folders copy2 existing duplicates walk
                        unique_folder duplicate_folder = Some (Ok st) ->
  existing ⊆ paths st /\
  (forall src dest, copied_files st !! src = Some dest ->
     dest ∈ paths st /\ dest ∉ existing) /\
  (forall src1 src2 dest,
     copied_files st !! src1 = Some dest ->
     copied_files st !! src2 = Some dest -> src1 = src2).
Proof.
  intros Hsound [_ Hrun]%copy_files_to_folders_Ok.
  by eapply run_jobs_fresh.
Qed.

Lemma copies_never_overwrite_witness :
  exists st,
    copy_files_to_folders copy2_flaky {["out/u/a.jpg"]} demo_groups demo_walk
                          "out/u" "out/d" = Some (Ok st) /\
    ({["out/u/a.jpg"]} ⊆ paths st) /\
    (forall src dest, copied_files st !! src = Some dest ->
       dest ∈ paths st /\ dest ∉ ({["out/u/a.jpg"]} : gset string)) /\
    (forall src1 src2 dest,
       copied_files st !! src1 = Some dest ->
       copied_files st !! src2 = Some dest -> src1 = src2).
Proof.
  destruct (copy_files_to_folders copy2_flaky {["out/u/a.jpg"]} demo_groups
              demo_walk "out/u" "out/d") as [[st|e]|] eqn:Hrun;
    [|vm_compute in Hrun; discriminate..].
  exists st. split; [reflexivity|].
  apply (copies_never_overwrite copy2_flaky {["out/u/a.jpg"]} demo_groups
           demo_walk "out/u" "out/d" st copy2_flaky_sound Hrun).
Defined.

(** X27.  With groups that share no path, a recorded copy lies
    directly in the folder it belongs to, under a name with the source's
    extension: in [duplicate_folder] when the source is a later member
    of a group, else (first member of a group, or in no group) in
    [unique_folder]. *)
Theorem copies_go_to_their_folder (copy2 : copy2_t) (existing : gset string)
    (duplicates : list (list string)) (walk : list (string * list string))
    (unique_folder duplicate_folder : string) (st : copy_state)
    (src dest : string) :
  NoDup (concat duplicates) ->
  copy_files_to_folders copy2 existing duplicates walk
                        unique_folder duplicate_folder = Some (Ok st) ->
  copied_files st !! src = Some dest ->
  dest = join (if bool_decide (src ∈ concat (map tail duplicates))
               then duplicate_folder else unique_folder)
              (basename dest) /\
  rfind "/" (basename dest) = -1 /\
  (splitext (basename dest)).2 = (splitext (basename src)).2.
Proof.
  intros Hnd [_ Hrun]%copy_files_to_folders_Ok Hlook.
  destruct (run_jobs_routed _ _ _ _ _ _ Hrun Hlook)
    as (folder & unique & name & Hjob & -> & Hname & Hext).
  rewrite basename_join by done. split; [|done]. f_equal.
  by eapply routed_folder.
Qed.

Lemma copies_go_to_their_folder_witness :
  exists st,
    copy_files_to_folders copy2_fine {["out/u/a.jpg"]} demo_groups demo_walk
                          "out/u" "out/d" = Some (Ok st) /\
    "out/d/a.jpg" = join "out/d" (basename "out/d/a.jpg") /\
    rfind "/" (basename "out/d/a.jpg") = -1 /\
    (splitext (basename "out/d/a.jpg")).2
    = (splitext (basename "in/sub/a.jpg")).2.
Proof.
  destruct (copy_files_to_folders copy2_fine {["out/u/a.jpg"]} demo_groups
              demo_walk "out/u" "out/d") as [[st|e]|] eqn:Hrun;
    [|vm_compute in Hrun; discriminate..].
  exists st. split; [reflexivity|].
  apply (copies_go_to_their_folder copy2_fine {["out/u/a.jpg"]} demo_groups
           demo_walk "out/u" "out/d" st "in/sub/a.jpg" "out/d/a.jpg").
  - apply (bool_decide_unpack _). vm_compute. exact I.
  - exact Hrun.
  - vm_compute in Hrun. injection Hrun as <-. vm_compute. reflexivity.
Defined.

(** ** Searching, then copying *)

Lemma opened_images_sublist (open_image : string -> option Image)
    (paths : list string) :
  (opened_images open_image paths).*1 `sublist_of` paths.
Proof.
  induction paths as [|p paths IH]; simpl; [done|].
  destruct (open_image p); [|by apply sublist_cons].
  simpl. by apply sublist_skip.
Qed.

Lemma hash_images_sublist (hash_method : string)
    (files : list (string * Image)) :
  (hash_images hash_method files).*1 `sublist_of` files.*1.
Proof.
  induction files as [|[path img] files IH]; simpl; [done|].
  destruct (select_hash hash_method img); [|by apply sublist_cons].
  simpl. by apply sublist_skip.
Qed.

(** When the walk lists no path twice, the groups found share no
    path. *)
Lemma found_groups_disjoint (walk : list (string * list string))
    (open_image : string -> option Image) (t : Z) (hash_method : string)
    (groups : list (list string)) :
  NoDup (walked_files walk) ->
  find_duplicate_images_in walk open_image t hash_method = Ok groups ->
  NoDup (concat groups).
Proof.
  intros Hnd Hrun.
  unfold find_duplicate_images_in, find_duplicate_images,
    find_duplicate_groups in Hrun.
  apply group_images_Ok in Hrun as [pr Hrun].
  apply (nodup_final scan_all t
           (hash_images hash_method
              (opened_images open_image (walked_files walk)))
           (groups, pr)); [|apply scan_all_irrefl|done].
  pose proof (opened_images_sublist open_image (walked_files walk)) as H1.
  pose proof (hash_images_sublist hash_method
                (opened_images open_image (walked_files walk))) as H2.
  eapply sublist_NoDup; [|exact H2]. by eapply sublist_NoDup.
Qed.

(** X25.  The two steps of [main] together: when the walk lists no path
    twice, every recorded copy of the copying that follows the search
    lies directly in [duplicate_folder] when its source is a later
    member of a group that was found, and directly in [unique_folder]
    when it is the first member of a group or in no group. *)
Theorem found_groups_go_to_their_folders (copy2 : copy2_t)
    (existing : gset string) (walk walk' : list (string * list string))
    (open_image : string -> option Image) (t : Z) (hash_method : string)
    (unique_folder duplicate_folder : string)
    (groups : list (list string)) (st : copy_state) (src dest : string) :
  NoDup (walked_files walk) ->
  find_duplicate_images_in walk open_image t hash_method = Ok groups ->
  copy_files_to_folders copy2 existing groups walk'
                        unique_folder duplicate_folder = Some (Ok st) ->
  copied_files st !! src = Some dest ->
  dest = join (if bool_decide (src ∈ concat (map tail groups))
               then duplicate_folder else unique_folder)
              (basename dest).
Proof.
  intros Hnd Hfind [_ Hrun]%copy_files_to_folders_Ok Hlook.
  pose proof (found_groups_disjoint _ _ _ _ _ Hnd Hfind) as Hdisjoint.
  destruct (run_jobs_routed _ _ _ _ _ _ Hrun Hlook)
    as (folder & unique & name & Hjob & -> & Hname & _).
  rewrite basename_join by done. f_equal.
  by eapply routed_folder.
Qed.

Lemma found_groups_go_to_their_folders_witness :
  exists groups st,
    find_duplicate_images_in demo_walk (fun _ => Some flat) 5 "dhash"
    = Ok groups /\
    copy_files_to_folders copy2_fine ∅ groups demo_walk "out/u" "out/d"
    = Some (Ok st) /\
    copied_files st !! "in/sub/a.jpg" = Some "out/d/a.jpg" /\
    "out/d/a.jpg"
    = join (if bool_decide ("in/sub/a.jpg" ∈ concat (map tail groups))
            then "out/d" else "out/u")
           (basename "out/d/a.jpg").
Proof.
  destruct (find_duplicate_images_in demo_walk (fun _ => Some flat) 5 "dhash")
    as [groups|e] eqn:Hfind; [|vm_compute in Hfind; discriminate].
  destruct (copy_files_to_folders copy2_fine ∅ groups demo_walk
              "out/u" "out/d") as [[st|e]|] eqn:Hrun;
    [| vm_compute in Hfind; injection Hfind as <-;
       vm_compute in Hrun; discriminate ..].
  assert (copied_files st !! "in/sub/a.jpg" = Some "out/d/a.jpg") as Hlook.
  { vm_compute in Hfind. injection Hfind as <-.
    vm_compute in Hrun. injection Hrun as <-. vm_compute. reflexivity. }
  exists groups, st. split; [reflexivity|]. split; [exact Hrun|].
  split; [exact Hlook|].
  apply (found_groups_go_to_their_folders copy2_fine ∅ demo_walk demo_walk
           (fun _ => Some flat) 5 "dhash" "out/u" "out/d" groups st
           "in/sub/a.jpg" "out/d/a.jpg").
  - apply (bool_decide_unpack _). vm_compute. exact I.
  - exact Hfind.
  - exact Hrun.
  - exact Hlook.
Defined.

(** ** The counters of the summary *)

Lemma unique_jobs_app (js1 js2 : list job) :
  unique_jobs (js1 ++ js2) = (unique_jobs js1 + unique_jobs js2)%nat.
Proof.
  induction js1 as [|[[f u] s] js1 IH]; simpl; [done|]. rewrite IH. lia.
Qed.

Lemma duplicate_jobs_app (js1 js2 : list job) :
  duplicate_jobs (js1 ++ js2)
  = (duplicate_jobs js1 + duplicate_jobs js2)%nat.
Proof.
  induction js1 as [|[[f u] s] js1 IH]; simpl; [done|]. rewrite IH. lia.
Qed.

Lemma unique_jobs_map (folder : string) (srcs : list string) :
  unique_jobs (map (fun src => (folder, true, src)) srcs) = length srcs /\
  duplicate_jobs (map (fun src => (folder, true, src)) srcs) = 0%nat.
Proof. induction srcs as [|s srcs [IH1 IH2]]; simpl; [done|]. lia. Qed.

Lemma duplicate_jobs_map (folder : string) (srcs : list string) :
  unique_jobs (map (fun src => (folder, false, src)) srcs) = 0%nat /\
  duplicate_jobs (map (fun src => (folder, false, src)) srcs) = length srcs.
Proof. induction srcs as [|s srcs [IH1 IH2]]; simpl; [done|]. lia. Qed.

Lemma jobs_counts (duplicates : list (list string))
    (walk : list (string * list string))
    (unique_folder duplicate_folder : string) :
  ([] ∉ duplicates) ->
  unique_jobs (jobs duplicates walk unique_folder duplicate_folder)
  = (length duplicates + length (other_images walk duplicates))%nat /\
  duplicate_jobs (jobs duplicates walk unique_folder duplicate_folder)
  = length (concat (map tail duplicates)).
Proof.
  intros Hne. unfold jobs. rewrite unique_jobs_app, duplicate_jobs_app.
  destruct (unique_jobs_map unique_folder (other_images walk duplicates))
    as [-> ->].
  enough (unique_jobs (concat (map (group_jobs unique_folder duplicate_folder)
                                   duplicates)) = length duplicates /\
          duplicate_jobs (concat (map (group_jobs unique_folder
                                                  duplicate_folder)
                                      duplicates))
          = length (concat (map tail duplicates))) as [-> ->] by lia.
  induction duplicates as [|group duplicates IH]; simpl; [done|].
  apply not_elem_of_cons in Hne as [Hg Hne].
  destruct (IH Hne) as [IH1 IH2].
  rewrite unique_jobs_app, duplicate_jobs_app, IH1, IH2, length_app.
  destruct group as [|p others]; [done|]. simpl.
  destruct (duplicate_jobs_map duplicate_folder others) as [-> ->]. lia.
Qed.

Lemma run_jobs_counts (copy2 : copy2_t) (js : list job) (st st' : copy_state) :
  run_jobs copy2 js st = Some st' ->
  calls st' = (calls st + length js)%nat /\
  (unique_count st' <= unique_count st + unique_jobs js)%nat /\
  (duplicate_count st' <= duplicate_count st + duplicate_jobs js)%nat /\
  (size (copied_files st') + unique_count st + duplicate_count st
   <= size (copied_files st) + unique_count st' + duplicate_count st')%nat.
Proof.
  revert st. induction js as [|[[folder unique] src] js IH]; intros st;
    simpl.
  - intros [= <-]. lia.
  - destruct (copy_to copy2 folder unique src st) as [st1|] eqn:Hcopy;
      simpl; [|done].
    intros (Hc & Hu & Hd & Hs)%IH.
    apply copy_to_spec in Hcopy as (d & _ & _ & Hcalls & Hcase).
    destruct ((copy2 (calls st) (paths st) src d).1).
    + destruct Hcase as (Hcf & Hu1 & Hd1).
      assert (size (copied_files st1) <= S (size (copied_files st)))%nat.
      { rewrite Hcf.
        destruct (copied_files st !! src) as [old|] eqn:Hold.
        - rewrite <- (insert_delete_id (copied_files st) src old) at 2 by done.
          rewrite <- insert_delete_eq.
          rewrite !map_size_insert_None by apply lookup_delete_eq. lia.
        - rewrite map_size_insert_None by done. lia. }
      destruct unique; lia.
    + destruct Hcase as (Hcf & Hu1 & Hd1). rewrite Hcf in Hs.
      destruct unique; lia.
Qed.

Lemma run_jobs_all (copy2 : copy2_t) (js : list job) (st st' : copy_state) :
  copy2_succeeds copy2 ->
  run_jobs copy2 js st = Some st' ->
  unique_count st' = (unique_count st + unique_jobs js)%nat /\
  duplicate_count st' = (duplicate_count st + duplicate_jobs js)%nat /\
  forall src, is_Some (copied_files st' !! src) <->
              is_Some (copied_files st !! src) \/
              exists folder unique, (folder, unique, src) ∈ js.
Proof.
  intros Hall. revert st.
  induction js as [|[[folder unique] src0] js IH]; intros st; simpl.
  - intros [= <-]. repeat split; try lia; [by left|].
    intros [? | (f & u & ?%elem_of_nil)]; done.
  - destruct (copy_to copy2 folder unique src0 st) as [st1|] eqn:Hcopy;
      simpl; [|done].
    intros (Hu & Hd & Hdom)%IH.
    apply copy_to_spec in Hcopy as (d & _ & _ & _ & Hcase).
    rewrite Hall in Hcase. destruct Hcase as (Hcf & Hu1 & Hd1).
    split; [destruct unique; lia|]. split; [destruct unique; lia|].
    intros src. rewrite Hdom, Hcf. rewrite lookup_insert_is_Some. split.
    + intros [[<- | [_ ?]] | (f & u & Hin)].
      * right. exists folder, unique. by left.
      * by left.
      * right. exists f, u. by right.
    + intros [? | (f & u & [[= -> -> ->] | Hin]%elem_of_cons)].
      * destruct (decide (src0 = src)); [left; by left | left; by right].
      * left. by left.
      * right. by exists f, u.
Qed.

(** X28.  When no copy fails, [copied_files] records exactly the paths
    of the groups and the image files of the walk, and the summary
    counts one unique image for each group and each image file outside
    the groups, and one duplicate for each later member of a group. *)
Theorem every_image_is_copied (copy2 : copy2_t) (existing : gset string)
    (duplicates : list (list string)) (walk : list (string * list string))
    (unique_folder duplicate_folder : string) (st : copy_state) :
  copy2_succeeds copy2 ->
  copy_files_to_folders copy2 existing duplicates walk
                        unique_folder duplicate_folder = Some (Ok st) ->
  (forall src, is_Some (copied_files st !! src) <->
               src ∈ concat duplicates \/ src ∈ walked_files walk) /\
  unique_count st
  = (length duplicates + length (other_images walk duplicates))%nat /\
  duplicate_count st = length (concat (map tail duplicates)).
Proof.
  intros Hall [Hne Hrun]%copy_files_to_folders_Ok.
  apply (run_jobs_all copy2 _ _ _ Hall) in Hrun as (Hu & Hd & Hdom).
  destruct (jobs_counts duplicates walk unique_folder duplicate_folder Hne)
    as [Hju Hjd].
  simpl in Hu, Hd. rewrite Hju in Hu. rewrite Hjd in Hd.
  split; [|done]. intros src. rewrite Hdom. simpl.
  rewrite lookup_empty. split.
  - intros [[? [=]] | (f & u & Hjob)].
    apply elem_of_jobs in Hjob
      as [(_ & _ & [(g & Hg & Hh) | Hother]) | (_ & _ & g & Hg & Ht)].
    + left. apply elem_of_concat. exists g.
      split; [by apply head_elem_of | done].
    + right. unfold other_images in Hother.
      by apply list_elem_of_filter in Hother as [_ ?].
    + left. apply elem_of_concat. exists g.
      split; [by apply elem_of_tail | done].
  - intros Hsrc. right.
    destruct (decide (src ∈ concat duplicates)) as [Hin | Hout].
    + apply elem_of_concat in Hin as (g & Hin & Hg).
      destruct g as [|p others]; [by apply elem_of_nil in Hin|].
      apply elem_of_cons in Hin as [-> | Hin].
      * exists unique_folder, true. apply elem_of_jobs. left.
        repeat split; try done. left. by exists (p :: others).
      * exists duplicate_folder, false. apply elem_of_jobs. right.
        repeat split; try done. by exists (p :: others).
    + destruct Hsrc as [? | Hwalk]; [done|].
      exists unique_folder, true. apply elem_of_jobs. left.
      repeat split; try done. right. unfold other_images.
      by apply list_elem_of_filter.
Qed.

Lemma every_image_is_copied_witness :
  exists st,
    copy_files_to_folders copy2_fine {["out/u/a.jpg"]} demo_groups demo_walk
                          "out/u" "out/d" = Some (Ok st) /\
    (forall src, is_Some (copied_files st !! src) <->
                 src ∈ concat demo_groups \/ src ∈ walked_files demo_walk) /\
    unique_count st
    = (length demo_groups + length (other_images demo_walk demo_groups))%nat /\
    duplicate_count st = length (concat (map tail demo_groups)).
Proof.
  destruct (copy_files_to_folders copy2_fine {["out/u/a.jpg"]} demo_groups
              demo_walk "out/u" "out/d") as [[st|e]|] eqn:Hrun;
    [|vm_compute in Hrun; discriminate..].
  exists st. split; [reflexivity|].
  apply (every_image_is_copied copy2_fine {["out/u/a.jpg"]} demo_groups
           demo_walk "out/u" "out/d" st copy2_fine_succeeds Hrun).
Defined.

(** X29.  Whatever copies fail, the summary never counts more than was
    attempted: [copied_files] has at most as many entries as the two
    counters together, the unique counter is at most the number of
    groups plus the image files outside the groups, the duplicate
    counter at most the number of later group members, and
    [shutil.copy2] is called once for each of these. *)
Theorem summary_counts_are_bounded (copy2 : copy2_t) (existing : gset string)
    (duplicates : list (list string)) (walk : list (string * list string))
    (unique_folder duplicate_folder : string) (st : copy_state) :
  copy_files_to_folders copy2 existing duplicates walk
                        unique_folder duplicate_folder = Some (Ok st) ->
  (size (copied_files st) <= unique_count st + duplicate_count st)%nat /\
  (unique_count st
   <= length duplicates + length (other_images walk duplicates))%nat /\
  (duplicate_count st <= length (concat (map tail duplicates)))%nat /\
  calls st = (length duplicates + length (other_images walk duplicates)
              + length (concat (map tail duplicates)))%nat.
Proof.
  intros [Hne Hrun]%copy_files_to_folders_Ok.
  apply run_jobs_counts in Hrun as (Hc & Hu & Hd & Hs).
  destruct (jobs_counts duplicates walk unique_folder duplicate_folder Hne)
    as [Hju Hjd].
  simpl in *. rewrite map_size_empty in Hs. rewrite Hju in Hu.
  rewrite Hjd in Hd. repeat split; try lia.
  rewrite Hc, <- Hju, <- Hjd. clear.
  induction (jobs duplicates walk unique_folder duplicate_folder)
    as [|[[f u] s] js IH]; simpl; [done|]. destruct u; lia.
Qed.

Lemma summary_counts_are_bounded_witness :
  exists st,
    copy_files_to_folders copy2_flaky {["out/u/a.jpg"]} demo_groups demo_walk
                          "out/u" "out/d" = Some (Ok st) /\
    (size (copied_files st) <= unique_count st + duplicate_count st)%nat /\
    (unique_count st
     <= length demo_groups + length (other_images demo_walk demo_groups))%nat /\
    (duplicate_count st <= length (concat (map tail demo_groups)))%nat /\
    calls st = (length demo_groups
                + length (other_images demo_walk demo_groups)
                + length (concat (map tail demo_groups)))%nat.
Proof.
  destruct (copy_files_to_folders copy2_flaky {["out/u/a.jpg"]} demo_groups
              demo_walk "out/u" "out/d") as [[st|e]|] eqn:Hrun;
    [|vm_compute in Hrun; discriminate..].
  exists st. split; [reflexivity|].
  apply (summary_counts_are_bounded copy2_flaky {["out/u/a.jpg"]} demo_groups
           demo_walk "out/u" "out/d" st Hrun).
Defined.

(** ** The default output folders *)

Lemma rstrip_sep_cons (c : ascii) (s : string) :
  rstrip_sep (String c s)
  = if Ascii.eqb c "/" && bool_decide (rstrip_sep s = EmptyString)
    then EmptyString else String c (rstrip_sep s).
Proof. done. Qed.

Lemma rstrip_sep_no_trailing (s : string) :
  ends_with_sep s = false -> rstrip_sep s = s.
Proof.
  induction s as [|c s IH]; [done|]. destruct s as [|c' s'].
  - simpl. by intros ->.
  - change (ends_with_sep (String c (String c' s')))
      with (ends_with_sep (String c' s')).
    intros H. specialize (IH H). rewrite rstrip_sep_cons, IH.
    rewrite bool_decide_eq_false_2 by done. by rewrite andb_false_r.
Qed.

Lemma rstrip_sep_app_sep (s : string) :
  rstrip_sep (s ++ "/") = rstrip_sep s.
Proof.
  induction s as [|c s IH]; [done|].
  rewrite string_app_cons. cbn [rstrip_sep]. cbv zeta. by rewrite IH.
Qed.

Lemma rstrip_sep_empty (s : string) :
  rstrip_sep s = EmptyString <-> all_seps s = true.
Proof.
  induction s as [|c s IH]; [done|]. cbn [rstrip_sep all_seps]. cbv zeta.
  destruct (Ascii.eqb c "/"); cbn [andb]; [|done].
  case_bool_decide as Hr.
  - split; [intros _; by apply IH | done].
  - split; [done|]. intros H. by apply IH in H.
Qed.

Lemma ends_with_sep_rstrip (s : string) :
  ends_with_sep (rstrip_sep s) = false.
Proof.
  induction s as [|c s IH]; [done|]. cbn [rstrip_sep]. cbv zeta.
  destruct (Ascii.eqb c "/") eqn:Hc; cbn [andb].
  - case_bool_decide as Hr; [done|].
    destruct (rstrip_sep s) as [|c' r]; [done|]. exact IH.
  - destruct (rstrip_sep s) as [|c' r]; [by simpl; rewrite Hc | exact IH].
Qed.

Lemma all_seps_app (s1 s2 : string) :
  all_seps (s1 ++ s2) = all_seps s1 && all_seps s2.
Proof.
  induction s1 as [|c s1 IH]; [by rewrite string_app_nil_l|].
  rewrite string_app_cons. cbn [all_seps]. rewrite IH.
  by rewrite andb_assoc.
Qed.

Lemma all_seps_ends_with_sep (s : string) :
  s <> EmptyString -> all_seps s = true -> ends_with_sep s = true.
Proof.
  induction s as [|c s IH]; [done|]. intros _. cbn [all_seps].
  intros [Hc Hs]%andb_true_iff. destruct s as [|c' s']; [done|].
  change (ends_with_sep (String c (String c' s')))
    with (ends_with_sep (String c' s')). by apply IH.
Qed.

Lemma ends_with_sep_app_sep (s : string) : ends_with_sep (s ++ "/") = true.
Proof.
  induction s as [|c s IH]; [done|]. rewrite string_app_cons.
  destruct s as [|c' s']; [done|]. rewrite string_app_cons in *.
  exact IH.
Qed.

(** The three shapes of a [dirname]. *)
Lemma dirname_shape (p : string) :
  dirname p = EmptyString \/
  (dirname p <> EmptyString /\ all_seps (dirname p) = true) \/
  (dirname p <> EmptyString /\ ends_with_sep (dirname p) = false).
Proof.
  unfold dirname. cbv zeta.
  set (head := string_take (Z.to_nat (rfind "/" p + 1)) p).
  case_bool_decide as Hempty; cbn [negb andb]; [by left|].
  destruct (all_seps head) eqn:Hall; cbn [negb]; [right; by left|].
  right. right. split; [|apply ends_with_sep_rstrip].
  intros Hr. apply rstrip_sep_empty in Hr. congruence.
Qed.

Lemma dirname_join (h n : string) :
  h = EmptyString \/ (h <> EmptyString /\ all_seps h = true) \/
  (h <> EmptyString /\ ends_with_sep h = false) ->
  rfind "/" n = -1 ->
  dirname (join h n) = h.
Proof.
  intros Hshape Hn. unfold join. rewrite (no_sep_not_absolute n Hn).
  destruct Hshape as [-> | [[Hne Hall] | [Hne Hend]]].
  - cbn [orb bool_decide]. rewrite bool_decide_eq_true_2 by done.
    cbn [orb]. rewrite string_app_nil_l. unfold dirname. cbv zeta.
    rewrite Hn. change (Z.to_nat (-1 + 1)) with 0%nat.
    by destruct n.
  - rewrite bool_decide_eq_false_2 by done. cbn [orb].
    pose proof (all_seps_ends_with_sep h Hne Hall) as Hend. rewrite Hend.
    unfold dirname. cbv zeta. rewrite rfind_app, Hn.
    change (0 <=? -1) with false. cbv iota.
    rewrite (ends_with_sep_rfind h Hend).
    replace (Z.to_nat (Z.of_nat (String.length h) - 1 + 1))
      with (String.length h) by lia.
    rewrite string_take_app. rewrite bool_decide_eq_false_2 by done.
    by rewrite Hall.
  - rewrite bool_decide_eq_false_2 by done. cbn [orb]. rewrite Hend.
    unfold dirname. cbv zeta. rewrite rfind_app. cbn [rfind]. rewrite Hn.
    change (0 <=? -1) with false. cbv iota.
    change (Ascii.eqb "/" "/") with true. cbv iota.
    change (0 <=? 0) with true. cbv iota.
    replace (Z.to_nat (Z.of_nat (String.length h) + 0 + 1))
      with (String.length (h ++ "/")%string)
      by (rewrite string_app_length; simpl; lia).
    replace (h ++ String "/" n)%string with ((h ++ "/") ++ n)%string
      by (by rewrite string_app_assoc).
    rewrite string_take_app.
    assert (all_seps (h ++ "/") = false) as Hall.
    { rewrite all_seps_app. destruct (all_seps h) eqn:Hh; [|done].
      rewrite (all_seps_ends_with_sep h Hne Hh) in Hend. done. }
    rewrite Hall. rewrite bool_decide_eq_false_2 by (by destruct h).
    cbn [negb andb]. rewrite rstrip_sep_app_sep.
    by apply rstrip_sep_no_trailing.
Qed.

(** A path that does not end with a separator has a non-empty base
    name. *)
Lemma basename_nonempty (p : string) :
  p <> EmptyString -> ends_with_sep p = false -> basename p <> EmptyString.
Proof.
  intros Hne Hend Hbase. unfold basename in Hbase.
  pose proof (string_take_drop (Z.to_nat (rfind "/" p + 1)) p) as Hp.
  rewrite Hbase, string_app_nil_r in Hp.
  pose proof (rfind_range "/" p) as Hr.
  assert (String.length (string_take (Z.to_nat (rfind "/" p + 1)) p)
          = Z.to_nat (rfind "/" p + 1)) as Hlen
    by (apply string_take_length; lia).
  rewrite Hp in Hlen.
  assert (rfind "/" p = Z.of_nat (String.length p) - 1) as Hlast by lia.
  clear Hp Hbase Hlen Hr. revert Hne Hend Hlast.
  induction p as [|c p IH]; [done|]. intros _ Hend.
  pose proof (rfind_range "/" p) as Hr. cbn [rfind String.length]. cbv zeta.
  destruct p as [|c' p'].
  - simpl in Hend. simpl. rewrite Hend. lia.
  - change (ends_with_sep (String c (String c' p')))
      with (ends_with_sep (String c' p')) in Hend.
    destruct (0 <=? rfind "/" (String c' p')) eqn:Hle.
    + intros H. apply IH; [done | done |]. cbn [String.length] in *. lia.
    + cbn [String.length]. destruct (Ascii.eqb c "/"); lia.
Qed.

Lemma default_sibling (p sfx : string) :
  rfind "/" sfx = -1 ->
  dirname (join (dirname p) (basename p ++ sfx)) = dirname p /\
  basename (join (dirname p) (basename p ++ sfx))
  = (basename p ++ sfx)%string.
Proof.
  intros Hsfx.
  assert (rfind "/" (basename p ++ sfx) = -1) as Hn.
  { apply rfind_app_absent. split; [apply basename_no_sep | done]. }
  split; [|by apply basename_join].
  apply dirname_join; [apply dirname_shape | done].
Qed.

Lemma string_take_all (s : string) : string_take (String.length s) s = s.
Proof. induction s as [|c s IH]; simpl; [done | by rewrite IH]. Qed.

Lemma string_drop_all (s : string) :
  string_drop (String.length s) s = EmptyString.
Proof. induction s as [|c s IH]; simpl; done. Qed.

Lemma default_inside (d sfx : string) :
  d <> EmptyString -> ends_with_sep d = false ->
  starts_with_sep sfx = false ->
  join (dirname (d ++ "/")) (basename (d ++ "/") ++ sfx)
  = ((d ++ "/") ++ sfx)%string.
Proof.
  intros Hne Hend Hsfx.
  assert (rfind "/" (d ++ "/") = Z.of_nat (String.length (d ++ "/")) - 1)
    as Hr by apply ends_with_sep_rfind, ends_with_sep_app_sep.
  assert (basename (d ++ "/") = EmptyString) as ->.
  { unfold basename. rewrite Hr.
    replace (Z.to_nat (Z.of_nat (String.length (d ++ "/")) - 1 + 1))
      with (String.length (d ++ "/")) by lia.
    apply string_drop_all. }
  assert (dirname (d ++ "/") = d) as ->.
  { unfold dirname. cbv zeta. rewrite Hr.
    replace (Z.to_nat (Z.of_nat (String.length (d ++ "/")) - 1 + 1))
      with (String.length (d ++ "/")) by lia.
    rewrite string_take_all.
    assert (all_seps (d ++ "/") = false) as Hall.
    { rewrite all_seps_app. destruct (all_seps d) eqn:Hd; [|done].
      rewrite (all_seps_ends_with_sep d Hne Hd) in Hend. done. }
    rewrite Hall. rewrite bool_decide_eq_false_2 by (by destruct d).
    cbn [negb andb]. rewrite rstrip_sep_app_sep.
    by apply rstrip_sep_no_trailing. }
  rewrite string_app_nil_l. unfold join. rewrite Hsfx, Hend.
  rewrite bool_decide_eq_false_2 by done. cbn [orb].
  by rewrite string_app_assoc.
Qed.

(** X30.  The default output folders of [main]: for a folder path
    that does not end with a separator they are entries of the folder's
    own parent directory, named after the folder with [_unique] and
    [_duplicates] appended; for the same path written with a trailing
    separator they are [_unique] and [_duplicates] inside the input
    folder. *)
Theorem default_folders_follow_the_trailing_separator (d : string) :
  d <> EmptyString -> ends_with_sep d = false ->
  basename d <> EmptyString /\
  dirname (default_unique d) = dirname d /\
  basename (default_unique d) = (basename d ++ "_unique")%string /\
  dirname (default_duplicate d) = dirname d /\
  basename (default_duplicate d) = (basename d ++ "_duplicates")%string /\
  default_unique (d ++ "/") = join (d ++ "/") "_unique" /\
  default_duplicate (d ++ "/") = join (d ++ "/") "_duplicates".
Proof.
  intros Hne Hend. split; [by apply basename_nonempty|].
  destruct (default_sibling d "_unique" eq_refl) as [Hu1 Hu2].
  destruct (default_sibling d "_duplicates" eq_refl) as [Hd1 Hd2].
  do 4 (split; [done|]).
  unfold default_unique, default_duplicate.
  rewrite !default_inside by done.
  unfold join. cbn [starts_with_sep]. simpl Ascii.eqb. cbv iota.
  rewrite ends_with_sep_app_sep. by rewrite orb_true_r.
Qed.

Lemma default_folders_follow_the_trailing_separator_witness :
  basename "in/pics" <> EmptyString /\
  dirname (default_unique "in/pics") = dirname "in/pics" /\
  basename (default_unique "in/pics") = (basename "in/pics" ++ "_unique")%string /\
  dirname (default_duplicate "in/pics") = dirname "in/pics" /\
  basename (default_duplicate "in/pics")
  = (basename "in/pics" ++ "_duplicates")%string /\
  default_unique ("in/pics" ++ "/") = join ("in/pics" ++ "/") "_unique" /\
  default_duplicate ("in/pics" ++ "/") = join ("in/pics" ++ "/") "_duplicates".
Proof.
  apply (default_folders_follow_the_trailing_separator "in/pics").
  - discriminate.
  - reflexivity.
Defined.
